(** * stoQ framework: the command line surface of [stoq/args.py]

    [StoqArgs(parser)] registers the framework-wide options on an
    [argparse] parser.  This development embeds

    - the Python values the options carry,
    - the part of the standard [argparse] module that [StoqArgs] drives
      (option containers, argument groups, [add_argument], [parse_args]),
      following CPython 3.11's [argparse.py] function by function,
    - [StoqArgs] itself, call by call,
    - the pipeline components that consume the parsed options (recursion
      guard, rate limiter, result router, tagging layer), which live outside
      [args.py] and are modelled from the design document,

    and proves the properties of the configuration surface. *)

From Stdlib Require Import ZArith String Ascii List Bool Lia.
From stdpp Require Import base option list strings gmap.

Local Open Scope string_scope.
Local Open Scope list_scope.

(** ** Python values *)

(** The values that reach a namespace attribute or a keyword argument.
    [SUPPRESS] is argparse's sentinel (compared with [is] in the source). *)
Inductive Builtin : Type := int.

#[global] Instance Builtin_eq_dec : EqDecision Builtin.
Proof. solve_decision. Defined.

#[local] Unset Elimination Schemes.
Inductive Value : Type :=
| VNone
| VBool (b : bool)
| VInt (z : Z)
| VStr (s : string)
| VList (l : list Value)
| VBuiltin (f : Builtin)
| SUPPRESS.
#[local] Set Elimination Schemes.

Abbreviation False_ := (VBool false).
Abbreviation True_ := (VBool true).

Lemma Value_nested_ind (P : Value → Prop) :
  P VNone → (∀ b, P (VBool b)) → (∀ z, P (VInt z)) → (∀ s, P (VStr s)) →
  (∀ l, Forall P l → P (VList l)) → (∀ f, P (VBuiltin f)) → P SUPPRESS →
  ∀ v, P v.
Proof.
  intros HN HB HI HS HL HF HU. fix IH 1.
  intros [ | b | z | s | l | f | ];
    [exact HN | apply HB | apply HI | apply HS | | apply HF | exact HU].
  apply HL. induction l as [ | x l IHl]; constructor; [apply IH | exact IHl].
Qed.

Fixpoint Value_eqb (a b : Value) {struct a} : bool :=
  match a, b with
  | VNone, VNone => true
  | VBool x, VBool y => Bool.eqb x y
  | VInt x, VInt y => Z.eqb x y
  | VStr x, VStr y => String.eqb x y
  | VList l, VList l' =>
      (fix go (l l' : list Value) {struct l} : bool :=
         match l, l' with
         | [], [] => true
         | x :: l, y :: l' => Value_eqb x y && go l l'
         | _, _ => false
         end) l l'
  | VBuiltin f, VBuiltin g => bool_decide (f = g)
  | SUPPRESS, SUPPRESS => true
  | _, _ => false
  end.

Lemma Value_eqb_eq (a b : Value) : Value_eqb a b = true ↔ a = b.
Proof.
  revert b. induction a as [ | x | x | x | l IHl | x | ] using Value_nested_ind;
    intros [ | y | y | y | l' | y | ]; simpl;
    try (split; [discriminate | discriminate]); try (split; reflexivity).
  - rewrite Bool.eqb_true_iff. split; congruence.
  - rewrite Z.eqb_eq. split; congruence.
  - rewrite String.eqb_eq. split; congruence.
  - revert l'. induction IHl as [ | x l Hx _ IH]; intros [ | y l'];
      try (split; [discriminate | discriminate]); try (split; reflexivity).
    rewrite andb_true_iff, Hx, IH. split.
    + intros [-> H]. congruence.
    + intros H. split; congruence.
  - rewrite bool_decide_eq_true. split; congruence.
Qed.

#[global] Instance Value_eq_dec : EqDecision Value.
Proof.
  refine (λ a b,
    match Value_eqb a b as r return Value_eqb a b = r → Decision (a = b) with
    | true => λ H, left _
    | false => λ H, right _
    end eq_refl).
  - apply Value_eqb_eq, H.
  - intros E. apply Value_eqb_eq in E. congruence.
Defined.

(** Python's [==] on these values: a [bool] is an [int] ([True == 1]),
    lists compare element-wise, everything else is equal to itself only. *)
Fixpoint py_eq (a b : Value) {struct a} : bool :=
  match a, b with
  | VNone, VNone => true
  | VBool x, VBool y => Bool.eqb x y
  | VBool x, VInt z | VInt z, VBool x => Z.eqb (Z.b2z x) z
  | VInt x, VInt y => Z.eqb x y
  | VStr x, VStr y => String.eqb x y
  | VList l, VList l' =>
      (fix go (l l' : list Value) {struct l} : bool :=
         match l, l' with
         | [], [] => true
         | x :: l, y :: l' => py_eq x y && go l l'
         | _, _ => false
         end) l l'
  | VBuiltin f, VBuiltin g => bool_decide (f = g)
  | SUPPRESS, SUPPRESS => true
  | _, _ => false
  end.

(** [value in choices] *)
Definition py_in (v : Value) (choices : list Value) : bool :=
  existsb (py_eq v) choices.

(** ** Exceptions *)

(** The messages argparse reports, with their data instead of the rendered
    text. *)
Inductive Message : Type :=
| conflicting_option_strings (options : list string)
| expected_one_argument
| expected_n_arguments (n : nat)
| ignored_explicit_argument (explicit_arg : string)
| invalid_type_value (type_name value : string)
| invalid_choice (value : Value) (choices : list Value)
| ambiguous_option (option : string) (matches : list string)
| unrecognized_arguments (argv : list string)
| unexpected_option_string (option : string)
| arguments_required (names : list string).

(** [SystemExit status] is what [parser.error] (status 2) and the help
    action (status 0) end in; [ArgumentError] is caught by
    [parse_known_args] and raised uncaught by [add_argument].
    [NotModelled] marks the argparse features left out of this embedding
    (positional arguments, the append/count/version actions, the REMAINDER
    and PARSER arities, the ['resolve'] conflict handler); [StoqArgs] uses
    none of them, and meets the last only on a parser that was built with
    it and has one of the option strings of [StoqArgs] already. *)
Inductive Exn : Type :=
| ArgumentError (argument_name : string) (msg : Message)
| SystemExit (status : Z) (msg : option Message)
| ValueError (what : string)
| TypeError (what : string)
| IndexError
| AttributeError
| NotModelled (what : string).

Inductive result (A : Type) : Type :=
| Ok (a : A)
| Raise (e : Exn).
Arguments Ok {A} a.
Arguments Raise {A} e.

Definition rbind {A B} (c : result A) (k : A → result B) : result B :=
  match c with
  | Ok a => k a
  | Raise e => Raise e
  end.

Declare Scope py_scope.
Delimit Scope py_scope with py.
Notation "'let*' x ':=' c 'in' k" := (rbind c (fun x => k))
  (at level 10, x name, c at level 100, k at level 200) : py_scope.
Notation "'let*' ' pat ':=' c 'in' k" :=
  (rbind c (fun x => match x with pat => k end))
  (at level 10, pat pattern, c at level 100, k at level 200) : py_scope.
Local Open Scope py_scope.

(** [parser.error(message)] *)
Definition error {A} (msg : Message) : result A :=
  Raise (SystemExit 2 (Some msg)).

(** ** Strings *)

(** [s[0] in chars]; [None] when [s] is empty (Python raises IndexError on
    [s[0]]). *)
Definition first_char (s : string) : option ascii :=
  match s with
  | EmptyString => None
  | String c _ => Some c
  end.

Fixpoint char_in (c : ascii) (chars : string) : bool :=
  match chars with
  | EmptyString => false
  | String d chars => Ascii.eqb c d || char_in c chars
  end.

(** [s.startswith(p)] *)
Fixpoint startswith (s p : string) {struct p} : bool :=
  match p, s with
  | EmptyString, _ => true
  | String c p, String d s => Ascii.eqb c d && startswith s p
  | String _ _, EmptyString => false
  end.

(** [s.split(sep, 1)] when [sep in s]: the text before and after the first
    [sep]; [None] when [sep] does not occur. *)
Fixpoint split_once (sep : ascii) (s : string) : option (string * string) :=
  match s with
  | EmptyString => None
  | String c s =>
      if Ascii.eqb c sep then Some (EmptyString, s)
      else match split_once sep s with
           | Some (a, b) => Some (String c a, b)
           | None => None
           end
  end.

(** [s.lstrip(chars)] *)
Fixpoint lstrip (chars s : string) : string :=
  match s with
  | EmptyString => EmptyString
  | String c s' => if char_in c chars then lstrip chars s' else s
  end.

(** [s.replace(a, b)] for single characters *)
Fixpoint replace_char (a b : ascii) (s : string) : string :=
  match s with
  | EmptyString => EmptyString
  | String c s => String (if Ascii.eqb c a then b else c) (replace_char a b s)
  end.

(** ** argparse: actions *)

(** [action.nargs]: [None], ['?'], ['*'], ['+'] or a count. *)
Inductive Nargs : Type :=
| nargs_None
| OPTIONAL
| ZERO_OR_MORE
| ONE_OR_MORE
| nargs_int (n : nat).

(** The action classes behind the registry names ['store'], ['store_const'],
    ['store_true'], ['store_false'] and ['help']. *)
Inductive ActionClass : Type :=
| _StoreAction
| _StoreConstAction
| _StoreTrueAction
| _StoreFalseAction
| _HelpAction.

Record Action : Type := mkAction {
  action_class : ActionClass;
  option_strings : list string;
  dest : string;
  nargs : Nargs;
  const : Value;
  default : Value;
  type_ : Value;
  choices : option (list Value);
  required : bool;
  help : Value;
  metavar : Value
}.

#[global] Instance Nargs_eq_dec : EqDecision Nargs.
Proof. solve_decision. Defined.
#[global] Instance ActionClass_eq_dec : EqDecision ActionClass.
Proof. solve_decision. Defined.
#[global] Instance Action_eq_dec : EqDecision Action.
Proof. solve_decision. Defined.

(** Keyword arguments of a call, in call order. *)
Definition Kwargs : Type := list (string * Value).

Notation "k =: v" := (@pair string Value k v) (at level 60, no associativity).

Fixpoint kw_get (k : string) (kwargs : Kwargs) : option Value :=
  match kwargs with
  | [] => None
  | (k', v) :: kwargs => if String.eqb k k' then Some v else kw_get k kwargs
  end.

Definition kw_pop (k : string) (kwargs : Kwargs) : Kwargs :=
  filter (λ kv, fst kv ≠ k) kwargs.

Definition kw_default (k : string) (d : Value) (kwargs : Kwargs) : Value :=
  match kw_get k kwargs with
  | Some v => v
  | None => d
  end.

(** A call with a keyword the constructor does not declare is a TypeError. *)
Definition check_keywords (allowed : list string) (kwargs : Kwargs)
  : result unit :=
  match filter (λ kv, fst kv ∉ allowed) kwargs with
  | [] => Ok tt
  | (k, _) :: _ => Raise (TypeError k)
  end.

Definition nargs_of_value (v : Value) : result Nargs :=
  match v with
  | VNone => Ok nargs_None
  | VStr "?" => Ok OPTIONAL
  | VStr "*" => Ok ZERO_OR_MORE
  | VStr "+" => Ok ONE_OR_MORE
  | VInt n => if (0 <=? n)%Z then Ok (nargs_int (Z.to_nat n))
              else Raise (NotModelled "negative nargs")
  | _ => Raise (NotModelled "nargs")
  end.

Definition choices_of_value (v : Value) : result (option (list Value)) :=
  match v with
  | VNone => Ok None
  | VList l => Ok (Some l)
  | _ => Raise (NotModelled "choices container")
  end.

Definition required_of_value (v : Value) : result bool :=
  match v with
  | VBool b => Ok b
  | _ => Raise (NotModelled "required")
  end.

(** [_StoreAction.__init__] *)
Definition new_StoreAction (option_strings : list string) (dest : string)
    (kwargs : Kwargs) : result Action :=
  let* _ := check_keywords ["nargs"; "const"; "default"; "type"; "choices";
                            "required"; "help"; "metavar"] kwargs in
  let* nargs := nargs_of_value (kw_default "nargs" VNone kwargs) in
  let const := kw_default "const" VNone kwargs in
  if decide (nargs = nargs_int 0) then
    Raise (ValueError "nargs for store actions must be != 0")
  else if bool_decide (const ≠ VNone) && bool_decide (nargs ≠ OPTIONAL) then
    Raise (ValueError "nargs must be '?' to supply const")
  else
    let* choices := choices_of_value (kw_default "choices" VNone kwargs) in
    let* required := required_of_value (kw_default "required" False_ kwargs) in
    Ok {| action_class := _StoreAction;
          option_strings := option_strings;
          dest := dest;
          nargs := nargs;
          const := const;
          default := kw_default "default" VNone kwargs;
          type_ := kw_default "type" VNone kwargs;
          choices := choices;
          required := required;
          help := kw_default "help" VNone kwargs;
          metavar := kw_default "metavar" VNone kwargs |}.

(** [_StoreConstAction.__init__]; [_StoreTrueAction] and [_StoreFalseAction]
    call it with [const=True, default=False] and [const=False, default=True]
    where the caller gave no default. *)
Definition new_StoreConstAction (cls : ActionClass) (allowed : list string)
    (const_ default_ : Value) (option_strings : list string) (dest : string)
    (kwargs : Kwargs) : result Action :=
  let* _ := check_keywords allowed kwargs in
  let* required := required_of_value (kw_default "required" False_ kwargs) in
  Ok {| action_class := cls;
        option_strings := option_strings;
        dest := dest;
        nargs := nargs_int 0;
        const := kw_default "const" const_ kwargs;
        default := kw_default "default" default_ kwargs;
        type_ := VNone;
        choices := None;
        required := required;
        help := kw_default "help" VNone kwargs;
        metavar := kw_default "metavar" VNone kwargs |}.

(** [_HelpAction.__init__] *)
Definition new_HelpAction (option_strings : list string) (dest : string)
    (kwargs : Kwargs) : result Action :=
  let* _ := check_keywords ["default"; "help"] kwargs in
  Ok {| action_class := _HelpAction;
        option_strings := option_strings;
        dest := dest;
        nargs := nargs_int 0;
        const := VNone;
        default := kw_default "default" SUPPRESS kwargs;
        type_ := VNone;
        choices := None;
        required := false;
        help := kw_default "help" VNone kwargs;
        metavar := VNone |}.

(** [self._registry_get('action', action, action)] followed by the call of
    the class found on the keyword arguments. *)
Definition new_action (action : Value) (option_strings : list string)
    (dest : string) (kwargs : Kwargs) : result Action :=
  match action with
  | VNone | VStr "store" => new_StoreAction option_strings dest kwargs
  | VStr "store_const" =>
      match kw_get "const" kwargs with
      | None => Raise (TypeError "const")
      | Some _ =>
          new_StoreConstAction _StoreConstAction
            ["const"; "default"; "required"; "help"; "metavar"]
            VNone VNone option_strings dest kwargs
      end
  | VStr "store_true" =>
      new_StoreConstAction _StoreTrueAction ["default"; "required"; "help"]
        True_ False_ option_strings dest kwargs
  | VStr "store_false" =>
      new_StoreConstAction _StoreFalseAction ["default"; "required"; "help"]
        False_ True_ option_strings dest kwargs
  | VStr "help" => new_HelpAction option_strings dest kwargs
  | VStr "append" | VStr "append_const" | VStr "count" | VStr "version"
  | VStr "parsers" | VStr "extend" => Raise (NotModelled "action class")
  | _ => Raise (ValueError "unknown action")
  end.

(** [_get_action_name]: ['/'.join(option_strings)] for an optional. *)
Definition _get_action_name (action : Action) : string :=
  String.concat "/" (option_strings action).

(** ** argparse: containers *)

(** A Python [dict] with string keys, in insertion order. *)
Fixpoint dict_get {V} (k : string) (d : list (string * V)) : option V :=
  match d with
  | [] => None
  | (k', v) :: d => if String.eqb k k' then Some v else dict_get k d
  end.

Fixpoint dict_set {V} (k : string) (v : V) (d : list (string * V))
  : list (string * V) :=
  match d with
  | [] => [(k, v)]
  | (k', v') :: d =>
      if String.eqb k k' then (k, v) :: d else (k', v') :: dict_set k v d
  end.

(** An argument group shares [_actions], [_option_string_actions],
    [_defaults] and [_has_negative_number_optionals] with its container, so
    only what the group owns is stored here: its title, its actions, and
    the [argument_default] and [conflict_handler] it copied from the
    container when it was made. *)
Record ArgumentGroup : Type := mkGroup {
  title : Value;
  group_argument_default : Value;
  group_conflict_handler : string;
  _group_actions : list Action
}.

(** The parser object.  [allow_abbrev] is true, as [ArgumentParser()] sets
    it. *)
Record ArgumentParser : Type := mkParser {
  prefix_chars : string;
  argument_default : Value;
  conflict_handler : string;
  _defaults : list (string * Value);
  _actions : list Action;
  _option_string_actions : list (string * Action);
  _has_negative_number_optionals : list bool;
  _action_groups : list ArgumentGroup
}.

(** Objects live in a heap; a parser is the reference to its cell and a
    group is named by its parser and its position in [_action_groups]. *)
Abbreviation loc := positive.

Inductive Container : Type :=
| parser_ref (p : loc)
| group_ref (p : loc) (i : nat).

Abbreviation Heap := (gmap loc ArgumentParser).

(** The namespace is the attribute dictionary of the [Namespace] object. *)
Abbreviation Namespace := (gmap string Value).

(** Commands on the heap; an exception keeps the heap reached so far. *)
Definition M (A : Type) : Type := Heap → result A * Heap.

Definition mret {A} (a : A) : M A := λ h, (Ok a, h).

Definition mbind {A B} (c : M A) (k : A → M B) : M B :=
  λ h, match c h with
       | (Ok a, h') => k a h'
       | (Raise e, h') => (Raise e, h')
       end.

Declare Scope heap_scope.
Delimit Scope heap_scope with heap.
Notation "x ← c ; k" := (mbind c (fun x => k))
  (at level 20, c at level 100, k at level 200, only parsing) : heap_scope.
Notation "c ;; k" := (mbind c (fun _ => k))
  (at level 100, k at level 200, right associativity) : heap_scope.

(** ** Two builtins on ASCII text

    [int(s)] and the regular expression behind [_negative_number_matcher]
    consult Unicode tables.  The development is parametric in both; these
    are their behaviours on ASCII text (every character below 128), used
    to run the definitions at concrete argument lists.  Text with a
    character outside ASCII is outside them: [int] also takes the decimal
    digits and the spaces of other scripts. *)

Definition is_digit (c : ascii) : bool :=
  let n := nat_of_ascii c in (48 <=? n)%nat && (n <=? 57)%nat.

(** The ASCII characters [int] skips around the number: tab, newline,
    vertical tab, form feed, carriage return and space. *)
Definition is_space (c : ascii) : bool :=
  let n := nat_of_ascii c in
  ((9 <=? n)%nat && (n <=? 13)%nat) || (n =? 32)%nat.

Fixpoint all_digits (s : string) : bool :=
  match s with
  | EmptyString => true
  | String c s => is_digit c && all_digits s
  end.

Fixpoint string_rev_onto (s acc : string) : string :=
  match s with
  | EmptyString => acc
  | String c s => string_rev_onto s (String c acc)
  end.

Definition strip (s : string) : string :=
  let fix lstrip_space (s : string) : string :=
    match s with
    | String c s' => if is_space c then lstrip_space s' else s
    | EmptyString => EmptyString
    end in
  string_rev_onto
    (lstrip_space (string_rev_onto (lstrip_space s) EmptyString))
    EmptyString.

(** Decimal digits with single underscores between them, most significant
    first; [acc] is the value read so far and [after_digit] tells whether
    an underscore may come next. *)
Fixpoint digits_value (s : string) (acc : Z) (after_digit : bool)
  : option Z :=
  match s with
  | EmptyString => if after_digit then Some acc else None
  | String c s =>
      if is_digit c then
        digits_value s (acc * 10 + Z.of_nat (nat_of_ascii c - 48))%Z true
      else if Ascii.eqb c "_" && after_digit then digits_value s acc false
      else None
  end.

Fixpoint count_digits (s : string) : nat :=
  match s with
  | EmptyString => 0
  | String c s => (if is_digit c then 1 else 0) + count_digits s
  end.

(** [sys.get_int_max_str_digits()], at its default. *)
Definition int_max_str_digits : nat := 4300.

(** [int(s)] on ASCII text: [None] stands for its ValueError, raised also
    for more digits than [int_max_str_digits], leading zeros counted and
    underscores not. *)
Definition int_ascii (s : string) : option Z :=
  let number (s : string) : option Z :=
    if (int_max_str_digits <? count_digits s)%nat then None
    else digits_value s 0 false in
  match strip s with
  | String "-" s => option_map Z.opp (number s)
  | String "+" s => number s
  | s => number s
  end.

(** [^-\d+$|^-\d*\.\d+$]; [$] also matches before a final newline. *)
Definition negative_number_ascii (s : string) : bool :=
  let body (s : string) : bool :=
    match split_once "." s with
    | None => all_digits s && negb (String.eqb s "")
    | Some (a, b) => all_digits a && all_digits b && negb (String.eqb b "")
    end in
  match s with
  | String "-" s =>
      body s ||
      match string_rev_onto s EmptyString with
      | String "010" r => body (string_rev_onto r EmptyString)
      | _ => false
      end
  | _ => false
  end.

(** ** The pipeline components behind the options

    [args.py] only declares the options; the components that read them are
    described in the design document and are modelled from it. *)

Module RecursionGuard.

(** The ceiling read from the parsed [max_recursion]: unset when the option
    was not given (the namespace then holds [False]). *)
Definition configured (max_recursion : Value) : option Z :=
  match max_recursion with
  | VInt m => Some m
  | _ => None
  end.

(** Modelled from the spec: the Recursion Guard (section 4.2), absent from
    [args.py].  [allow(lineage_depth)] is true iff
    [lineage_depth <= max_recursion]; an unset or zero ceiling means that
    recursion is disabled and the depth must be 0. *)
Definition allow (max_recursion : option Z) (lineage_depth : nat) : bool :=
  match max_recursion with
  | None | Some 0%Z => Nat.eqb lineage_depth 0
  | Some m => (Z.of_nat lineage_depth <=? m)%Z
  end.

(** The ceiling the comparison uses when none is set. *)
Definition ceiling (max_recursion : option Z) : Z :=
  match max_recursion with
  | Some m => m
  | None => 0
  end.

End RecursionGuard.

Module RateLimiter.

(** [count] payloads per window of [seconds] ticks. *)
Record Config : Type := mkConfig {
  count : nat;
  seconds : Z
}.

(** The window that is open and the admissions it has granted. *)
Record State : Type := mkState {
  window_start : Z;
  used : nat
}.

(** Modelled from the spec: the Rate Limiter (section 4.3), absent from
    [args.py], as a fixed window token count.  [admit()] at time [now]:
    a call at or past the end of the window opens a new window with a full
    budget; the call is granted while the window has budget left.  The
    design serialises admission checks (section 5), so one call is one
    atomic step on the shared state. *)
Definition admit_ (cfg : Config) (now : Z) (s : State) : bool * State :=
  let s := if (window_start s + seconds cfg <=? now)%Z
           then {| window_start := now; used := 0 |} else s in
  if (used s <? count cfg)%nat
  then (true, {| window_start := window_start s; used := S (used s) |})
  else (false, s).

(** The calls of any number of callers in the order in which they take the
    lock: each call names its caller and its time. *)
Fixpoint admit_all (cfg : Config) (calls : list (nat * Z)) (s : State)
  : list bool * State :=
  match calls with
  | [] => ([], s)
  | (_, now) :: calls =>
      let '(r, s) := admit_ cfg now s in
      let '(rs, s) := admit_all cfg calls s in
      (r :: rs, s)
  end.



End RateLimiter.

Module ResultRouter.

(** The output of one worker plugin over one payload. *)
Record PluginResult : Type := mkResult {
  plugin : string;
  body : string;
  children : list string;
  success : bool
}.

Inductive Mode : Type := combined | split.

(** The delivery mode the parsed [combined_results] selects. *)
Definition mode_of (combined_results : Value) : Mode :=
  match combined_results with
  | VBool false => split
  | _ => combined
  end.

(** What a connector receives: the aggregate of a payload's successful
    results, or one result. *)
Inductive Routed : Type :=
| Aggregate (payload : string) (results : list PluginResult)
| Single (payload : string) (result : PluginResult).

(** Modelled from the spec: the Result Router (section 4.5), absent from
    [args.py].  In combined mode the successful results are merged into one
    aggregate record, sent once per configured output connector; in split
    mode one record per PluginResult is sent per connector. *)
Definition route (connectors : list string) (payload : string)
    (results : list PluginResult) (mode : Mode) : list (string * Routed) :=
  match mode with
  | combined =>
      map (λ c, (c, Aggregate payload (filter (λ r, success r = true) results)))
          connectors
  | split =>
      flat_map (λ c, map (λ r, (c, Single payload r)) results) connectors
  end.

(** The extracted children go to the archive connector in either mode. *)
Definition archive (archive_connector : string) (results : list PluginResult)
  : list (string * string) :=
  flat_map (λ r, map (λ child, (archive_connector, child)) (children r)) results.

(** The records that reached one connector. *)
Definition routed_to (c : string) (sent : list (string * Routed))
  : list Routed :=
  map snd (filter (λ d, fst d = c) sent).

End ResultRouter.

Module TaggingLayer.

Inductive Error : Type := InvalidMetadataFormat (item : string).

Inductive outcome (A : Type) : Type :=
| Tagged (a : A)
| Rejected (e : Error).
Arguments Tagged {A} a.
Arguments Rejected {A} e.

(** Modelled from the spec: the metadata pairs of the Tagging Layer
    (section 4.7), absent from [args.py].  A pair must parse as
    [key:value]; the key ends at the first colon. *)
Definition parse_pair (item : string) : outcome (string * string) :=
  match split_once ":" item with
  | Some (key, value) => Tagged (key, value)
  | None => Rejected (InvalidMetadataFormat item)
  end.

Record Payload : Type := mkPayload {
  content : string;
  tags : list string;
  attributes : list (string * string)
}.

Fixpoint parse_pairs (pairs : list string)
  : outcome (list (string * string)) :=
  match pairs with
  | [] => Tagged []
  | item :: pairs =>
      match parse_pair item, parse_pairs pairs with
      | Rejected e, _ => Rejected e
      | Tagged _, Rejected e => Rejected e
      | Tagged kv, Tagged kvs => Tagged (kv :: kvs)
      end
  end.

(** Modelled from the spec: [tag(payload, classification, metadata_pairs)]
    gives a new payload with the classification in its tag set and the
    pairs merged into its attributes, or rejects a malformed pair. *)
Definition tag (payload : Payload) (classification : string)
    (metadata_pairs : list string) : outcome Payload :=
  match parse_pairs metadata_pairs with
  | Rejected e => Rejected e
  | Tagged kvs =>
      Tagged {| content := content payload;
                tags := if decide (classification ∈ tags payload)
                        then tags payload
                        else tags payload ++ [classification];
                attributes :=
                  foldl (λ d kv, dict_set (fst kv) (snd kv) d)
                        (attributes payload) kvs |}
  end.

End TaggingLayer.

Section Stoq.

(** The two library functions argparse calls whose tables lie outside it:
    [int(s)] ([None] when it raises ValueError) and the regular expression
    engine on [_negative_number_matcher].  Every result below holds for any
    behaviour of the two. *)
Variable int_call : string → option Z.
Variable re_match_negative_number : string → bool.

(** [self._negative_number_matcher.match(s)].  The expression asks for a
    dash and then a digit or a dot, so the engine only decides the strings
    whose second character is an ASCII digit, a dot, or not ASCII. *)
Definition negative_number (s : string) : bool :=
  match s with
  | String "-" (String c _) =>
      if is_digit c || Ascii.eqb c "." || (128 <=? nat_of_ascii c)%nat
      then re_match_negative_number s
      else false
  | _ => false
  end.

(** [_get_optional_kwargs]: the option strings and the destination. *)
Fixpoint option_strings_of (chars : string) (args : list string)
  : result (list string * list string) :=
  match args with
  | [] => Ok ([], [])
  | option_string :: args =>
      match option_string with
      | EmptyString => Raise IndexError
      | String c rest =>
          if negb (char_in c chars) then Raise (ValueError "invalid option string")
          else
            let* '(option_strings, long_option_strings) :=
              option_strings_of chars args in
            Ok (option_string :: option_strings,
                match rest with
                | String c' _ =>
                    if char_in c' chars
                    then option_string :: long_option_strings
                    else long_option_strings
                | EmptyString => long_option_strings
                end)
      end
  end.

Definition _get_optional_kwargs (chars : string) (args : list string)
    (kwargs : Kwargs) : result (list string * string * Kwargs) :=
  let* '(option_strings, long_option_strings) := option_strings_of chars args in
  let* dest :=
    match kw_default "dest" VNone kwargs with
    | VNone =>
        let dest_option_string :=
          match long_option_strings, option_strings with
          | l :: _, _ => l
          | [], o :: _ => o
          | [], [] => EmptyString
          end in
        let dest := lstrip chars dest_option_string in
        if String.eqb dest "" then Raise (ValueError "dest= is required")
        else Ok (replace_char "-" "_" dest)
    | VStr dest => Ok dest
    | _ => Raise (NotModelled "dest")
    end in
  Ok (option_strings, dest, kw_pop "dest" kwargs).

(** [_check_conflict]: the handler of the container is looked up only when
    an option string is taken.  The ['error'] handler raises.  The
    ['resolve'] handler, which takes the clashing option strings away from
    the actions that had them, is not modelled. *)
Definition _check_conflict (P : ArgumentParser) (handler : string)
    (action : Action) : result unit :=
  match filter (λ o, is_Some (dict_get o (_option_string_actions P)))
               (option_strings action) with
  | [] => Ok tt
  | confl_optionals =>
      if String.eqb handler "error" then
        Raise (ArgumentError (_get_action_name action)
                             (conflicting_option_strings confl_optionals))
      else if String.eqb handler "resolve" then
        Raise (NotModelled "conflict_handler='resolve'")
      else Raise (ValueError "invalid conflict_resolution value")
  end.

(** [_ActionsContainer._add_action] after the conflict check, and the
    group's own [_group_actions.append(action)]. *)
Definition _add_action (P : ArgumentParser) (group : nat) (action : Action)
  : ArgumentParser :=
  {| prefix_chars := prefix_chars P;
     argument_default := argument_default P;
     conflict_handler := conflict_handler P;
     _defaults := _defaults P;
     _actions := _actions P ++ [action];
     _option_string_actions :=
       foldl (λ d o, dict_set o action d) (_option_string_actions P)
             (option_strings action);
     _has_negative_number_optionals :=
       foldl (λ flag o,
                if negative_number o
                then (match flag with [] => [true] | _ => flag end)
                else flag)
             (_has_negative_number_optionals P) (option_strings action);
     _action_groups :=
       alter (λ g, {| title := title g;
                      group_argument_default := group_argument_default g;
                      group_conflict_handler := group_conflict_handler g;
                      _group_actions := _group_actions g ++ [action] |})
             group (_action_groups P) |}.

(** [add_argument(self, *args, **kwargs)] on the container that owns group
    number [group], whose [argument_default] is [arg_default] and whose
    [conflict_handler] is [handler]. *)
Definition add_argument_to (P : ArgumentParser) (group : nat)
    (arg_default : Value) (handler : string) (args : list string)
    (kwargs : Kwargs) : result (Action * ArgumentParser) :=
  let chars := prefix_chars P in
  let* positional :=
    match args with
    | [] => Ok true
    | [a] => match first_char a with
             | None => Raise IndexError
             | Some c => Ok (negb (char_in c chars))
             end
    | _ => Ok false
    end in
  if positional : bool then Raise (NotModelled "positional argument")
  else
    let* '(option_strings, dest, kwargs) :=
      _get_optional_kwargs chars args kwargs in
    let kwargs :=
      match kw_get "default" kwargs with
      | Some _ => kwargs
      | None =>
          match dict_get dest (_defaults P) with
          | Some d => kwargs ++ ["default" =: d]
          | None =>
              if decide (arg_default = VNone) then kwargs
              else kwargs ++ ["default" =: arg_default]
          end
      end in
    let* action :=
      new_action (kw_default "action" VNone kwargs) option_strings dest
                 (kw_pop "action" kwargs) in
    let* _ :=
      match type_ action with
      | VNone | VBuiltin _ => Ok tt
      | _ => Raise (ValueError "type is not callable")
      end in
    let* _ := _check_conflict P handler action in
    Ok (action, _add_action P group action).

(** [container.add_argument(...)]: a parser files its optionals under its
    second group ([self._optionals]), and that group checks the conflicts. *)
Definition add_argument (self : Container) (args : list string)
    (kwargs : Kwargs) : M Action :=
  λ h,
    let '(p, group) := match self with
                       | parser_ref p => (p, None)
                       | group_ref p i => (p, Some i)
                       end in
    match h !! p with
    | None => (Raise AttributeError, h)
    | Some P =>
        match
          (match group with
           | None =>
               Ok (1, argument_default P,
                   match _action_groups P !! 1 with
                   | Some g => group_conflict_handler g
                   | None => conflict_handler P
                   end)
           | Some i =>
               match _action_groups P !! i with
               | Some g =>
                   Ok (i, group_argument_default g, group_conflict_handler g)
               | None => Raise AttributeError
               end
           end) with
        | Raise e => (Raise e, h)
        | Ok (i, arg_default, handler) =>
            match add_argument_to P i arg_default handler args kwargs with
            | Ok (action, P') => (Ok action, <[p := P']> h)
            | Raise e => (Raise e, h)
            end
        end
    end.

(** [parser.add_argument_group(title)]: a new group that copies the
    parser's [argument_default] and [conflict_handler] and joins
    [_action_groups]. *)
Definition add_argument_group (self : loc) (title : string) : M Container :=
  λ h,
    match h !! self with
    | None => (Raise AttributeError, h)
    | Some P =>
        let group := {| title := VStr title;
                        group_argument_default := argument_default P;
                        group_conflict_handler := conflict_handler P;
                        _group_actions := [] |} in
        (Ok (group_ref self (length (_action_groups P))),
         <[self := {| prefix_chars := prefix_chars P;
                      argument_default := argument_default P;
                      conflict_handler := conflict_handler P;
                      _defaults := _defaults P;
                      _actions := _actions P;
                      _option_string_actions := _option_string_actions P;
                      _has_negative_number_optionals :=
                        _has_negative_number_optionals P;
                      _action_groups := _action_groups P ++ [group] |}]> h)
    end.

(** [argparse.ArgumentParser()]: a fresh object with the two standard groups
    and the [-h/--help] action. *)
Definition fresh (h : Heap) : loc :=
  match (map_to_list h).*1 with
  | [] => 1%positive
  | l => Pos.succ (foldr Pos.max 1%positive l)
  end.

Definition ArgumentParser_new : M loc :=
  λ h,
    let self := fresh h in
    let P := {| prefix_chars := "-";
                argument_default := VNone;
                conflict_handler := "error";
                _defaults := [];
                _actions := [];
                _option_string_actions := [];
                _has_negative_number_optionals := [];
                _action_groups := [] |} in
    (_ ← add_argument_group self "positional arguments" ;
     _ ← add_argument_group self "options" ;
     _ ← add_argument (parser_ref self) ["-h"; "--help"]
           ["action" =: VStr "help"; "default" =: SUPPRESS;
            "help" =: VStr "show this help message and exit"] ;
     mret self)%heap (<[self := P]> h).

(** ** argparse: parsing *)

(** What [_parse_optional] returns for an option-like string: the action
    (or [None]), the option string and the explicit argument (or [None]). *)
Definition OptionTuple : Type := option Action * string * option string.

(** One character of [arg_strings_pattern], with the option tuple that
    [option_string_indices] keeps for an ['O']. *)
Inductive ArgClass : Type :=
| cls_A
| cls_O (option_tuple : OptionTuple)
| cls_dash.

(** [_get_option_tuples]: the registered option strings that the given
    string abbreviates, in dictionary order. *)
Definition _get_option_tuples (P : ArgumentParser) (option_string : string)
  : result (list OptionTuple) :=
  let chars := prefix_chars P in
  match option_string with
  | String c0 (String c1 short_explicit_arg) =>
      if char_in c0 chars && char_in c1 chars then
        let '(option_prefix, explicit_arg) :=
          match split_once "=" option_string with
          | Some (option_prefix, explicit_arg) =>
              (option_prefix, Some explicit_arg)
          | None => (option_string, None)
          end in
        Ok (omap (λ '(o, action),
                    if startswith o option_prefix
                    then Some (Some action, o, explicit_arg) else None)
                 (_option_string_actions P))
      else if char_in c0 chars && negb (char_in c1 chars) then
        let option_prefix := option_string in
        let short_option_prefix := String c0 (String c1 EmptyString) in
        Ok (omap (λ '(o, action),
                    if String.eqb o short_option_prefix
                    then Some (Some action, o, Some short_explicit_arg)
                    else if startswith o option_prefix
                    then Some (Some action, o, None) else None)
                 (_option_string_actions P))
      else
        error (unexpected_option_string option_string)
  | _ => Raise IndexError
  end.

(** [_parse_optional]: [None] for a positional-looking string. *)
Definition _parse_optional (P : ArgumentParser) (arg_string : string)
  : result (option OptionTuple) :=
  match arg_string with
  | EmptyString => Ok None
  | String c0 rest =>
      if negb (char_in c0 (prefix_chars P)) then Ok None
      else
        match dict_get arg_string (_option_string_actions P) with
        | Some action => Ok (Some (Some action, arg_string, None))
        | None =>
            if String.eqb rest "" then Ok None
            else
              match
                (match split_once "=" arg_string with
                 | Some (option_string, explicit_arg) =>
                     match dict_get option_string (_option_string_actions P) with
                     | Some action =>
                         Some (Some action, option_string, Some explicit_arg)
                     | None => None
                     end
                 | None => None
                 end) with
              | Some option_tuple => Ok (Some option_tuple)
              | None =>
                  let* option_tuples := _get_option_tuples P arg_string in
                  match option_tuples with
                  | _ :: _ :: _ =>
                      error (ambiguous_option arg_string
                               (map (λ t, snd (fst t)) option_tuples))
                  | [option_tuple] => Ok (Some option_tuple)
                  | [] =>
                      if negative_number arg_string
                         && bool_decide (_has_negative_number_optionals P = [])
                      then Ok None
                      else if char_in " " arg_string then Ok None
                      else Ok (Some (None, arg_string, None))
                  end
              end
        end
  end.

(** The first loop of [_parse_known_args]: the pattern of the argument
    strings.  Everything after a ['--'] is an ['A']. *)
Fixpoint arg_strings_pattern (P : ArgumentParser) (arg_strings : list string)
  : result (list ArgClass) :=
  match arg_strings with
  | [] => Ok []
  | arg_string :: arg_strings =>
      if String.eqb arg_string "--" then
        Ok (cls_dash :: map (λ _, cls_A) arg_strings)
      else
        let* option_tuple := _parse_optional P arg_string in
        let* parts := arg_strings_pattern P arg_strings in
        Ok (match option_tuple with
            | None => cls_A
            | Some t => cls_O t
            end :: parts)
  end.

(** [len(match.group(1))] for the patterns of an optional.  After the
    removal of the dash they read: one A; at most one A; any number of A;
    at least one A; exactly n A. They are matched greedily at the start of
    the pattern. *)
Fixpoint leading_A (pattern : list ArgClass) : nat :=
  match pattern with
  | cls_A :: pattern => S (leading_A pattern)
  | _ => 0
  end.

Definition _match_argument (action : Action) (pattern : list ArgClass)
  : result nat :=
  let n := leading_A pattern in
  let fail msg := Raise (ArgumentError (_get_action_name action) msg) in
  match nargs action with
  | nargs_None => if (1 <=? n)%nat then Ok 1%nat else fail expected_one_argument
  | OPTIONAL => Ok (Nat.min 1 n)
  | ZERO_OR_MORE => Ok n
  | ONE_OR_MORE => if (1 <=? n)%nat then Ok n else fail (expected_n_arguments 1)
  | nargs_int k => if (k <=? n)%nat then Ok k else fail (expected_n_arguments k)
  end.

(** [_get_value]: the [type] conversion of one argument string. *)
Definition _get_value (action : Action) (arg_string : string) : result Value :=
  match type_ action with
  | VNone => Ok (VStr arg_string)
  | VBuiltin int =>
      match int_call arg_string with
      | Some z => Ok (VInt z)
      | None => Raise (ArgumentError (_get_action_name action)
                                     (invalid_type_value "int" arg_string))
      end
  | _ => Raise (ArgumentError (_get_action_name action)
                              (invalid_type_value "not callable" arg_string))
  end.

(** [_check_value]: membership in [choices]. *)
Definition _check_value (action : Action) (value : Value) : result unit :=
  match choices action with
  | Some l =>
      if py_in value l then Ok tt
      else Raise (ArgumentError (_get_action_name action)
                                (invalid_choice value l))
  | None => Ok tt
  end.

(** [arg_strings.remove('--')]: drops the first ['--'], if any. *)
Fixpoint remove_dashdash (arg_strings : list string) : list string :=
  match arg_strings with
  | [] => []
  | s :: arg_strings =>
      if String.eqb s "--" then arg_strings else s :: remove_dashdash arg_strings
  end.

Fixpoint convert_all (action : Action) (arg_strings : list string)
  : result (list Value) :=
  match arg_strings with
  | [] => Ok []
  | v :: arg_strings =>
      let* x := _get_value action v in
      let* xs := convert_all action arg_strings in
      Ok (x :: xs)
  end.

Fixpoint check_all (action : Action) (values : list Value) : result unit :=
  match values with
  | [] => Ok tt
  | v :: values => let* _ := _check_value action v in check_all action values
  end.

(** [_get_values] for an optional action.  The first ['--'] is removed
    before anything else, so an explicit argument that is ['--'] itself (as
    in [-T=--]) leaves no string and the action receives the empty list. *)
Definition _get_values (action : Action) (arg_strings : list string)
  : result Value :=
  let arg_strings := remove_dashdash arg_strings in
  match arg_strings, nargs action with
  | [], OPTIONAL =>
      match const action with
      | VStr s =>
          let* value := _get_value action s in
          let* _ := _check_value action value in
          Ok value
      | value => Ok value
      end
  | [arg_string], (nargs_None | OPTIONAL) =>
      let* value := _get_value action arg_string in
      let* _ := _check_value action value in
      Ok value
  | _, _ =>
      let* value := convert_all action arg_strings in
      let* _ := check_all action value in
      Ok (VList value)
  end.

(** The state of [_parse_known_args]: the namespace, [seen_actions] and
    [extras]. *)
Record ParseState : Type := mkState {
  namespace : Namespace;
  seen_actions : list Action;
  extras : list string
}.

(** [action(self, namespace, argument_values, option_string)] *)
Definition call_action (action : Action) (namespace : Namespace)
    (values : Value) : result Namespace :=
  match action_class action with
  | _StoreAction => Ok (<[dest action := values]> namespace)
  | _StoreConstAction | _StoreTrueAction | _StoreFalseAction =>
      Ok (<[dest action := const action]> namespace)
  | _HelpAction => Raise (SystemExit 0 None)
  end.

(** [take_action]; the parsers here have no mutually exclusive group, so
    [action_conflicts] is empty. *)
Definition take_action (st : ParseState) (action : Action)
    (argument_strings : list string) : result ParseState :=
  let seen := seen_actions st ++ [action] in
  let* argument_values := _get_values action argument_strings in
  if decide (argument_values = SUPPRESS) then
    Ok {| namespace := namespace st; seen_actions := seen;
          extras := extras st |}
  else
    let* ns := call_action action (namespace st) argument_values in
    Ok {| namespace := ns; seen_actions := seen; extras := extras st |}.

Definition ActionTuple : Type := Action * list string * string.

Fixpoint take_actions (st : ParseState) (action_tuples : list ActionTuple)
  : result ParseState :=
  match action_tuples with
  | [] => Ok st
  | (action, args, _) :: action_tuples =>
      let* st := take_action st action args in
      take_actions st action_tuples
  end.

(** The [while True] loop of [consume_optional] when the option carries an
    explicit argument: an arity-0 single-dash option passes the rest of the
    string on to the next single-dash option ([-xyz] is [-x -y -z]). *)
Definition match_following (action : Action) (option_string : string)
    (pattern : list ArgClass) (following : list string)
    (action_tuples : list ActionTuple) : result (list ActionTuple * nat) :=
  let* arg_count := _match_argument action pattern in
  Ok (action_tuples ++ [(action, take arg_count following, option_string)],
      arg_count).

Fixpoint match_explicit (P : ArgumentParser) (action : Action)
    (option_string explicit_arg : string)
    (pattern : list ArgClass) (following : list string)
    (action_tuples : list ActionTuple) {struct explicit_arg}
  : result (list ActionTuple * nat) :=
  let ignored :=
    Raise (ArgumentError (_get_action_name action)
                         (ignored_explicit_argument explicit_arg)) in
  let* arg_count := _match_argument action [cls_A] in
  match option_string with
  | String char (String c1 _) =>
      match arg_count, char_in c1 (prefix_chars P), explicit_arg with
      | 0, false, String e new_explicit_arg =>
          let action_tuples := action_tuples ++ [(action, [], option_string)] in
          let option_string := String char (String e EmptyString) in
          match dict_get option_string (_option_string_actions P) with
          | Some action =>
              match new_explicit_arg with
              | EmptyString =>
                  match_following action option_string pattern following
                                  action_tuples
              | _ =>
                  match_explicit P action option_string new_explicit_arg
                                 pattern following action_tuples
              end
          | None => ignored
          end
      | 1, _, _ =>
          Ok (action_tuples ++ [(action, [explicit_arg], option_string)], 0)
      | _, _, _ => ignored
      end
  | _ => Raise IndexError
  end.

(** [consume_optional(start_index)]: the state after the actions of the
    option at [start_index] and the number of following argument strings
    they took ([stop - start_index - 1]). *)
Definition consume_optional (P : ArgumentParser) (st : ParseState)
    (arg_string : string) (option_tuple : OptionTuple)
    (pattern : list ArgClass) (following : list string)
  : result (ParseState * nat) :=
  let '(action, option_string, explicit_arg) := option_tuple in
  match action with
  | None =>
      Ok ({| namespace := namespace st; seen_actions := seen_actions st;
             extras := extras st ++ [arg_string] |}, 0)
  | Some action =>
      let* '(action_tuples, arg_count) :=
        match explicit_arg with
        | Some explicit_arg =>
            match_explicit P action option_string explicit_arg
                           pattern following []
        | None => match_following action option_string pattern following []
        end in
      let* st := take_actions st action_tuples in
      Ok (st, arg_count)
  end.

(** The main loop of [_parse_known_args] on a parser without positionals
    ([consume_positionals] then takes nothing): walk the argument strings
    with their pattern; [skip] counts the strings the last option took;
    a string that is neither an option nor taken by one goes to [extras]. *)
Fixpoint consume (P : ArgumentParser) (arg_strings : list string)
    (pattern : list ArgClass) (skip : nat) (st : ParseState)
  : result ParseState :=
  match arg_strings, pattern with
  | arg_string :: arg_strings, c :: pattern =>
      match skip with
      | S skip => consume P arg_strings pattern skip st
      | 0 =>
          match c with
          | cls_O option_tuple =>
              let* '(st, stop) :=
                consume_optional P st arg_string option_tuple
                                 pattern arg_strings in
              consume P arg_strings pattern stop st
          | _ =>
              consume P arg_strings pattern 0
                {| namespace := namespace st; seen_actions := seen_actions st;
                   extras := extras st ++ [arg_string] |}
          end
      end
  | _, _ => Ok st
  end.

(** The end of [_parse_known_args]: required actions that were not seen,
    and the conversion of string defaults that are still in place. *)
Fixpoint finish (actions : list Action) (seen : list Action)
    (namespace : Namespace) (required_actions : list string)
  : result (Namespace * list string) :=
  match actions with
  | [] => Ok (namespace, required_actions)
  | action :: actions =>
      if decide (action ∈ seen) then
        finish actions seen namespace required_actions
      else if required action then
        finish actions seen namespace
               (required_actions ++ [_get_action_name action])
      else
        match default action with
        | VStr s =>
            if decide (namespace !! dest action = Some (VStr s)) then
              let* value := _get_value action s in
              finish actions seen (<[dest action := value]> namespace)
                     required_actions
            else finish actions seen namespace required_actions
        | _ => finish actions seen namespace required_actions
        end
  end.

Definition _parse_known_args (P : ArgumentParser) (arg_strings : list string)
    (ns : Namespace) : result ParseState :=
  let* pattern := arg_strings_pattern P arg_strings in
  let* st := consume P arg_strings pattern 0
               {| namespace := ns; seen_actions := []; extras := [] |} in
  let* '(ns, required_actions) :=
    finish (_actions P) (seen_actions st) (namespace st) [] in
  match required_actions with
  | [] => Ok {| namespace := ns; seen_actions := seen_actions st;
                extras := extras st |}
  | _ => error (arguments_required required_actions)
  end.

(** The defaults [parse_known_args] writes into a fresh namespace. *)
Definition action_defaults (P : ArgumentParser) : Namespace :=
  let ns0 :=
    foldl (λ (ns : Namespace) action,
             if decide (is_Some (ns !! dest action)) then ns
             else if decide (default action = SUPPRESS) then ns
             else <[dest action := default action]> ns)
          (∅ : Namespace) (_actions P) in
  foldl (λ (ns : Namespace) '(dest, value),
           if decide (is_Some (ns !! dest)) then ns
           else <[dest := value]> ns)
        ns0 (_defaults P).

(** [parse_known_args(args)]; an [ArgumentError] becomes [parser.error]. *)
Definition parse_known_args (P : ArgumentParser) (args : list string)
  : result ParseState :=
  match _parse_known_args P args (action_defaults P) with
  | Raise (ArgumentError _ msg) => error msg
  | r => r
  end.

(** [parse_args(args)], with the actions seen on the way. *)
Definition parse_args_seen (P : ArgumentParser) (args : list string)
  : result (Namespace * list Action) :=
  let* st := parse_known_args P args in
  match extras st with
  | [] => Ok (namespace st, seen_actions st)
  | argv => error (unrecognized_arguments argv)
  end.

(** [parser.parse_args(args)] *)
Definition parse_args (P : ArgumentParser) (args : list string)
  : result Namespace :=
  let* '(ns, _) := parse_args_seen P args in
  Ok ns.

(** ** [stoq/args.py] *)

(** [StoqArgs(parser)]: three argument groups and fifteen options, then the
    parser it was given. *)
Definition StoqArgs (parser : loc) : M loc :=
  (stoq_opts ← add_argument_group parser "General Options" ;
   _ ← add_argument stoq_opts ["-L"; "--loglevel"]
         ["dest" =: VStr "log_level";
          "default" =: False_;
          "choices" =: VList [VStr "debug"; VStr "info"; VStr "warning";
                              VStr ("error" +:+ "critical")];
          "help" =: VStr "Log level"] ;
   _ ← add_argument stoq_opts ["-T"; "--template"]
         ["dest" =: VStr "template";
          "default" =: False_;
          "help" =: VStr "Name of template to use for output"] ;
   _ ← add_argument stoq_opts ["-M"; "--max-processes"]
         ["dest" =: VStr "max_processes";
          "default" =: False_;
          "type" =: VBuiltin int;
          "help" =: VStr "Max number of processes (if supported by source plugin)"] ;
   _ ← add_argument stoq_opts ["-R"; "--max_recursion"]
         ["dest" =: VStr "max_recursion";
          "default" =: False_;
          "type" =: VBuiltin int;
          "help" =: VStr "Max level for recursion into dispatched payloads"] ;

   conn_opts ← add_argument_group parser "Connector Options" ;
   _ ← add_argument conn_opts ["-C"; "--connector"]
         ["dest" =: VStr "output_connector";
          "default" =: False_;
          "help" =: VStr "Connector plugin for the output of worker results"] ;
   _ ← add_argument conn_opts ["-A"; "--archive"]
         ["dest" =: VStr "archive_connector";
          "default" =: False_;
          "help" =: VStr "Connector plugin used to archive files"] ;
   _ ← add_argument conn_opts ["-S"; "--split"]
         ["dest" =: VStr "combined_results";
          "action" =: VStr "store_false";
          "help" =: VStr "Split results on a per plugin basis"] ;

   source_opts ← add_argument_group parser "Ingest Options" ;
   _ ← add_argument source_opts ["-F"; "--file"]
         ["dest" =: VStr "path";
          "default" =: False_;
          "help" =: VStr "Filename or directory to use for ingesting"] ;
   _ ← add_argument source_opts ["-O"; "--outfile"]
         ["dest" =: VStr "outfile";
          "default" =: False_;
          "help" =: VStr "Filename to save reults to (if applicable)"] ;
   _ ← add_argument source_opts ["-I"; "--ingest"]
         ["dest" =: VStr "source_plugin";
          "default" =: False_;
          "help" =: VStr "Source plugin to utilize for ingesting"] ;
   _ ← add_argument source_opts ["-E"; "--errors"]
         ["dest" =: VStr "error_queue";
          "default" =: False_;
          "action" =: VStr "store_true";
          "help" =: VStr "Process errors (if applicable)"] ;
   _ ← add_argument source_opts ["-D"; "--dispatch"]
         ["dest" =: VStr "dispatch";
          "default" =: False_;
          "action" =: VStr "store_true";
          "help" =: VStr "Use yara to automatically dispatch payloads"] ;
   _ ← add_argument source_opts ["--tlp"]
         ["dest" =: VStr "default_tlp";
          "default" =: False_;
          "choices" =: VList [VStr "white"; VStr "green"; VStr "amber";
                              VStr "red"];
          "help" =: VStr "TLP level to tag each payload with"] ;
   _ ← add_argument source_opts ["--metadata"]
         ["dest" =: VStr "ingest_metadata";
          "default" =: False_;
          "nargs" =: VStr "*";
          "metavar" =: VStr "key:value";
          "help" =: VStr "Metadata to add to the results (i.e., tag:APT1 submitter:stoq)"] ;
   _ ← add_argument source_opts ["--rate-limit"]
         ["dest" =: VStr "ratelimit";
          "default" =: False_;
          "metavar" =: VStr "count/seconds";
          "help" =: VStr "Limit the amount of samples to process per second"] ;

   mret parser)%heap.

(** The worker's parser of the module docstring:
    [parser = argparse.ArgumentParser(); parser = StoqArgs(parser)]. *)
Definition stoq_program : M loc :=
  (parser ← ArgumentParser_new ;
   parser ← StoqArgs parser ;
   mret parser)%heap.

(** The parser object that program leaves in the heap. *)
Definition stoq_parser : ArgumentParser :=
  Eval vm_compute in
    match snd (stoq_program ∅) !! 1%positive with
    | Some P => P
    | None => mkParser "" VNone "" [] [] [] [] []
    end.

(** * Properties *)

(** ** Inversion of the result monad *)

Lemma rbind_Ok {A B} (c : result A) (k : A → result B) (b : B) :
  rbind c k = Ok b → ∃ a, c = Ok a ∧ k a = Ok b.
Proof. destruct c as [a | e]; simpl; [eauto | discriminate]. Qed.

Lemma Ok_inj {A} (a b : A) : Ok a = Ok b → a = b.
Proof. by intros [= ->]. Qed.

Ltac inv_bind H :=
  let a := fresh "x" in
  let Ha := fresh "E" in
  apply rbind_Ok in H; destruct H as (a & Ha & H).

Ltac case_condition :=
  match goal with
  | |- (if ?b then _ else _) = _ → _ => destruct b eqn:?
  end.

Lemma dict_get_elem {V} (k : string) (d : list (string * V)) (v : V) :
  dict_get k d = Some v → (k, v) ∈ d.
Proof.
  induction d as [ | [k' v'] d IH]; simpl; [discriminate | ].
  destruct (String.eqb_spec k k') as [-> | _].
  - intros [= ->]. apply list_elem_of_here.
  - intros H. apply list_elem_of_further, IH, H.
Qed.

(** ** What the parse loop can do *)

(** The actions the loop takes are registered under some option string. *)
Definition registered (P : ArgumentParser) (action : Action) : Prop :=
  ∃ o, (o, action) ∈ _option_string_actions P.

Definition tuple_registered (P : ArgumentParser) (t : OptionTuple) : Prop :=
  match t with
  | (Some action, _, _) => registered P action
  | (None, _, _) => True
  end.

Definition class_registered (P : ArgumentParser) (c : ArgClass) : Prop :=
  match c with
  | cls_O t => tuple_registered P t
  | _ => True
  end.

Lemma dict_get_registered P o action :
  dict_get o (_option_string_actions P) = Some action → registered P action.
Proof. intros H. exists o. apply dict_get_elem, H. Qed.

Lemma omap_registered P (f : string * Action → option OptionTuple) :
  (∀ o a t, f (o, a) = Some t → ∃ e, t = (Some a, o, e)) →
  Forall (tuple_registered P) (omap f (_option_string_actions P)).
Proof.
  intros Hf. apply Forall_forall. intros t Ht.
  apply list_elem_of_omap in Ht as ([o a] & Hin & Hfa).
  destruct (Hf _ _ _ Hfa) as (e & ->). simpl. exists o. exact Hin.
Qed.

Lemma _get_option_tuples_registered P s l :
  _get_option_tuples P s = Ok l → Forall (tuple_registered P) l.
Proof.
  unfold _get_option_tuples.
  destruct s as [ | c0 [ | c1 rest]]; try discriminate.
  destruct (char_in c0 (prefix_chars P) && char_in c1 (prefix_chars P)).
  - destruct (split_once "=" (String c0 (String c1 rest))) as [[pre ea] | ];
      intros [= <-]; apply omap_registered; intros o a t;
      case_condition; intros [= <-]; eauto.
  - destruct (char_in c0 (prefix_chars P) && negb (char_in c1 (prefix_chars P)));
      [ | discriminate].
    intros [= <-]; apply omap_registered; intros o a t.
    case_condition; [intros [= <-]; eauto | ].
    case_condition; intros [= <-]; eauto.
Qed.

Lemma _parse_optional_registered P s t :
  _parse_optional P s = Ok (Some t) → tuple_registered P t.
Proof.
  unfold _parse_optional. destruct s as [ | c0 rest]; [discriminate | ].
  destruct (negb (char_in c0 (prefix_chars P))); [discriminate | ].
  destruct (dict_get (String c0 rest) _) as [a | ] eqn:Hexact.
  { intros [= <-]. simpl. eapply dict_get_registered, Hexact. }
  destruct (String.eqb rest ""); [discriminate | ].
  destruct (split_once "=" (String c0 rest)) as [[o ea] | ].
  - destruct (dict_get o _) as [a | ] eqn:Ho.
    { intros [= <-]. simpl. eapply dict_get_registered, Ho. }
    intros H. inv_bind H. apply _get_option_tuples_registered in E.
    destruct x as [ | t1 [ | t2 l]]; try discriminate.
    + destruct (_ && _); [discriminate | ].
      destruct (char_in _ _); [discriminate | ]. intros; simplify_eq. exact I.
    + injection H as <-. by inversion E.
  - intros H. inv_bind H. apply _get_option_tuples_registered in E.
    destruct x as [ | t1 [ | t2 l]]; try discriminate.
    + destruct (_ && _); [discriminate | ].
      destruct (char_in _ _); [discriminate | ]. intros; simplify_eq. exact I.
    + injection H as <-. by inversion E.
Qed.

Lemma arg_strings_pattern_registered P args pattern :
  arg_strings_pattern P args = Ok pattern →
  Forall (class_registered P) pattern.
Proof.
  revert pattern. induction args as [ | s args IH]; simpl; intros pattern.
  { intros [= <-]. constructor. }
  destruct (String.eqb s "--").
  { intros [= <-]. constructor; [exact I | ].
    apply Forall_forall. intros c Hc. apply list_elem_of_fmap in Hc as (? & -> & _).
    exact I. }
  intros H. inv_bind H. inv_bind H. injection H as <-.
  constructor; [ | by apply IH].
  destruct x as [t | ]; [ | exact I]. eapply _parse_optional_registered, E.
Qed.

Lemma arg_strings_pattern_length P args pattern :
  arg_strings_pattern P args = Ok pattern → length pattern = length args.
Proof.
  revert pattern. induction args as [ | s args IH]; simpl; intros pattern.
  { by intros [= <-]. }
  destruct (String.eqb s "--").
  { intros [= <-]. simpl. by rewrite length_map. }
  intros H. inv_bind H. inv_bind H. injection H as <-. simpl.
  f_equal. by apply IH.
Qed.

Lemma _match_argument_le action pattern n :
  _match_argument action pattern = Ok n → (n ≤ leading_A pattern)%nat.
Proof.
  unfold _match_argument.
  destruct (nargs action) as [ | | | | k];
    try (destruct (_ <=? _)%nat eqn:Hle; [apply Nat.leb_le in Hle | discriminate]);
    intros [= <-]; try lia.
  destruct (leading_A pattern); lia.
Qed.

Lemma match_following_inv action o pattern following acc tuples n :
  match_following action o pattern following acc = Ok (tuples, n) →
  tuples = acc ++ [(action, take n following, o)] ∧ (n ≤ leading_A pattern)%nat.
Proof.
  unfold match_following. intros H. inv_bind H. injection H as <- <-.
  split; [reflexivity | eapply _match_argument_le, E].
Qed.

Definition action_of (t : ActionTuple) : Action := fst (fst t).

Lemma match_explicit_inv P explicit_arg :
  ∀ action o pattern following acc tuples n,
    match_explicit P action o explicit_arg pattern following acc
      = Ok (tuples, n) →
    registered P action →
    ∃ new, tuples = acc ++ new ∧ Forall (λ t, registered P (action_of t)) new
           ∧ (n ≤ leading_A pattern)%nat.
Proof.
  induction explicit_arg as [ | e rest IH]; intros action o pattern following
    acc tuples n H Hreg; simpl in H; inv_bind H;
    destruct o as [ | char [ | c1 o']]; try discriminate.
  - destruct x as [ | [ | k]]; destruct (char_in c1 (prefix_chars P));
      try discriminate; injection H as <- <-;
      (eexists; split; [reflexivity | split; [ | lia]]);
      repeat constructor; exact Hreg.
  - destruct x as [ | [ | k]]; destruct (char_in c1 (prefix_chars P));
      try discriminate;
      try (injection H as <- <-;
           (eexists; split; [reflexivity | split; [ | lia]]);
           repeat constructor; exact Hreg).
    destruct (dict_get _ _) as [action' | ] eqn:Hnext; [ | discriminate].
    apply dict_get_registered in Hnext.
    destruct rest as [ | e' rest'].
    + apply match_following_inv in H as [-> Hn].
      exists [(action, [], String char (String c1 o'));
              (action', take n following, String char (String e ""))].
      split; [by rewrite <- app_assoc | split; [ | exact Hn]].
      repeat constructor; assumption.
    + apply IH in H as (new & -> & Hnew & Hn); [ | exact Hnext].
      exists ((action, [], String char (String c1 o')) :: new).
      split; [by rewrite <- app_assoc | split; [ | exact Hn]].
      constructor; assumption.
Qed.

(** Every action tuple of one option string is registered, and the option
    takes no more following strings than there are leading arguments. *)
Lemma option_tuples_inv P action o explicit_arg pattern following tuples n :
  match explicit_arg with
  | Some explicit_arg =>
      match_explicit P action o explicit_arg pattern following []
  | None => match_following action o pattern following []
  end = Ok (tuples, n) →
  registered P action →
  Forall (λ t, registered P (action_of t)) tuples ∧ (n ≤ leading_A pattern)%nat.
Proof.
  destruct explicit_arg as [ea | ]; intros H Hreg.
  - apply match_explicit_inv in H as (new & -> & Hnew & Hn); auto.
  - apply match_following_inv in H as [-> Hn]. split; [ | exact Hn].
    repeat constructor. exact Hreg.
Qed.

Definition add_extra (st : ParseState) (s : string) : ParseState :=
  {| namespace := namespace st; seen_actions := seen_actions st;
     extras := extras st ++ [s] |}.

Section Preservation.

(** A property of the parse state that every registered action and every
    left-over string keeps is kept by the whole loop. *)
Variable P : ArgumentParser.
Variable Inv : ParseState → Prop.
Hypothesis Inv_extra : ∀ st s, Inv st → Inv (add_extra st s).
Hypothesis Inv_action :
  ∀ st st' action args,
    registered P action → Inv st → take_action st action args = Ok st' →
    Inv st'.

Lemma take_actions_preserves tuples :
  ∀ st st',
    Forall (λ t, registered P (action_of t)) tuples → Inv st →
    take_actions st tuples = Ok st' → Inv st'.
Proof.
  induction tuples as [ | [[a args] o] tuples IH]; simpl; intros st st' Hreg HI H.
  - by injection H as <-.
  - inv_bind H. inversion Hreg; subst.
    eapply IH; [eassumption | | exact H]. eapply Inv_action; eauto.
Qed.

Lemma consume_optional_preserves st s t pattern following st' n :
  tuple_registered P t → Inv st →
  consume_optional P st s t pattern following = Ok (st', n) →
  Inv st' ∧ (n ≤ leading_A pattern)%nat.
Proof.
  destruct t as [[[action | ] o] explicit_arg]; simpl; intros Hreg HI H.
  - inv_bind H. destruct x as [tuples k]. inv_bind H. injection H as <- <-.
    apply option_tuples_inv in E as [Htuples Hk]; [ | exact Hreg].
    split; [ | exact Hk]. eapply take_actions_preserves; eauto.
  - injection H as <- <-. split; [ | lia]. by apply Inv_extra.
Qed.

Lemma consume_preserves args :
  ∀ pattern skip st st',
    Forall (class_registered P) pattern → Inv st →
    consume P args pattern skip st = Ok st' → Inv st'.
Proof.
  induction args as [ | s args IH]; simpl; intros pattern skip st st' Hreg HI H.
  { by injection H as <-. }
  destruct pattern as [ | c pattern]; [by injection H as <- | ].
  inversion Hreg as [ | ? ? Hc Hpat]; subst.
  destruct skip as [ | skip]; [ | eapply IH; eauto].
  destruct c as [ | t | ].
  - eapply IH; [exact Hpat | | exact H]. by apply (Inv_extra st s).
  - inv_bind H. destruct x as [st1 stop].
    apply consume_optional_preserves in E as [HI1 _]; auto.
    eapply IH; eauto.
  - eapply IH; [exact Hpat | | exact H]. by apply (Inv_extra st s).
Qed.

End Preservation.

(** ** One action *)

Lemma _get_values_inv action args v :
  _get_values action args = Ok v →
  (∃ l, v = VList l)
  ∨ (nargs action = OPTIONAL ∧ v = const action)
  ∨ (_check_value action v = Ok tt ∧ ∃ s, _get_value action s = Ok v).
Proof.
  unfold _get_values.
  destruct (remove_dashdash args) as [ | x [ | y l]];
    destruct (nargs action) eqn:Hn; intros H;
    try (inv_bind H; inv_bind H; injection H as <-; left; eauto; fail).
  - destruct (const action) eqn:Hc;
      try (injection H as <-; right; left; auto; fail).
    inv_bind H. inv_bind H. injection H as <-. destruct x0. right; right; eauto.
  - inv_bind H. inv_bind H. injection H as <-. destruct x1. right; right; eauto.
  - inv_bind H. inv_bind H. injection H as <-. destruct x1. right; right; eauto.
Qed.

Lemma _get_value_not_SUPPRESS action s v :
  _get_value action s = Ok v → v ≠ SUPPRESS.
Proof.
  unfold _get_value. destruct (type_ action) as [ | | | | | [] | ];
    try discriminate; [by intros [= <-] | ].
  destruct (int_call s); [by intros [= <-] | discriminate].
Qed.

(** What [take_action] does when it returns: the action joins
    [seen_actions] and its destination receives a value, the constant of a
    flag or the checked value of a store. *)
Lemma take_action_inv st action args st' :
  take_action st action args = Ok st' →
  nargs action ≠ OPTIONAL →
  seen_actions st' = seen_actions st ++ [action]
  ∧ extras st' = extras st
  ∧ ∃ v, namespace st' = <[dest action := v]> (namespace st)
         ∧ (action_class action ≠ _StoreAction → v = const action)
         ∧ (∀ s l, v = VStr s → action_class action = _StoreAction →
                   choices action = Some l → py_in (VStr s) l = true)
         ∧ action_class action ≠ _HelpAction.
Proof.
  unfold take_action. intros H Hopt. inv_bind H.
  assert (Hx : x ≠ SUPPRESS).
  { apply _get_values_inv in E as [(l & ->) | [[Hn _] | (_ & s & Hs)]];
      [discriminate | contradiction | eapply _get_value_not_SUPPRESS, Hs]. }
  destruct (decide (x = SUPPRESS)); [contradiction | ].
  inv_bind H. injection H as <-. simpl. split; [reflexivity | ].
  split; [reflexivity | ].
  unfold call_action in E0.
  destruct (action_class action) eqn:Hcls; try discriminate;
    injection E0 as <-; eexists; (split; [reflexivity | ]);
    (split; [try reflexivity; intros Hne; congruence | ]);
    (split; [ | discriminate]);
    try (intros; discriminate).
  intros s l -> _ Hl.
  apply _get_values_inv in E as [(l' & [=]) | [[Hn _] | (Hchk & _)]];
    [contradiction | ].
  unfold _check_value in Hchk. rewrite Hl in Hchk.
  destruct (py_in (VStr s) l); [reflexivity | discriminate].
Qed.

Lemma py_in_VStr s (l : list string) :
  py_in (VStr s) (map VStr l) = true → s ∈ l.
Proof.
  unfold py_in. induction l as [ | x l IH]; simpl; [discriminate | ].
  destruct (String.eqb_spec s x) as [-> | _]; simpl.
  - intros _. apply list_elem_of_here.
  - intros H. apply list_elem_of_further, IH, H.
Qed.

(** ** The parser of [StoqArgs] *)

Definition stoq_dests : list string :=
  ["log_level"; "template"; "max_processes"; "max_recursion";
   "output_connector"; "archive_connector"; "combined_results"; "path";
   "outfile"; "source_plugin"; "error_queue"; "dispatch"; "default_tlp";
   "ingest_metadata"; "ratelimit"].

Definition log_levels : list string :=
  ["debug"; "info"; "warning"; "errorcritical"].

Definition tlp_levels : list string := ["white"; "green"; "amber"; "red"].

(** The action registered under an option string of the parser. *)
Definition stoq_action (o : string) : Action :=
  match dict_get o (_option_string_actions stoq_parser) with
  | Some action => action
  | None => mkAction _HelpAction [] "" nargs_None VNone VNone VNone None
                     false VNone VNone
  end.

Lemma stoq_program_runs :
  stoq_program ∅ = (Ok 1%positive, {[ 1%positive := stoq_parser ]}).
Proof. vm_compute. reflexivity. Qed.

Lemma stoq_registered action :
  registered stoq_parser action → action ∈ _actions stoq_parser.
Proof.
  intros [o Ho].
  assert (H : Forall (λ oa, snd oa ∈ _actions stoq_parser)
                     (_option_string_actions stoq_parser)).
  { refine (bool_decide_unpack _ _). vm_compute. exact I. }
  rewrite Forall_forall in H. exact (H _ Ho).
Qed.

Ltac each_action H :=
  unfold stoq_parser, _actions in H;
  repeat (apply elem_of_cons in H as [-> | H]);
  [ .. | by apply elem_of_nil in H].

(** The state reached by the loop on the [StoqArgs] parser:
    - the destinations are the fifteen of [StoqArgs];
    - each of the three flags holds its constant once its action was seen
      and its default before;
    - a string under [log_level] or [default_tlp] is one of the choices. *)
Definition flag_inv (flag : Action) (st : ParseState) : Prop :=
  namespace st !! dest flag
  = Some (if bool_decide (flag ∈ seen_actions st) then const flag
          else default flag).

Definition choice_inv (d : string) (l : list string) (st : ParseState) : Prop :=
  ∀ s, namespace st !! d = Some (VStr s) → s ∈ l.

Definition dests_inv (st : ParseState) : Prop :=
  ∀ k, is_Some (namespace st !! k) ↔ k ∈ stoq_dests.

Record stoq_inv (st : ParseState) : Prop := {
  inv_dests : dests_inv st;
  inv_split : flag_inv (stoq_action "-S") st;
  inv_errors : flag_inv (stoq_action "-E") st;
  inv_dispatch : flag_inv (stoq_action "-D") st;
  inv_log_level : choice_inv "log_level" log_levels st;
  inv_tlp : choice_inv "default_tlp" tlp_levels st
}.

Lemma flag_inv_step (flag : Action) st st' action v :
  flag_inv flag st →
  seen_actions st' = seen_actions st ++ [action] →
  namespace st' = <[dest action := v]> (namespace st) →
  (action = flag ∧ v = const flag) ∨ (action ≠ flag ∧ dest action ≠ dest flag) →
  flag_inv flag st'.
Proof.
  unfold flag_inv. intros HI Hseen Hns [[-> ->] | [Hne Hd]]; rewrite Hns, Hseen.
  - rewrite lookup_insert_eq. rewrite bool_decide_eq_true_2; [reflexivity | ].
    apply elem_of_app. right. apply list_elem_of_here.
  - rewrite lookup_insert_ne by exact Hd. rewrite HI. f_equal.
    erewrite (bool_decide_ext (flag ∈ seen_actions st ++ [action]));
      [reflexivity | ].
    rewrite elem_of_app, list_elem_of_singleton.
    split; [intros [? | ->]; [assumption | contradiction] | by left].
Qed.

Lemma choice_inv_step d l st st' action v :
  choice_inv d l st →
  namespace st' = <[dest action := v]> (namespace st) →
  dest action ≠ d ∨ (∀ s, v = VStr s → s ∈ l) →
  choice_inv d l st'.
Proof.
  unfold choice_inv. intros HI -> Hcase s.
  destruct (decide (dest action = d)) as [<- | Hne].
  - rewrite lookup_insert_eq. intros [= ->].
    destruct Hcase as [? | Hv]; [done | by apply Hv].
  - rewrite lookup_insert_ne by exact Hne. apply HI.
Qed.

Lemma dests_inv_step st st' action v :
  dests_inv st →
  namespace st' = <[dest action := v]> (namespace st) →
  dest action ∈ stoq_dests →
  dests_inv st'.
Proof.
  unfold dests_inv. intros HI -> Hd k. rewrite lookup_insert_is_Some, HI.
  split; [intros [<- | [_ ?]]; assumption | ].
  intros Hk. destruct (decide (dest action = k)); [by left | by right].
Qed.

Lemma stoq_inv_extra st s : stoq_inv st → stoq_inv (add_extra st s).
Proof. intros []. by constructor. Qed.

Lemma stoq_inv_action st st' action args :
  registered stoq_parser action → stoq_inv st →
  take_action st action args = Ok st' → stoq_inv st'.
Proof.
  intros Hreg [Hd HS HE HD HL HT] H. apply stoq_registered in Hreg.
  each_action Hreg;
    (apply take_action_inv in H as (Hseen & _ & v & Hns & Hconst & Hchoice & Hhelp);
     [ | discriminate]);
    try (exfalso; apply Hhelp; reflexivity);
    (constructor;
     [ eapply dests_inv_step; [exact Hd | exact Hns | ];
       apply (bool_decide_unpack _); vm_compute; exact I
     | eapply flag_inv_step; [exact HS | exact Hseen | exact Hns | ];
       first [ left; split; [reflexivity | apply Hconst; discriminate]
             | right; split; discriminate ]
     | eapply flag_inv_step; [exact HE | exact Hseen | exact Hns | ];
       first [ left; split; [reflexivity | apply Hconst; discriminate]
             | right; split; discriminate ]
     | eapply flag_inv_step; [exact HD | exact Hseen | exact Hns | ];
       first [ left; split; [reflexivity | apply Hconst; discriminate]
             | right; split; discriminate ]
     | eapply choice_inv_step; [exact HL | exact Hns | ];
       first [ left; discriminate
             | right; intros s Hs; apply py_in_VStr;
               eapply Hchoice; [exact Hs | reflexivity | reflexivity] ]
     | eapply choice_inv_step; [exact HT | exact Hns | ];
       first [ left; discriminate
             | right; intros s Hs; apply py_in_VStr;
               eapply Hchoice; [exact Hs | reflexivity | reflexivity] ] ]).
Qed.

(** The end of the parse changes nothing when no action is required and
    no default is a string. *)
Lemma finish_noop actions seen ns required_actions :
  Forall (λ a, required a = false ∧ ∀ s, default a ≠ VStr s) actions →
  finish actions seen ns required_actions = Ok (ns, required_actions).
Proof.
  induction 1 as [ | a actions [Hreq Hdef] _ IH]; simpl; [reflexivity | ].
  destruct (decide (a ∈ seen)); [exact IH | ]. rewrite Hreq.
  destruct (default a) eqn:Hd; try exact IH. by destruct (Hdef s).
Qed.

Lemma stoq_finish seen ns :
  finish (_actions stoq_parser) seen ns [] = Ok (ns, []).
Proof.
  apply finish_noop. unfold stoq_parser, _actions.
  repeat (constructor; [split; [reflexivity | discriminate] | ]). constructor.
Qed.

(** A returning [parse_args] is a returning run of the loop that leaves no
    extras. *)
Lemma parse_args_seen_inv P args ns seen :
  (∀ seen ns, finish (_actions P) seen ns [] = Ok (ns, [])) →
  parse_args_seen P args = Ok (ns, seen) →
  ∃ pattern,
    arg_strings_pattern P args = Ok pattern
    ∧ consume P args pattern 0
        {| namespace := action_defaults P; seen_actions := []; extras := [] |}
      = Ok {| namespace := ns; seen_actions := seen; extras := [] |}.
Proof.
  unfold parse_args_seen, parse_known_args, _parse_known_args.
  generalize (action_defaults P). intros ns0 Hfin H.
  inv_bind H.
  destruct (arg_strings_pattern P args) as [pattern | e] eqn:Hpat;
    simpl in E; [ | destruct e; discriminate].
  exists pattern. split; [reflexivity | ].
  destruct (consume P args pattern 0 _) as [st | e];
    simpl in E; [ | destruct e; discriminate].
  rewrite Hfin in E. simpl in E. injection E as <-. simpl in H.
  destruct st as [ns' seen' ex]. simpl in H.
  destruct ex; [ | discriminate]. by injection H as <- <-.
Qed.

Definition initial_state : ParseState :=
  {| namespace := action_defaults stoq_parser; seen_actions := [];
     extras := [] |}.

Lemma initial_dests :
  dom (action_defaults stoq_parser) = (list_to_set stoq_dests : gset string).
Proof. refine (bool_decide_unpack _ _). vm_compute. exact I. Qed.

Lemma stoq_inv_initial : stoq_inv initial_state.
Proof.
  constructor.
  - intros k. unfold initial_state, namespace.
    rewrite <- elem_of_dom, initial_dests. apply elem_of_list_to_set.
  - vm_compute. reflexivity.
  - vm_compute. reflexivity.
  - vm_compute. reflexivity.
  - intros s. vm_compute. discriminate.
  - intros s. vm_compute. discriminate.
Qed.

(** Every returning parse on the [StoqArgs] parser ends in a state of
    [stoq_inv]. *)
Lemma stoq_parse_inv args ns seen :
  parse_args_seen stoq_parser args = Ok (ns, seen) →
  stoq_inv {| namespace := ns; seen_actions := seen; extras := [] |}.
Proof.
  intros H. apply parse_args_seen_inv in H as (pattern & Hpat & Hrun);
    [ | apply stoq_finish].
  eapply (consume_preserves stoq_parser stoq_inv stoq_inv_extra
            stoq_inv_action); [ | | exact Hrun].
  - eapply arg_strings_pattern_registered, Hpat.
  - exact stoq_inv_initial.
Qed.

Lemma parse_args_seen_iff P args ns :
  parse_args P args = Ok ns ↔ ∃ seen, parse_args_seen P args = Ok (ns, seen).
Proof.
  unfold parse_args. split.
  - intros H. inv_bind H. destruct x as [ns' seen]. injection H as <-. eauto.
  - intros [seen ->]. reflexivity.
Qed.

(** ** Which strings the loop visits *)

Lemma take_action_seen st action args st' :
  take_action st action args = Ok st' →
  seen_actions st' = seen_actions st ++ [action] ∧ extras st' = extras st.
Proof.
  unfold take_action. intros H. inv_bind H.
  destruct (decide (x = SUPPRESS)); [by injection H as <- | ].
  inv_bind H. by injection H as <-.
Qed.

Lemma take_actions_single st action args o st' :
  take_actions st [(action, args, o)] = Ok st' →
  take_action st action args = Ok st'.
Proof. simpl. destruct (take_action st action args); simpl; congruence. Qed.

Lemma consume_seen_mono P action args pattern skip st st' :
  Forall (class_registered P) pattern →
  action ∈ seen_actions st →
  consume P args pattern skip st = Ok st' → action ∈ seen_actions st'.
Proof.
  apply (consume_preserves P (λ st, action ∈ seen_actions st)).
  - intros st0 s0 H0. exact H0.
  - intros st0 st1 a l _ H0 H1. apply take_action_seen in H1 as [-> _].
    apply elem_of_app. by left.
Qed.

Lemma consume_extras_mono P args pattern skip st st' :
  Forall (class_registered P) pattern →
  extras st ≠ [] →
  consume P args pattern skip st = Ok st' → extras st' ≠ [].
Proof.
  apply (consume_preserves P (λ st, extras st ≠ [])).
  - intros st0 s0 _. simpl. by destruct (extras st0).
  - intros st0 st1 a l _ H0 H1. apply take_action_seen in H1 as [_ ->].
    exact H0.
Qed.

(** The loop skips argument strings only: a ['--'] always ends in [extras]
    and an option string given as such always has its action taken. *)
Lemma consume_visits P args :
  ∀ pattern skip st st',
    length pattern = length args →
    Forall (class_registered P) pattern →
    (skip ≤ leading_A pattern)%nat →
    consume P args pattern skip st = Ok st' →
    (cls_dash ∈ pattern → extras st' ≠ [])
    ∧ (∀ action o, cls_O (Some action, o, None) ∈ pattern →
                   action ∈ seen_actions st').
Proof.
  induction args as [ | s args IH]; intros pattern skip st st' Hlen Hreg Hskip H.
  { destruct pattern; [ | discriminate].
    split; [intros Hin | intros a o Hin]; by apply elem_of_nil in Hin. }
  destruct pattern as [ | c pattern]; [discriminate | ].
  injection Hlen as Hlen. inversion Hreg as [ | ? ? Hc Hpat]; subst.
  simpl in H. destruct skip as [ | skip].
  - destruct c as [ | t | ].
    + pose proof (IH _ _ _ _ Hlen Hpat (Nat.le_0_l _) H) as [Hd Ho].
      split; [intros Hin | intros a o Hin];
        apply elem_of_cons in Hin as [[=] | Hin]; eauto.
    + inv_bind H. destruct x as [st1 stop].
      assert (Hstop : (stop ≤ leading_A pattern)%nat).
      { eapply (consume_optional_preserves P (λ _, True)); eauto. }
      pose proof (IH _ _ _ _ Hlen Hpat Hstop H) as [Hd Ho].
      split.
      { intros Hin. apply elem_of_cons in Hin as [Heq | Hin];
          [discriminate | by apply Hd]. }
      intros a o Hin. apply elem_of_cons in Hin as [Heq | Hin];
        [ | by apply (Ho a o)].
      injection Heq as <-. unfold consume_optional in E.
      inv_bind E. destruct x as [tuples k].
      apply match_following_inv in E0 as [-> _].
      inv_bind E. injection E as <- <-.
      apply take_actions_single, take_action_seen in E0 as [Hseen _].
      eapply consume_seen_mono; [exact Hpat | | exact H].
      rewrite Hseen. apply elem_of_app. right. apply list_elem_of_here.
    + pose proof (IH _ _ _ _ Hlen Hpat (Nat.le_0_l _) H) as [Hd Ho].
      split; [intros _ | intros a o Hin].
      * eapply consume_extras_mono; [exact Hpat | | exact H].
        simpl. by destruct (extras st).
      * apply elem_of_cons in Hin as [[=] | Hin]; eauto.
  - destruct c as [ | t | ]; simpl in Hskip; try lia.
    assert (Hskip' : (skip ≤ leading_A pattern)%nat) by lia.
    pose proof (IH _ _ _ _ Hlen Hpat Hskip' H) as [Hd Ho].
    split; [intros Hin | intros a o Hin];
      apply elem_of_cons in Hin as [[=] | Hin]; eauto.
Qed.

Lemma pattern_dash P args pattern :
  arg_strings_pattern P args = Ok pattern → "--" ∈ args → cls_dash ∈ pattern.
Proof.
  revert pattern. induction args as [ | s args IH]; intros pattern H Hin.
  { by apply elem_of_nil in Hin. }
  simpl in H. destruct (String.eqb_spec s "--") as [-> | Hne].
  - injection H as <-. apply list_elem_of_here.
  - inv_bind H. inv_bind H. injection H as <-.
    apply elem_of_cons in Hin as [<- | Hin]; [done | ].
    apply list_elem_of_further. by apply IH.
Qed.

Lemma pattern_exact P args pattern o action :
  arg_strings_pattern P args = Ok pattern →
  "--" ∉ args → o ∈ args →
  (∃ c rest, o = String c rest ∧ char_in c (prefix_chars P) = true) →
  dict_get o (_option_string_actions P) = Some action →
  cls_O (Some action, o, None) ∈ pattern.
Proof.
  intros H Hno Hin (c & rest & -> & Hc) Hget. revert pattern H Hno Hin.
  induction args as [ | s args IH]; intros pattern H Hno Hin.
  { by apply elem_of_nil in Hin. }
  simpl in H. destruct (String.eqb_spec s "--") as [-> | Hne].
  { destruct Hno. apply list_elem_of_here. }
  inv_bind H. inv_bind H. injection H as <-.
  apply elem_of_cons in Hin as [<- | Hin].
  - unfold _parse_optional in E. rewrite Hc, Hget in E. simpl in E.
    injection E as <-. apply list_elem_of_here.
  - apply list_elem_of_further. apply IH; auto.
    intros Hd. apply Hno. by apply list_elem_of_further.
Qed.

Lemma startswith_dash s :
  startswith s "-" = true → ∃ rest, s = String "-" rest.
Proof.
  destruct s as [ | c rest]; [discriminate | ].
  change (startswith (String c rest) "-")
    with (Ascii.eqb "-" c && startswith rest "").
  intros H. apply andb_true_iff in H as [H _].
  apply Ascii.eqb_eq in H as <-. eauto.
Qed.

(** On the [StoqArgs] parser: an option string that occurs as such in the
    argument list of a returning parse had its action taken. *)
Lemma stoq_option_seen args ns seen o action :
  parse_args_seen stoq_parser args = Ok (ns, seen) →
  o ∈ args →
  dict_get o (_option_string_actions stoq_parser) = Some action →
  action ∈ seen.
Proof.
  intros H Hin Hget.
  apply parse_args_seen_inv in H as (pattern & Hpat & Hrun);
    [ | apply stoq_finish].
  pose proof (arg_strings_pattern_registered _ _ _ Hpat) as Hreg.
  pose proof (arg_strings_pattern_length _ _ _ Hpat) as Hlen.
  pose proof (consume_visits _ _ _ _ _ _ Hlen Hreg (Nat.le_0_l _) Hrun)
    as [Hdash Hopt].
  destruct (decide ("--" ∈ args)) as [Hd | Hd].
  { exfalso. apply Hdash; [ | reflexivity]. eapply pattern_dash; eauto. }
  apply (Hopt action o). eapply pattern_exact; eauto.
  assert (Hall : Forall (λ oa, startswith (fst oa) "-" = true)
                        (_option_string_actions stoq_parser)).
  { refine (bool_decide_unpack _ _). vm_compute. exact I. }
  rewrite Forall_forall in Hall. apply dict_get_elem in Hget.
  specialize (Hall _ Hget). cbn [fst] in Hall.
  apply startswith_dash in Hall as [rest ->].
  exists "-"%char, rest. split; reflexivity.
Qed.

(** ** The effect of [StoqArgs] on the heap *)

Lemma mbind_inv {A B} (c : M A) (k : A → M B) h b h' :
  mbind c k h = (Ok b, h') → ∃ a h1, c h = (Ok a, h1) ∧ k a h1 = (Ok b, h').
Proof.
  unfold mbind. destruct (c h) as [[a | e] h1]; [eauto | discriminate].
Qed.

(** [h'] is [h] with the parser at [p] replaced by one whose actions are
    the old ones followed by actions of destinations [ds]. *)
Definition extends (p : loc) (h h' : Heap) (ds : list string) : Prop :=
  ∃ P P', h !! p = Some P ∧ h' = <[p := P']> h
          ∧ map dest (_actions P') = map dest (_actions P) ++ ds.

Lemma new_action_dest action option_strings d kwargs a :
  new_action action option_strings d kwargs = Ok a → dest a = d.
Proof.
  unfold new_action, new_StoreAction, new_StoreConstAction, new_HelpAction.
  intros H.
  repeat match type of H with
         | match ?x with _ => _ end = Ok _ => destruct x; try discriminate
         | (if ?x then _ else _) = Ok _ => destruct x; try discriminate
         | rbind _ _ = Ok _ => inv_bind H
         end;
    by injection H as <-.
Qed.

Lemma _get_optional_kwargs_dest chars args kwargs os d' kw d :
  _get_optional_kwargs chars args kwargs = Ok (os, d', kw) →
  kw_get "dest" kwargs = Some (VStr d) → d' = d.
Proof.
  unfold _get_optional_kwargs, kw_default. intros H Hd. rewrite Hd in H.
  inv_bind H. destruct x as [os' long]. simpl in H. congruence.
Qed.

Lemma add_argument_to_inv P i arg_default handler args kwargs a P' d :
  add_argument_to P i arg_default handler args kwargs = Ok (a, P') →
  kw_get "dest" kwargs = Some (VStr d) →
  _actions P' = _actions P ++ [a] ∧ dest a = d.
Proof.
  unfold add_argument_to. intros H Hd. inv_bind H.
  destruct x; [discriminate | ]. inv_bind H. destruct x as [[os d'] kw].
  inv_bind H. inv_bind H. inv_bind H. injection H as <- <-.
  split; [reflexivity | ]. apply new_action_dest in E1 as ->.
  eapply _get_optional_kwargs_dest; eauto.
Qed.

Lemma extends_group p h h1 ds t g h2 :
  extends p h h1 ds → add_argument_group p t h1 = (Ok g, h2) →
  extends p h h2 ds ∧ ∃ i, g = group_ref p i.
Proof.
  intros (P & P1 & HP & -> & Hds). unfold add_argument_group.
  rewrite lookup_insert_eq. intros [= <- <-]. split; [ | eauto].
  exists P. eexists. split; [exact HP | ]. split.
  - apply insert_insert_eq.
  - exact Hds.
Qed.

Lemma extends_argument p h h1 ds i args kwargs a h2 d :
  extends p h h1 ds →
  add_argument (group_ref p i) args kwargs h1 = (Ok a, h2) →
  kw_get "dest" kwargs = Some (VStr d) →
  extends p h h2 (ds ++ [d]).
Proof.
  intros (P & P1 & HP & -> & Hds). unfold add_argument.
  rewrite lookup_insert_eq.
  destruct (_action_groups P1 !! i) as [g | ]; [ | discriminate].
  destruct (add_argument_to P1 i _ _ args kwargs) as [[a' P2] | e] eqn:Hadd;
    [ | discriminate].
  intros [= <- <-] Hd. apply (add_argument_to_inv _ _ _ _ _ _ _ _ d) in Hadd
    as [Hact Hdest]; [ | exact Hd].
  exists P, P2. split; [exact HP | ]. split; [apply insert_insert_eq | ].
  rewrite Hact, map_app, Hds, <- app_assoc. simpl. by rewrite Hdest.
Qed.

(** Whenever [StoqArgs(parser)] returns, it returns [parser], and the heap
    differs only in that object, which gained fifteen actions with the
    destinations of [stoq_dests], in this order. *)
Lemma StoqArgs_effect parser h r h' :
  StoqArgs parser h = (Ok r, h') → r = parser ∧ extends parser h h' stoq_dests.
Proof.
  unfold StoqArgs. intros H.
  apply mbind_inv in H as (g1 & h1 & Hg & H).
  assert (H0 : extends parser h h []).
  { unfold add_argument_group in Hg.
    destruct (h !! parser) as [P | ] eqn:HP; [ | discriminate].
    exists P, P. split; [exact HP | ]. split; [ | by rewrite app_nil_r].
    symmetry. by apply insert_id. }
  destruct (extends_group _ _ _ _ _ _ _ H0 Hg) as [H1 [i ->]]. clear H0 Hg.
  repeat (apply mbind_inv in H as (? & ? & Harg & H);
          first [ eapply extends_argument in Harg;
                    [ | eassumption | reflexivity]; clear H1; rename Harg into H1
                | eapply extends_group in Harg as [Harg [? ->]];
                    [ | eassumption]; clear H1; rename Harg into H1 ]).
  injection H as <- <-. split; [reflexivity | exact H1].
Qed.

(** ** Single options *)

(** [parse_args] leaves through [parser.error] only, apart from the help
    action: the classification of a string raises nothing else. *)
Lemma _parse_optional_raise P s e :
  _parse_optional P s = Raise e → ∃ msg, e = SystemExit 2 (Some msg).
Proof.
  unfold _parse_optional. destruct s as [ | c0 rest]; [discriminate | ].
  destruct (negb (char_in c0 (prefix_chars P))); [discriminate | ].
  destruct (dict_get (String c0 rest) _); [discriminate | ].
  destruct (String.eqb_spec rest "") as [-> | Hrest]; [discriminate | ].
  assert (Htuples : ∀ e', _get_option_tuples P (String c0 rest) = Raise e' →
                          ∃ msg, e' = SystemExit 2 (Some msg)).
  { unfold _get_option_tuples. intros e'.
    destruct rest as [ | c1 rest']; [done | ].
    destruct (_ && _);
      [destruct (split_once _ _) as [[? ?] | ]; discriminate | ].
    destruct (_ && _); [discriminate | ]. intros [= <-]. eauto. }
  destruct (match split_once "=" (String c0 rest) with
            | Some (o, ea) => _ | None => _ end); [discriminate | ].
  destruct (_get_option_tuples P (String c0 rest)) as [l | e'] eqn:Hl;
    cbn [rbind].
  - destruct l as [ | t1 [ | t2 l]]; try discriminate.
    + destruct (_ && _); [discriminate | ].
      destruct (char_in _ _); discriminate.
    + intros [= <-]. eauto.
  - intros [= <-]. eauto.
Qed.

Lemma take_action_bad_choice st action v l :
  v ≠ "--" → nargs action = nargs_None → type_ action = VNone →
  choices action = Some l → py_in (VStr v) l = false →
  take_action st action [v]
  = Raise (ArgumentError (_get_action_name action)
                         (invalid_choice (VStr v) l)).
Proof.
  intros Hv Hn Hty Hch Hin. unfold take_action, _get_values.
  cbn [remove_dashdash].
  destruct (String.eqb_spec v "--") as [ | _]; [contradiction | ].
  rewrite Hn. unfold _get_value. rewrite Hty. cbn [rbind].
  unfold _check_value. rewrite Hch, Hin. reflexivity.
Qed.

(** The outcome of [option value] for a plain store option with choices:
    a value outside the choices never parses. *)
Lemma store_value_rejected P o action v l :
  o ≠ "--" →
  _parse_optional P o = Ok (Some (Some action, o, None)) →
  action_class action = _StoreAction → nargs action = nargs_None →
  type_ action = VNone → choices action = Some l →
  py_in (VStr v) l = false →
  ∃ msg, parse_args P [o; v] = Raise (SystemExit 2 (Some msg)).
Proof.
  intros Ho Hopt Hcls Hn Hty Hch Hv.
  unfold parse_args, parse_args_seen, parse_known_args, _parse_known_args.
  generalize (action_defaults P). intros ns0.
  cbn [arg_strings_pattern].
  destruct (String.eqb_spec o "--") as [ | _]; [contradiction | ].
  rewrite Hopt. cbn [rbind].
  assert (Hnone : ∀ c following acc,
             leading_A [c] = 0 →
             match_following action o [c] following acc
             = Raise (ArgumentError (_get_action_name action)
                                    expected_one_argument)).
  { intros c following acc Hc. unfold match_following, _match_argument.
    rewrite Hn, Hc. reflexivity. }
  destruct (String.eqb_spec v "--") as [-> | Hvd].
  { cbn [rbind consume consume_optional map].
    rewrite Hnone by reflexivity. cbn. eauto. }
  destruct (_parse_optional P v) as [[t | ] | e] eqn:Hpv.
  - cbn [rbind consume consume_optional].
    rewrite Hnone by reflexivity. cbn. eauto.
  - cbn [rbind consume consume_optional].
    unfold match_following, _match_argument. rewrite Hn. cbn.
    rewrite (take_action_bad_choice _ action v l) by assumption.
    cbn. eauto.
  - apply _parse_optional_raise in Hpv as [msg ->]. cbn. eauto.
Qed.

(** A parse that returns with [d] set to [v], as a check that computes. *)
Definition parse_sets (P : ArgumentParser) (args : list string) (d : string)
    (v : Value) : bool :=
  match parse_args P args with
  | Ok ns => bool_decide (ns !! d = Some v)
  | Raise _ => false
  end.

Lemma parse_sets_true P args d v :
  parse_sets P args d v = true →
  ∃ ns, parse_args P args = Ok ns ∧ ns !! d = Some v.
Proof.
  unfold parse_sets. destruct (parse_args P args) as [ns | e];
    [ | discriminate].
  intros H. apply bool_decide_eq_true in H. eauto.
Qed.

Lemma py_in_VStr_false s (l : list string) :
  s ∉ l → py_in (VStr s) (map VStr l) = false.
Proof.
  unfold py_in. induction l as [ | x l IH]; intros Hs; simpl; [reflexivity | ].
  destruct (String.eqb_spec s x) as [-> | _]; simpl.
  - destruct Hs. apply list_elem_of_here.
  - apply IH. intros H. apply Hs. by apply list_elem_of_further.
Qed.

(** C8. The log level choices are ['debug'], ['info'], ['warning'] and the
    concatenation ['errorcritical'] of the two adjacent literals: each of
    the four parses, any other value after [-L] (so ['error'] and
    ['critical']) is rejected as an invalid choice or a usage error, and no
    parse leaves another string under [log_level]. *)
Theorem log_level_choices :
  choices (stoq_action "-L")
  = Some [VStr "debug"; VStr "info"; VStr "warning"; VStr "errorcritical"]
  ∧ (∀ v, v ∈ ["debug"; "info"; "warning"; "errorcritical"] →
          ∃ ns, parse_args stoq_parser ["-L"; v] = Ok ns
                ∧ ns !! "log_level" = Some (VStr v))
  ∧ (∀ v, v ∉ ["debug"; "info"; "warning"; "errorcritical"] →
          ∃ msg, parse_args stoq_parser ["-L"; v]
                 = Raise (SystemExit 2 (Some msg)))
  ∧ parse_args stoq_parser ["-L"; "error"]
    = error (invalid_choice (VStr "error")
               [VStr "debug"; VStr "info"; VStr "warning";
                VStr "errorcritical"])
  ∧ parse_args stoq_parser ["-L"; "critical"]
    = error (invalid_choice (VStr "critical")
               [VStr "debug"; VStr "info"; VStr "warning";
                VStr "errorcritical"])
  ∧ (∀ args ns s, parse_args stoq_parser args = Ok ns →
                  ns !! "log_level" = Some (VStr s) →
                  s ∈ ["debug"; "info"; "warning"; "errorcritical"]).
Proof.
  split; [reflexivity | ]. split.
  { intros v Hv. apply parse_sets_true.
    repeat (apply elem_of_cons in Hv as [-> | Hv];
            [vm_compute; reflexivity | ]).
    by apply elem_of_nil in Hv. }
  split.
  { intros v Hv.
    apply (store_value_rejected stoq_parser "-L" (stoq_action "-L") v
             (map VStr log_levels)); try reflexivity; try discriminate.
    by apply py_in_VStr_false. }
  split; [vm_compute; reflexivity | ]. split; [vm_compute; reflexivity | ].
  intros args ns s H Hs. apply parse_args_seen_iff in H as [seen H].
  apply stoq_parse_inv in H. exact (inv_log_level _ H s Hs).
Qed.

(** ** Where a taken action comes from *)

(** The action of an option tuple, or an action reached from its explicit
    argument by the single-dash chain ([-xyz] as [-x -y -z]): the option
    string of such an action is a prefix character and one character of the
    explicit argument. *)
Definition via_cluster (P : ArgumentParser) (e : string) (a : Action) : Prop :=
  ∃ c char, char_in c e = true
            ∧ dict_get (String char (String c "")) (_option_string_actions P)
              = Some a.

Definition tuple_fires (P : ArgumentParser) (t : OptionTuple) (a : Action)
  : Prop :=
  match t with
  | (Some a0, _, ea) =>
      a = a0 ∨ ∃ e, ea = Some e ∧ via_cluster P e a
  | (None, _, _) => False
  end.

Lemma via_cluster_tail P c e a :
  via_cluster P e a → via_cluster P (String c e) a.
Proof.
  intros (c' & char & Hc & Hget). exists c', char. split; [ | exact Hget].
  simpl. rewrite Hc. apply orb_true_r.
Qed.

Lemma match_explicit_origin P explicit_arg :
  ∀ action o pattern following acc tuples n,
    match_explicit P action o explicit_arg pattern following acc
      = Ok (tuples, n) →
    ∃ new, tuples = acc ++ new
           ∧ Forall (λ t, action_of t = action
                          ∨ via_cluster P explicit_arg (action_of t)) new.
Proof.
  induction explicit_arg as [ | e rest IH]; intros action o pattern following
    acc tuples n H; simpl in H; inv_bind H;
    destruct o as [ | char [ | c1 o']]; try discriminate.
  - destruct x as [ | [ | k]]; destruct (char_in c1 (prefix_chars P));
      try discriminate; injection H as <- <-;
      (eexists; split; [reflexivity | ]); repeat constructor.
  - destruct x as [ | [ | k]]; destruct (char_in c1 (prefix_chars P));
      try discriminate;
      try (injection H as <- <-;
           (eexists; split; [reflexivity | ]); repeat constructor; fail).
    destruct (dict_get _ _) as [action' | ] eqn:Hnext; [ | discriminate].
    assert (Hvia : via_cluster P (String e rest) action').
    { exists e, char. split; [ | exact Hnext].
      simpl. by rewrite Ascii.eqb_refl. }
    destruct rest as [ | e' rest'].
    + apply match_following_inv in H as [-> _].
      exists [(action, [], String char (String c1 o'));
              (action', take n following, String char (String e ""))].
      split; [by rewrite <- app_assoc | ].
      constructor; [by left | ]. constructor; [by right | constructor].
    + apply IH in H as (new & -> & Hnew).
      exists ((action, [], String char (String c1 o')) :: new).
      split; [by rewrite <- app_assoc | ].
      constructor; [by left | ].
      eapply Forall_impl; [exact Hnew | ]. intros t [-> | Ht].
      * by right.
      * right. by apply via_cluster_tail.
Qed.

Lemma take_actions_seen tuples :
  ∀ st st', take_actions st tuples = Ok st' →
            seen_actions st' = seen_actions st ++ map action_of tuples.
Proof.
  induction tuples as [ | [[a args] o] tuples IH]; simpl; intros st st' H.
  - injection H as <-. by rewrite app_nil_r.
  - inv_bind H. apply take_action_seen in E as [Hseen _].
    rewrite (IH _ _ H), Hseen, <- app_assoc. reflexivity.
Qed.

Lemma consume_optional_origin P st s t pattern following st' n a :
  consume_optional P st s t pattern following = Ok (st', n) →
  a ∈ seen_actions st' → a ∈ seen_actions st ∨ tuple_fires P t a.
Proof.
  destruct t as [[[a0 | ] o] ea]; simpl; intros H Ha.
  - inv_bind H. destruct x as [tuples k]. inv_bind H. injection H as <- <-.
    apply take_actions_seen in E0. rewrite E0 in Ha.
    apply elem_of_app in Ha as [Ha | Ha]; [by left | right].
    apply list_elem_of_fmap in Ha as (t & -> & Ht).
    destruct ea as [e | ].
    + apply match_explicit_origin in E as (new & -> & Hnew).
      rewrite Forall_forall in Hnew. destruct (Hnew t Ht) as [-> | Hvia].
      * by left.
      * right. eauto.
    + apply match_following_inv in E as [-> _].
      apply list_elem_of_singleton in Ht as ->. by left.
  - injection H as <- <-. by left.
Qed.

(** An action seen at the end of the loop was seen before it or comes from
    one of the argument strings, through the option tuple of that string. *)
Lemma consume_origin P args :
  ∀ pattern skip st st' a,
    consume P args pattern skip st = Ok st' →
    a ∈ seen_actions st' →
    a ∈ seen_actions st
    ∨ ∃ s t, (s, cls_O t) ∈ zip args pattern ∧ tuple_fires P t a.
Proof.
  induction args as [ | s args IH]; intros pattern skip st st' a H Ha.
  { simpl in H. injection H as <-. by left. }
  destruct pattern as [ | c pattern].
  { simpl in H. injection H as <-. by left. }
  assert (Hlift : (∃ s0 t, (s0, cls_O t) ∈ zip args pattern
                           ∧ tuple_fires P t a) →
                  ∃ s0 t, (s0, cls_O t) ∈ zip (s :: args) (c :: pattern)
                          ∧ tuple_fires P t a).
  { intros (s0 & t & Hin & Hf). exists s0, t. split; [ | exact Hf].
    simpl. by apply list_elem_of_further. }
  simpl in H. destruct skip as [ | skip].
  - destruct c as [ | t | ].
    + destruct (IH _ _ _ _ _ H Ha) as [Hs | Hs]; [by left | right; auto].
    + inv_bind H. destruct x as [st1 stop].
      destruct (IH _ _ _ _ _ H Ha) as [Hs | Hs]; [ | right; auto].
      destruct (consume_optional_origin _ _ _ _ _ _ _ _ _ E Hs) as [Hs' | Hf];
        [by left | right].
      exists s, t. split; [apply list_elem_of_here | exact Hf].
    + destruct (IH _ _ _ _ _ H Ha) as [Hs | Hs]; [by left | right; auto].
  - destruct (IH _ _ _ _ _ H Ha) as [Hs | Hs]; [by left | right; auto].
Qed.

Lemma pattern_zip P args pattern s t :
  arg_strings_pattern P args = Ok pattern →
  (s, cls_O t) ∈ zip args pattern →
  s ∈ args ∧ _parse_optional P s = Ok (Some t).
Proof.
  revert pattern. induction args as [ | s0 args IH]; intros pattern H Hin.
  { simpl in Hin. by apply elem_of_nil in Hin. }
  simpl in H. destruct (String.eqb s0 "--").
  { injection H as <-. simpl in Hin.
    apply elem_of_cons in Hin as [[=] | Hin].
    apply elem_of_zip_r in Hin.
    apply list_elem_of_fmap in Hin as (? & [=] & _). }
  inv_bind H. inv_bind H. injection H as <-. simpl in Hin.
  apply elem_of_cons in Hin as [Heq | Hin].
  - injection Heq as -> Hc. split; [apply list_elem_of_here | ].
    destruct x as [t' | ]; [ | discriminate]. by injection Hc as ->.
  - destruct (IH _ E0 Hin) as [Hs Hp].
    split; [by apply list_elem_of_further | exact Hp].
Qed.

(** On a returning parse, every action seen was named by an argument
    string. *)
Lemma seen_origin P args ns seen a :
  (∀ seen ns, finish (_actions P) seen ns [] = Ok (ns, [])) →
  parse_args_seen P args = Ok (ns, seen) →
  a ∈ seen →
  ∃ s t, s ∈ args ∧ _parse_optional P s = Ok (Some t) ∧ tuple_fires P t a.
Proof.
  intros Hfin H Ha.
  apply parse_args_seen_inv in H as (pattern & Hpat & Hrun); [ | exact Hfin].
  destruct (consume_origin _ _ _ _ _ _ a Hrun Ha) as [Hnil | (s & t & Hin & Hf)].
  { by apply elem_of_nil in Hnil. }
  destruct (pattern_zip _ _ _ _ _ Hpat Hin) as [Hs Hp]. eauto.
Qed.

(** How [_parse_optional] reads an option tuple off a string: the string
    is the option string, or the option string, an equals sign and the
    explicit argument, or the tuple is the only abbreviation found. *)
Lemma _parse_optional_origin P s a0 o ea :
  _parse_optional P s = Ok (Some (Some a0, o, ea)) →
  (s = o ∧ ea = None ∧ dict_get o (_option_string_actions P) = Some a0)
  ∨ (∃ e, ea = Some e ∧ split_once "=" s = Some (o, e)
          ∧ dict_get o (_option_string_actions P) = Some a0)
  ∨ _get_option_tuples P s = Ok [(Some a0, o, ea)].
Proof.
  unfold _parse_optional. destruct s as [ | c0 rest]; [discriminate | ].
  destruct (negb (char_in c0 (prefix_chars P))); [discriminate | ].
  destruct (dict_get (String c0 rest) _) as [a | ] eqn:Hexact.
  { intros [= <- <- <-]. left. auto. }
  destruct (String.eqb rest ""); [discriminate | ].
  assert (Htuples :
            (let* option_tuples := _get_option_tuples P (String c0 rest) in
             match option_tuples with
             | [] =>
                 if negative_number (String c0 rest)
                    && bool_decide (_has_negative_number_optionals P = [])
                 then Ok None
                 else if char_in " " (String c0 rest) then Ok None
                      else Ok (Some (None, String c0 rest, None))
             | [option_tuple] => Ok (Some option_tuple)
             | _ :: _ :: _ =>
                 error (ambiguous_option (String c0 rest)
                          (map (λ t, snd (fst t)) option_tuples))
             end) = Ok (Some (Some a0, o, ea)) →
            _get_option_tuples P (String c0 rest) = Ok [(Some a0, o, ea)]).
  { intros H. inv_bind H. rewrite E.
    destruct x as [ | t1 [ | t2 l]]; try discriminate.
    - destruct (_ && _); [discriminate | ].
      destruct (char_in _ _); discriminate.
    - by injection H as ->. }
  destruct (split_once "=" (String c0 rest)) as [[o' e] | ].
  - destruct (dict_get o' _) as [a | ] eqn:Ho.
    + intros [= <- <- <-]. right. left. eauto.
    + intros H. right. right. by apply Htuples.
  - intros H. right. right. by apply Htuples.
Qed.

Lemma append_cons (c : ascii) (a b : string) :
  String c a +:+ b = String c (a +:+ b).
Proof. reflexivity. Qed.

Lemma append_assoc (a b c : string) : (a +:+ b) +:+ c = a +:+ (b +:+ c).
Proof.
  induction a as [ | d a IH]; [reflexivity | ].
  by rewrite !append_cons, IH.
Qed.

Lemma split_once_eq (sep : ascii) (s a b : string) :
  split_once sep s = Some (a, b) → s = a +:+ String sep b.
Proof.
  revert a b. induction s as [ | c s IH]; intros a b; simpl; [discriminate | ].
  destruct (Ascii.eqb_spec c sep) as [-> | _].
  - by intros [= <- <-].
  - destruct (split_once sep s) as [[a' b'] | ] eqn:Hs; [ | discriminate].
    intros [= <- <-]. rewrite append_cons. f_equal. by apply IH.
Qed.

Lemma char_in_app (c : ascii) (a b : string) :
  char_in c (a +:+ b) = char_in c a || char_in c b.
Proof.
  induction a as [ | d a IH]; [reflexivity | ].
  rewrite append_cons. simpl. by rewrite IH, orb_assoc.
Qed.

Lemma char_in_dash (c : ascii) : char_in c "-" = true → c = "-"%char.
Proof.
  simpl. rewrite orb_false_r. apply Ascii.eqb_eq.
Qed.

(** The explicit argument of an option tuple is the end of its string. *)
Lemma _parse_optional_explicit P s a0 o e :
  _parse_optional P s = Ok (Some (Some a0, o, Some e)) →
  ∃ pre, s = pre +:+ e.
Proof.
  intros H.
  apply _parse_optional_origin in H as [(_ & [=] & _) | [(e' & He & Hs & _) | H]].
  - injection He as <-. apply split_once_eq in Hs.
    exists (o +:+ "="). by rewrite Hs, append_assoc.
  - unfold _get_option_tuples in H.
    destruct s as [ | c0 [ | c1 rest]]; try discriminate.
    assert (Hin : ∀ l : list OptionTuple,
               Ok l = Ok [(Some a0, o, Some e)] → (Some a0, o, Some e) ∈ l).
    { intros l [= ->]. apply list_elem_of_here. }
    destruct (_ && _).
    + destruct (split_once "=" (String c0 (String c1 rest)))
        as [[pre e'] | ] eqn:Hs.
      * apply Hin, list_elem_of_omap in H as ([o' a'] & _ & Hf).
        destruct (startswith o' pre); [ | discriminate].
        injection Hf as _ _ <-. apply split_once_eq in Hs.
        exists (pre +:+ "="). by rewrite Hs, append_assoc.
      * apply Hin, list_elem_of_omap in H as ([o' a'] & _ & Hf).
        destruct (startswith o' _); discriminate.
    + destruct (_ && _); [ | discriminate].
      apply Hin, list_elem_of_omap in H as ([o' a'] & _ & Hf).
      destruct (String.eqb o' _).
      * injection Hf as _ _ <-. by exists (String c0 (String c1 "")).
      * destruct (startswith o' _); discriminate.
Qed.

Lemma startswith_dashdash s :
  startswith s "--" = true → ∃ rest, s = String "-" (String "-" rest).
Proof.
  destruct s as [ | c0 r]; [discriminate | ].
  change (startswith (String c0 r) "--")
    with (Ascii.eqb "-" c0 && startswith r "-").
  intros H. apply andb_true_iff in H as [H0 H1].
  apply Ascii.eqb_eq in H0 as <-. apply startswith_dash in H1 as [r' ->].
  eauto.
Qed.

Section FlagMention.

(** A flag with a one-letter option string [-x] and a long option string
    that starts with [--l], on a parser with the default prefix character
    and at least two long options: an argument string that has the flag's
    action taken contains the letter [x] or starts with [--l]. *)
Variable P : ArgumentParser.
Variable flag : Action.
Variables x l : ascii.
Variable tail : string.
Hypothesis prefix_dash : prefix_chars P = "-".
Hypothesis x_not_dash : x ≠ "-"%char.
Hypothesis flag_keys :
  ∀ o, (o, flag) ∈ _option_string_actions P →
       o = String "-" (String x "")
       ∨ o = String "-" (String "-" (String l tail)).
Hypothesis two_long :
  ∃ o1 a1 o2 a2,
    (o1, a1) ∈ _option_string_actions P ∧ (o2, a2) ∈ _option_string_actions P
    ∧ startswith o1 "--" = true ∧ startswith o2 "--" = true ∧ o1 ≠ o2.

Definition mentions (s : string) : bool :=
  char_in x s || startswith s (String "-" (String "-" (String l ""))).

Lemma mentions_short rest :
  mentions (String "-" (String x rest)) = true.
Proof.
  unfold mentions. simpl. rewrite (Ascii.eqb_refl x).
  by rewrite !orb_true_r.
Qed.

Lemma mentions_long rest :
  mentions (String "-" (String "-" (String l rest))) = true.
Proof.
  unfold mentions.
  change (startswith (String "-" (String "-" (String l rest)))
                     (String "-" (String "-" (String l ""))))
    with (Ascii.eqb "-" "-" && (Ascii.eqb "-" "-" && (Ascii.eqb l l && true))).
  rewrite !Ascii.eqb_refl. apply orb_true_r.
Qed.

Lemma mentions_key o rest :
  (o, flag) ∈ _option_string_actions P → mentions (o +:+ rest) = true.
Proof.
  intros Ho. destruct (flag_keys o Ho) as [-> | ->].
  - apply mentions_short.
  - apply mentions_long.
Qed.

Lemma mentions_suffix pre e : char_in x e = true → mentions (pre +:+ e) = true.
Proof.
  intros He. unfold mentions. rewrite char_in_app, He.
  by rewrite orb_true_r.
Qed.

Lemma append_empty (s : string) : s +:+ "" = s.
Proof.
  induction s as [ | c s IH]; [reflexivity | ]. by rewrite append_cons, IH.
Qed.

Lemma long_abbreviation pre (ea' ea : option string) o :
  startswith pre "--" = true →
  omap (λ '(o, action),
          if startswith o pre then Some (Some action, o, ea') else None)
       (_option_string_actions P)
  = [(Some flag, o, ea)] →
  ∃ rest, pre = String "-" (String "-" (String l rest)).
Proof.
  intros Hpre Hl.
  assert (Hin : (Some flag, o, ea) ∈ [(Some flag, o, ea)])
    by apply list_elem_of_here.
  rewrite <- Hl in Hin. apply list_elem_of_omap in Hin as ([o' a'] & Ho' & Hf).
  destruct (startswith o' pre) eqn:Hstart; [ | discriminate].
  injection Hf as -> -> ->.
  apply startswith_dashdash in Hpre as [pre' ->].
  destruct pre' as [ | p2 pre''].
  - exfalso. destruct two_long as (o1 & a1 & o2 & a2 & Hi1 & Hi2 & Hs1 & Hs2 & Hne).
    assert (H1 : (Some a1, o1, ea) ∈ [(Some flag, o, ea)]).
    { rewrite <- Hl. apply list_elem_of_omap. exists (o1, a1).
      split; [exact Hi1 | ]. by rewrite Hs1. }
    assert (H2 : (Some a2, o2, ea) ∈ [(Some flag, o, ea)]).
    { rewrite <- Hl. apply list_elem_of_omap. exists (o2, a2).
      split; [exact Hi2 | ]. by rewrite Hs2. }
    apply list_elem_of_singleton in H1, H2. congruence.
  - destruct (flag_keys o Ho') as [-> | ->].
    + change (startswith (String "-" (String x ""))
                         (String "-" (String "-" (String p2 pre''))))
        with (Ascii.eqb "-" "-" && (Ascii.eqb "-" x && false)) in Hstart.
      by rewrite andb_false_r, andb_false_r in Hstart.
    + change (startswith (String "-" (String "-" (String l tail)))
                         (String "-" (String "-" (String p2 pre''))))
        with (Ascii.eqb "-" "-"
              && (Ascii.eqb "-" "-"
                  && (Ascii.eqb p2 l && startswith tail pre''))) in Hstart.
      rewrite !Ascii.eqb_refl in Hstart. simpl in Hstart.
      apply andb_true_iff in Hstart as [Hp _].
      apply Ascii.eqb_eq in Hp as ->. eauto.
Qed.

Lemma tuple_fires_mentions s t :
  _parse_optional P s = Ok (Some t) → tuple_fires P t flag →
  mentions s = true.
Proof.
  destruct t as [[[a0 | ] o] ea]; [ | contradiction].
  intros Hp [<- | (e & -> & c & char & Hc & Hget)].
  - apply _parse_optional_origin in Hp
      as [(-> & _ & Hget) | [(e & -> & Hs & Hget) | Htuples]].
    + apply dict_get_elem in Hget. rewrite <- (append_empty o).
      by apply mentions_key.
    + apply dict_get_elem in Hget. apply split_once_eq in Hs as ->.
      by apply mentions_key.
    + unfold _get_option_tuples in Htuples. rewrite prefix_dash in Htuples.
      destruct s as [ | c0 [ | c1 rest]]; try discriminate.
      destruct (char_in c0 "-") eqn:H0; [ | discriminate].
      apply char_in_dash in H0 as ->. cbn [andb] in Htuples.
      destruct (char_in c1 "-") eqn:H1; cbn [negb] in Htuples.
      * apply char_in_dash in H1 as ->.
        destruct (split_once "=" (String "-" (String "-" rest)))
          as [[pre e] | ] eqn:Hs; apply Ok_inj in Htuples; rename Htuples into Hl.
        -- pose proof (split_once_eq _ _ _ _ Hs) as Heq.
           assert (Hpre : startswith pre "--" = true).
           { clear -Hs. simpl in Hs.
             destruct (split_once "=" rest) as [[a b] | ]; [ | discriminate].
             by injection Hs as <- _. }
           apply long_abbreviation in Hl as [r ->]; [ | exact Hpre].
           rewrite Heq. apply mentions_long.
        -- apply long_abbreviation in Hl as [r Hr]; [ | reflexivity].
           rewrite Hr. apply mentions_long.
      * apply Ok_inj in Htuples. rename Htuples into Hl.
        assert (Hin : (Some flag, o, ea) ∈ [(Some flag, o, ea)])
          by apply list_elem_of_here.
        rewrite <- Hl in Hin.
        apply list_elem_of_omap in Hin as ([o' a'] & Ho' & Hf).
        destruct (String.eqb_spec o' (String "-" (String c1 ""))) as [-> | _].
        -- injection Hf as -> _.
           destruct (flag_keys _ Ho') as [[= ->] | [=]].
           apply mentions_short.
        -- destruct (startswith o' (String "-" (String c1 rest))) eqn:Hstart;
             [ | discriminate].
           injection Hf as -> -> _.
           destruct (flag_keys _ Ho') as [-> | ->].
           ++ change (startswith (String "-" (String x ""))
                                 (String "-" (String c1 rest)))
                with (Ascii.eqb "-" "-"
                      && (Ascii.eqb c1 x && startswith "" rest)) in Hstart.
              rewrite Ascii.eqb_refl in Hstart. simpl in Hstart.
              apply andb_true_iff in Hstart as [Hc _].
              apply Ascii.eqb_eq in Hc as ->. apply mentions_short.
           ++ change (startswith (String "-" (String "-" (String l tail)))
                                 (String "-" (String c1 rest)))
                with (Ascii.eqb "-" "-"
                      && (Ascii.eqb c1 "-"
                          && startswith (String l tail) rest)) in Hstart.
              rewrite Ascii.eqb_refl in Hstart. cbn [andb] in Hstart.
              apply andb_true_iff in Hstart as [Hc _].
              apply Ascii.eqb_eq in Hc as ->. simpl in H1.
              discriminate.
  - apply _parse_optional_explicit in Hp as [pre ->].
    apply mentions_suffix. apply dict_get_elem in Hget.
    destruct (flag_keys _ Hget) as [[= _ <-] | [=]]. exact Hc.
Qed.

(** A returning parse whose argument strings do not mention the flag has
    not taken its action. *)
Lemma unmentioned_not_seen args ns seen :
  (∀ seen ns, finish (_actions P) seen ns [] = Ok (ns, [])) →
  parse_args_seen P args = Ok (ns, seen) →
  Forall (λ s, mentions s = false) args →
  flag ∉ seen.
Proof.
  intros Hfin H Hno Hseen.
  destruct (seen_origin _ _ _ _ _ Hfin H Hseen) as (s & t & Hs & Hp & Hf).
  rewrite Forall_forall in Hno. specialize (Hno s Hs).
  rewrite (tuple_fires_mentions s t Hp Hf) in Hno. discriminate.
Qed.

End FlagMention.

(** The three flags of [StoqArgs] are of that kind. *)
Lemma stoq_two_long :
  ∃ o1 a1 o2 a2,
    (o1, a1) ∈ _option_string_actions stoq_parser
    ∧ (o2, a2) ∈ _option_string_actions stoq_parser
    ∧ startswith o1 "--" = true ∧ startswith o2 "--" = true ∧ o1 ≠ o2.
Proof.
  exists "--help", (stoq_action "--help"),
         "--loglevel", (stoq_action "--loglevel").
  split; [apply dict_get_elem; reflexivity | ].
  split; [apply dict_get_elem; reflexivity | ].
  split; [reflexivity | ]. split; [reflexivity | discriminate].
Qed.

Lemma stoq_unmentioned (x l : ascii) (tail : string) args ns seen :
  x ≠ "-"%char →
  bool_decide
    (Forall (λ oa, snd oa = stoq_action (String "-" (String x "")) →
                   fst oa = String "-" (String x "")
                   ∨ fst oa = String "-" (String "-" (String l tail)))
            (_option_string_actions stoq_parser)) = true →
  parse_args_seen stoq_parser args = Ok (ns, seen) →
  Forall (λ s, char_in x s = false
               ∧ startswith s (String "-" (String "-" (String l ""))) = false)
         args →
  stoq_action (String "-" (String x "")) ∉ seen.
Proof.
  intros Hx Hkeys H Hno.
  apply (unmentioned_not_seen stoq_parser _ x l tail eq_refl Hx) with args ns.
  - intros o Ho. apply bool_decide_eq_true in Hkeys.
    rewrite Forall_forall in Hkeys. exact (Hkeys _ Ho eq_refl).
  - exact stoq_two_long.
  - apply stoq_finish.
  - exact H.
  - eapply Forall_impl; [exact Hno | ]. intros s [Hc Hs]. unfold mentions.
    by rewrite Hc, Hs.
Qed.

(** [--metadata] stores its strings as they come: the parser does not look
    for the colon. *)
Lemma metadata_is_stored_unchecked :
  parse_sets stoq_parser ["--metadata"; "tag:APT1"; "bad"] "ingest_metadata"
             (VList [VStr "tag:APT1"; VStr "bad"]) = true.
Proof. vm_compute. reflexivity. Qed.

(** ** The flags *)

Lemma parse_args_nil P :
  (∀ seen ns, finish (_actions P) seen ns [] = Ok (ns, [])) →
  parse_args_seen P [] = Ok (action_defaults P, []).
Proof.
  intros Hfin.
  unfold parse_args_seen, parse_known_args, _parse_known_args.
  cbn [arg_strings_pattern rbind consume seen_actions namespace].
  rewrite Hfin. reflexivity.
Qed.

(** A flag that is set stays set: no registered action of the parser
    writes the default of [combined_results] back. *)
Lemma split_is_final st st' action args :
  registered stoq_parser action →
  namespace st !! "combined_results" = Some False_ →
  take_action st action args = Ok st' →
  namespace st' !! "combined_results" = Some False_.
Proof.
  intros Hreg Hns H. apply stoq_registered in Hreg.
  each_action Hreg;
    (apply take_action_inv in H as (_ & _ & v & -> & Hconst & _ & Hhelp);
     [ | discriminate]);
    try (exfalso; apply Hhelp; reflexivity);
    first [ rewrite lookup_insert_ne by discriminate; exact Hns
          | rewrite (Hconst ltac:(discriminate)); apply lookup_insert_eq ].
Qed.

(** C2. Result delivery defaults to combined.  On every returning parse,
    [combined_results] is [True] unless the split action was taken and
    [False] once it was; an argument list that contains [-S] or [--split]
    as an argument string has it taken; an argument list in which no string
    contains the letter [S] or starts with [--s] (so none spells the option,
    in full, abbreviated or inside a group of flags) gives [True], as does
    the empty list; and no action of the parser turns a [False] back into
    [True]. *)
Theorem combined_results_default_and_split :
  stoq_action "-S" = stoq_action "--split"
  ∧ (∀ args ns seen,
       parse_args_seen stoq_parser args = Ok (ns, seen) →
       ns !! "combined_results"
       = Some (if bool_decide (stoq_action "--split" ∈ seen)
               then False_ else True_)
       ∧ ("-S" ∈ args ∨ "--split" ∈ args →
          ns !! "combined_results" = Some False_)
       ∧ (Forall (λ s, char_in "S" s = false ∧ startswith s "--s" = false)
                 args →
          ns !! "combined_results" = Some True_)
       ∧ (args = [] → ns !! "combined_results" = Some True_))
  ∧ (∀ st st' action args,
       registered stoq_parser action →
       namespace st !! "combined_results" = Some False_ →
       take_action st action args = Ok st' →
       namespace st' !! "combined_results" = Some False_).
Proof.
  split; [reflexivity | ]. split; [ | exact split_is_final].
  intros args ns seen H.
  pose proof (inv_split _ (stoq_parse_inv _ _ _ H)) as Hflag.
  unfold flag_inv in Hflag. cbn [namespace seen_actions] in Hflag.
  change (dest (stoq_action "-S")) with "combined_results" in Hflag.
  change (const (stoq_action "-S")) with False_ in Hflag.
  change (default (stoq_action "-S")) with True_ in Hflag.
  change (stoq_action "-S") with (stoq_action "--split") in Hflag.
  split; [exact Hflag | ]. split; [ | split].
  - intros Hin. rewrite Hflag, bool_decide_eq_true_2; [reflexivity | ].
    destruct Hin as [Hin | Hin];
      eapply (stoq_option_seen _ _ _ _ _ H Hin); reflexivity.
  - intros Hno. rewrite Hflag, bool_decide_eq_false_2; [reflexivity | ].
    apply (stoq_unmentioned "S" "s" "plit" args ns seen);
      [discriminate | vm_compute; reflexivity | exact H | exact Hno].
  - intros ->. rewrite parse_args_nil in H by apply stoq_finish.
    assert (Hseen : seen = []) by (clear -H; congruence).
    rewrite Hflag, Hseen. reflexivity.
Qed.

(** C7. The error-queue and dispatch toggles.  On every returning parse
    each of the two destinations is [True] exactly when its action was
    taken and [False] otherwise; an argument list that contains [-E] or
    [--errors] (respectively [-D] or [--dispatch]) as an argument string
    has the action taken; an argument list in which no string contains the
    letter [E] or starts with [--e] (respectively [D], [--d]) leaves the
    destination [False]; and the actions take none of the strings that
    follow them, whatever those are. *)
Theorem error_queue_and_dispatch_toggles :
  (stoq_action "-E" = stoq_action "--errors"
   ∧ stoq_action "-D" = stoq_action "--dispatch")
  ∧ (∀ args ns seen,
       parse_args_seen stoq_parser args = Ok (ns, seen) →
       ns !! "error_queue"
       = Some (VBool (bool_decide (stoq_action "--errors" ∈ seen)))
       ∧ ns !! "dispatch"
         = Some (VBool (bool_decide (stoq_action "--dispatch" ∈ seen)))
       ∧ ("-E" ∈ args ∨ "--errors" ∈ args →
          ns !! "error_queue" = Some True_)
       ∧ ("-D" ∈ args ∨ "--dispatch" ∈ args →
          ns !! "dispatch" = Some True_)
       ∧ (Forall (λ s, char_in "E" s = false ∧ startswith s "--e" = false)
                 args →
          ns !! "error_queue" = Some False_)
       ∧ (Forall (λ s, char_in "D" s = false ∧ startswith s "--d" = false)
                 args →
          ns !! "dispatch" = Some False_)
       ∧ (args = [] →
          ns !! "error_queue" = Some False_ ∧ ns !! "dispatch" = Some False_))
  ∧ (∀ pattern,
       _match_argument (stoq_action "--errors") pattern = Ok 0
       ∧ _match_argument (stoq_action "--dispatch") pattern = Ok 0).
Proof.
  split; [split; reflexivity | ]. split; [ | intros pattern; split; reflexivity].
  intros args ns seen H.
  pose proof (stoq_parse_inv _ _ _ H) as Hinv.
  pose proof (inv_errors _ Hinv) as HE. pose proof (inv_dispatch _ Hinv) as HD.
  unfold flag_inv in HE, HD. cbn [namespace seen_actions] in HE, HD.
  change (dest (stoq_action "-E")) with "error_queue" in HE.
  change (const (stoq_action "-E")) with True_ in HE.
  change (default (stoq_action "-E")) with False_ in HE.
  change (stoq_action "-E") with (stoq_action "--errors") in HE.
  change (dest (stoq_action "-D")) with "dispatch" in HD.
  change (const (stoq_action "-D")) with True_ in HD.
  change (default (stoq_action "-D")) with False_ in HD.
  change (stoq_action "-D") with (stoq_action "--dispatch") in HD.
  assert (HE' : ns !! "error_queue"
                = Some (VBool (bool_decide (stoq_action "--errors" ∈ seen)))).
  { rewrite HE. repeat case_bool_decide; done. }
  assert (HD' : ns !! "dispatch"
                = Some (VBool (bool_decide (stoq_action "--dispatch" ∈ seen)))).
  { rewrite HD. repeat case_bool_decide; done. }
  split; [exact HE' | ]. split; [exact HD' | ].
  split; [ | split; [ | split; [ | split]]].
  - intros Hin. rewrite HE', bool_decide_eq_true_2; [reflexivity | ].
    destruct Hin as [Hin | Hin];
      eapply (stoq_option_seen _ _ _ _ _ H Hin); reflexivity.
  - intros Hin. rewrite HD', bool_decide_eq_true_2; [reflexivity | ].
    destruct Hin as [Hin | Hin];
      eapply (stoq_option_seen _ _ _ _ _ H Hin); reflexivity.
  - intros Hno. rewrite HE', bool_decide_eq_false_2; [reflexivity | ].
    apply (stoq_unmentioned "E" "e" "rrors" args ns seen);
      [discriminate | vm_compute; reflexivity | exact H | exact Hno].
  - intros Hno. rewrite HD', bool_decide_eq_false_2; [reflexivity | ].
    apply (stoq_unmentioned "D" "d" "ispatch" args ns seen);
      [discriminate | vm_compute; reflexivity | exact H | exact Hno].
  - intros ->. rewrite parse_args_nil in H by apply stoq_finish.
    assert (Hseen : seen = []) by (clear -H; congruence).
    rewrite HE', HD', Hseen. split; reflexivity.
Qed.

(** ** The parser object *)

(** C1. [StoqArgs] defines the fifteen options of the configuration
    surface and nothing else: on a fresh [ArgumentParser()] it returns and
    leaves the help action followed by the fifteen destinations; whenever
    it returns, on any parser, the parser has gained exactly these fifteen
    destinations, in this order; and the namespace of every returning parse
    has exactly these fifteen attributes. *)
Theorem StoqArgs_defines_fifteen_options :
  (stoq_program ∅ = (Ok 1%positive, {[ 1%positive := stoq_parser ]})
   ∧ map dest (_actions stoq_parser)
     = ["help"; "log_level"; "template"; "max_processes"; "max_recursion";
        "output_connector"; "archive_connector"; "combined_results"; "path";
        "outfile"; "source_plugin"; "error_queue"; "dispatch"; "default_tlp";
        "ingest_metadata"; "ratelimit"])
  ∧ (∀ parser h r h',
       StoqArgs parser h = (Ok r, h') →
       ∃ P P', h !! parser = Some P ∧ h' !! r = Some P'
               ∧ map dest (_actions P')
                 = map dest (_actions P)
                   ++ ["log_level"; "template"; "max_processes";
                       "max_recursion"; "output_connector";
                       "archive_connector"; "combined_results"; "path";
                       "outfile"; "source_plugin"; "error_queue"; "dispatch";
                       "default_tlp"; "ingest_metadata"; "ratelimit"])
  ∧ (∀ args ns,
       parse_args stoq_parser args = Ok ns →
       ∀ k, is_Some (ns !! k)
            ↔ k ∈ ["log_level"; "template"; "max_processes"; "max_recursion";
                   "output_connector"; "archive_connector";
                   "combined_results"; "path"; "outfile"; "source_plugin";
                   "error_queue"; "dispatch"; "default_tlp";
                   "ingest_metadata"; "ratelimit"]).
Proof.
  split; [split; [exact stoq_program_runs | reflexivity] | ]. split.
  - intros parser h r h' H.
    apply StoqArgs_effect in H as [-> (P & P' & HP & -> & Hd)].
    exists P, P'. split; [exact HP | ]. split; [apply lookup_insert_eq | ].
    exact Hd.
  - intros args ns H. apply parse_args_seen_iff in H as [seen H].
    exact (inv_dests _ (stoq_parse_inv _ _ _ H)).
Qed.

(** C10. [StoqArgs] returns the object it was given, changed in place:
    the reference returned is the argument, no object is created and no
    other object changes.  Parsing the empty argument list on the resulting
    parser gives [True] for [combined_results] and [False] for every other
    destination. *)
Theorem StoqArgs_returns_its_parser :
  (∀ parser h r h',
     StoqArgs parser h = (Ok r, h') →
     r = parser ∧ dom h' = dom h ∧ ∀ q, q ≠ parser → h' !! q = h !! q)
  ∧ ∃ ns, parse_args stoq_parser [] = Ok ns
          ∧ ns !! "combined_results" = Some True_
          ∧ (∀ d, d ∈ stoq_dests → d ≠ "combined_results" →
                  ns !! d = Some False_)
          ∧ (∀ k, is_Some (ns !! k) → k ∈ stoq_dests).
Proof.
  split.
  - intros parser h r h' H.
    apply StoqArgs_effect in H as [-> (P & P' & HP & -> & Hd)].
    split; [reflexivity | ]. split.
    + rewrite dom_insert_L. apply subseteq_union_1_L, singleton_subseteq_l.
      eapply elem_of_dom_2, HP.
    + intros q Hq. by apply lookup_insert_ne.
  - exists (action_defaults stoq_parser). split; [ | split; [ | split]].
    + unfold parse_args. rewrite parse_args_nil by apply stoq_finish.
      reflexivity.
    + vm_compute. reflexivity.
    + intros d Hd Hne.
      assert (Hall : Forall (λ d, d ≠ "combined_results" →
                                  action_defaults stoq_parser !! d
                                  = Some False_) stoq_dests).
      { refine (bool_decide_unpack _ _). vm_compute. exact I. }
      rewrite Forall_forall in Hall. by apply Hall.
    + intros k Hk. apply (inv_dests _ stoq_inv_initial). exact Hk.
Qed.

(** * Further properties of the parser of [StoqArgs] *)

(** ** One option and its values *)

(** A string that the first loop of [_parse_known_args] reads as an
    argument. *)
Definition reads_as_argument (P : ArgumentParser) (v : string) : Prop :=
  v ≠ "--" ∧ _parse_optional P v = Ok None.

Lemma pattern_arguments P vs :
  Forall (reads_as_argument P) vs →
  arg_strings_pattern P vs = Ok (replicate (length vs) cls_A).
Proof.
  induction 1 as [ | v vs [Hv Hp] _ IH]; [reflexivity | ].
  cbn [arg_strings_pattern length replicate].
  destruct (String.eqb_spec v "--") as [ | _]; [contradiction | ].
  rewrite Hp, IH. reflexivity.
Qed.

Lemma consume_skip_all P vs :
  ∀ pattern skip st,
    (length vs ≤ skip)%nat → consume P vs pattern skip st = Ok st.
Proof.
  induction vs as [ | v vs IH]; intros pattern skip st Hskip;
    [reflexivity | ].
  cbn [consume]. destruct pattern as [ | c pattern]; [reflexivity | ].
  destruct skip as [ | skip]; [simpl in Hskip; lia | ].
  apply IH. simpl in Hskip. lia.
Qed.

(** What [parse_args] makes of an outcome of the loop. *)
Definition parse_outcome (r : result ParseState)
  : result (Namespace * list Action) :=
  match r with
  | Ok st =>
      match extras st with
      | [] => Ok (namespace st, seen_actions st)
      | argv => error (unrecognized_arguments argv)
      end
  | Raise (ArgumentError _ msg) => error msg
  | Raise e => Raise e
  end.

(** An option string followed by argument strings that its arity takes
    all: the parse is one [take_action] on the defaults. *)
Lemma option_with_values P o action vs :
  (∀ seen ns, finish (_actions P) seen ns [] = Ok (ns, [])) →
  o ≠ "--" →
  _parse_optional P o = Ok (Some (Some action, o, None)) →
  Forall (reads_as_argument P) vs →
  _match_argument action (replicate (length vs) cls_A) = Ok (length vs) →
  parse_args_seen P (o :: vs)
  = parse_outcome
      (take_action {| namespace := action_defaults P; seen_actions := [];
                      extras := [] |} action vs).
Proof.
  intros Hfin Ho Hopt Hvs Hmatch.
  unfold parse_args_seen, parse_known_args, _parse_known_args.
  generalize (action_defaults P). intros ns0.
  cbn [arg_strings_pattern].
  destruct (String.eqb_spec o "--") as [ | _]; [contradiction | ].
  rewrite Hopt, (pattern_arguments P vs Hvs). cbn [rbind consume].
  unfold consume_optional, match_following. rewrite Hmatch. cbn [rbind].
  rewrite firstn_all. cbn [app take_actions].
  destruct (take_action _ action vs) as [st | e] eqn:Htake; cbn [rbind].
  - rewrite consume_skip_all by reflexivity. cbn [rbind].
    rewrite Hfin. cbn [rbind].
    apply take_action_seen in Htake as [_ Hex]. cbn [extras] in Hex.
    unfold parse_outcome. destruct st as [ns seen ex]. cbn [extras] in *.
    subst ex. reflexivity.
  - unfold parse_outcome. by destruct e.
Qed.

Lemma plain_reads_as_argument P v :
  prefix_chars P = "-" → startswith v "-" = false → reads_as_argument P v.
Proof.
  intros Hpc Hv. split.
  - intros ->. discriminate.
  - unfold _parse_optional. destruct v as [ | c rest]; [reflexivity | ].
    rewrite Hpc.
    change (startswith (String c rest) "-")
      with (Ascii.eqb "-" c && startswith rest "") in Hv.
    rewrite andb_true_r in Hv. simpl. rewrite Ascii.eqb_sym, Hv.
    reflexivity.
Qed.

(** The strings that the regular expression can match: a dash and then a
    digit, a dot or a character outside ASCII. *)
Definition number_like (s : string) : bool :=
  match s with
  | String "-" (String c _) =>
      is_digit c || Ascii.eqb c "." || (128 <=? nat_of_ascii c)%nat
  | _ => false
  end.

Lemma number_like_inv s :
  number_like s = true →
  ∃ c rest, s = String "-" (String c rest)
            ∧ is_digit c || Ascii.eqb c "." || (128 <=? nat_of_ascii c)%nat
              = true.
Proof.
  unfold number_like. destruct s as [ | c0 [ | c rest]].
  - discriminate.
  - destruct c0 as [[] [] [] [] [] [] [] []]; discriminate.
  - destruct c0 as [[] [] [] [] [] [] [] []]; try discriminate. eauto.
Qed.

Lemma number_like_intro c rest :
  is_digit c || Ascii.eqb c "." || (128 <=? nat_of_ascii c)%nat = true →
  number_like (String "-" (String c rest)) = true.
Proof. intros H. exact H. Qed.

Lemma negative_number_like s : negative_number s = true → number_like s = true.
Proof.
  unfold negative_number, number_like.
  destruct s as [ | c0 [ | c rest]]; [discriminate | | ];
    destruct c0 as [[] [] [] [] [] [] [] []]; try discriminate.
  by destruct (_ || _).
Qed.

Lemma number_like_startswith o s :
  number_like s = true → startswith o s = true → number_like o = true.
Proof.
  intros Hs Hstart. apply number_like_inv in Hs as (c & rest & -> & Hc).
  destruct o as [ | d0 [ | d o']]; [discriminate | | ].
  - change (startswith (String d0 "") (String "-" (String c rest)))
      with (Ascii.eqb "-" d0 && false) in Hstart.
    by rewrite andb_false_r in Hstart.
  - change (startswith (String d0 (String d o')) (String "-" (String c rest)))
      with (Ascii.eqb "-" d0 && (Ascii.eqb c d && startswith o' rest))
      in Hstart.
    apply andb_true_iff in Hstart as [H0 H].
    apply andb_true_iff in H as [H1 _].
    apply Ascii.eqb_eq in H0 as <-. apply Ascii.eqb_eq in H1 as <-.
    by apply number_like_intro.
Qed.

Lemma number_like_split s o e :
  number_like s = true → split_once "=" s = Some (o, e) →
  number_like o = true.
Proof.
  intros Hs Hsplit. apply number_like_inv in Hs as (c & rest & -> & Hc).
  simpl in Hsplit.
  destruct (Ascii.eqb_spec c "=") as [-> | _]; [discriminate | ].
  destruct (split_once "=" rest) as [[a b] | ]; [ | discriminate].
  injection Hsplit as <- _. by apply number_like_intro.
Qed.

Lemma omap_nil {A B} (f : A → option B) (l : list A) :
  (∀ x, x ∈ l → f x = None) → omap f l = [].
Proof.
  induction l as [ | x l IH]; intros H; [reflexivity | ].
  cbn [omap list_omap]. rewrite (H x) by apply list_elem_of_here.
  apply IH. intros y Hy. apply H. by apply list_elem_of_further.
Qed.

(** No option string of the parser looks like a number, so a string that
    the negative-number expression matches is read as an argument. *)
Lemma stoq_keys_not_number_like o action :
  (o, action) ∈ _option_string_actions stoq_parser → number_like o = false.
Proof.
  intros Ho.
  assert (Hall : Forall (λ oa, number_like (fst oa) = false)
                        (_option_string_actions stoq_parser)).
  { refine (bool_decide_unpack _ _). vm_compute. exact I. }
  rewrite Forall_forall in Hall. exact (Hall _ Ho).
Qed.

Lemma negative_number_reads_as_argument v :
  negative_number v = true → reads_as_argument stoq_parser v.
Proof.
  intros Hneg. pose proof (negative_number_like v Hneg) as Hlike.
  split; [intros ->; discriminate | ].
  assert (Hget : ∀ o, number_like o = true →
                      dict_get o (_option_string_actions stoq_parser) = None).
  { intros o Ho.
    destruct (dict_get o _) as [a | ] eqn:Hg; [ | reflexivity].
    apply dict_get_elem, stoq_keys_not_number_like in Hg. congruence. }
  assert (Hsplit :
            match split_once "=" v with
            | Some (option_string, explicit_arg) =>
                match dict_get option_string
                               (_option_string_actions stoq_parser) with
                | Some action => Some (Some action, option_string,
                                       Some explicit_arg)
                | None => None
                end
            | None => None
            end = None).
  { destruct (split_once "=" v) as [[o e] | ] eqn:Hs; [ | reflexivity].
    by rewrite (Hget o (number_like_split _ _ _ Hlike Hs)). }
  assert (Htuples : _get_option_tuples stoq_parser v = Ok []).
  { destruct (number_like_inv v Hlike) as (c & rest & Hv & Hc).
    unfold _get_option_tuples. change (prefix_chars stoq_parser) with "-".
    rewrite Hv.
    assert (Hcd : char_in c "-" = false).
    { cbn [char_in]. rewrite orb_false_r.
      destruct (Ascii.eqb_spec c "-") as [-> | ]; [discriminate | done]. }
    rewrite Hcd. cbn [char_in andb negb orb]. rewrite Ascii.eqb_refl.
    cbn [andb orb]. f_equal. apply omap_nil. intros [o a] Hin.
    pose proof (stoq_keys_not_number_like _ _ Hin) as Hkey.
    destruct (String.eqb_spec o (String "-" (String c ""))) as [-> | _].
    { rewrite (number_like_intro c "" Hc) in Hkey. discriminate. }
    destruct (startswith o (String "-" (String c rest))) eqn:Hstart;
      [ | reflexivity].
    rewrite <- Hv in Hstart.
    rewrite (number_like_startswith _ _ Hlike Hstart) in Hkey. discriminate. }
  destruct (number_like_inv v Hlike) as (c & rest & Hv & Hc).
  unfold _parse_optional. rewrite Hv at 1.
  change (prefix_chars stoq_parser) with "-".
  cbn [char_in]. rewrite Ascii.eqb_refl. cbn [orb negb].
  rewrite (Hget v Hlike).
  change (String.eqb (String c rest) "") with false. cbv iota.
  rewrite Hsplit, Htuples. cbn [rbind].
  rewrite Hneg. reflexivity.
Qed.

Lemma stoq_reads_as_argument v :
  startswith v "-" = false ∨ negative_number v = true →
  reads_as_argument stoq_parser v.
Proof.
  intros [Hv | Hv].
  - by apply plain_reads_as_argument.
  - by apply negative_number_reads_as_argument.
Qed.

(** [take_action] of a store action without choices on one string. *)
Lemma take_action_store st action v :
  action_class action = _StoreAction → nargs action = nargs_None →
  choices action = None → v ≠ "--" →
  take_action st action [v]
  = (let* x := _get_value action v in
     Ok {| namespace := <[dest action := x]> (namespace st);
           seen_actions := seen_actions st ++ [action];
           extras := extras st |}).
Proof.
  intros Hcls Hn Hch Hv. unfold take_action, _get_values.
  cbn [remove_dashdash].
  destruct (String.eqb_spec v "--") as [ | _]; [contradiction | ].
  rewrite Hn. destruct (_get_value action v) as [x | e] eqn:Hx; cbn [rbind];
    [ | reflexivity].
  unfold _check_value. rewrite Hch. cbn [rbind].
  destruct (decide (x = SUPPRESS)) as [-> | _].
  { by apply _get_value_not_SUPPRESS in Hx. }
  unfold call_action. rewrite Hcls. reflexivity.
Qed.

Lemma convert_all_strings action vs :
  type_ action = VNone → convert_all action vs = Ok (map VStr vs).
Proof.
  intros Hty. induction vs as [ | v vs IH]; [reflexivity | ].
  cbn [convert_all map]. unfold _get_value at 1. rewrite Hty. cbn [rbind].
  by rewrite IH.
Qed.

Lemma check_all_no_choices action values :
  choices action = None → check_all action values = Ok tt.
Proof.
  intros Hch. induction values as [ | v values IH]; [reflexivity | ].
  cbn [check_all]. unfold _check_value. rewrite Hch. exact IH.
Qed.

Lemma remove_dashdash_id vs : "--" ∉ vs → remove_dashdash vs = vs.
Proof.
  induction vs as [ | v vs IH]; intros H; [reflexivity | ].
  cbn [remove_dashdash]. destruct (String.eqb_spec v "--") as [-> | _].
  - destruct H. apply list_elem_of_here.
  - f_equal. apply IH. intros Hin. apply H. by apply list_elem_of_further.
Qed.

(** [take_action] of an untyped [nargs='*'] store on its strings. *)
Lemma take_action_list st action vs :
  action_class action = _StoreAction → nargs action = ZERO_OR_MORE →
  type_ action = VNone → choices action = None → "--" ∉ vs →
  take_action st action vs
  = Ok {| namespace := <[dest action := VList (map VStr vs)]> (namespace st);
          seen_actions := seen_actions st ++ [action];
          extras := extras st |}.
Proof.
  intros Hcls Hn Hty Hch Hvs. unfold take_action, _get_values.
  rewrite (remove_dashdash_id vs Hvs), Hn.
  assert (Hlist : (let* value := convert_all action vs in
                   let* _ := check_all action value in
                   Ok (VList value)) = Ok (VList (map VStr vs))).
  { rewrite (convert_all_strings _ _ Hty). cbn [rbind].
    by rewrite (check_all_no_choices _ _ Hch). }
  assert (Hvalues :
            match vs, ZERO_OR_MORE with
            | [], OPTIONAL =>
                match const action with
                | VStr s0 =>
                    let* value := _get_value action s0 in
                    let* _ := _check_value action value in
                    Ok value
                | value => Ok value
                end
            | [arg_string], (nargs_None | OPTIONAL) =>
                let* value := _get_value action arg_string in
                let* _ := _check_value action value in
                Ok value
            | _, _ =>
                let* value := convert_all action vs in
                let* _ := check_all action value in
                Ok (VList value)
            end = Ok (VList (map VStr vs))).
  { destruct vs as [ | v [ | v' vs']]; exact Hlist. }
  rewrite Hvalues. cbn [rbind].
  destruct (decide (VList (map VStr vs) = SUPPRESS)); [discriminate | ].
  unfold call_action. rewrite Hcls. reflexivity.
Qed.

(** ** The value options *)

(** X1. The two integer options: whatever argument string follows [-M],
    [--max-processes], [-R] or [--max_recursion], the parse stores [int] of
    it under the option's destination and leaves every other destination at
    its default, or is a usage error that reports the invalid int value
    when [int] rejects the string.  A string that does not start with a
    dash, and a negative number, are argument strings. *)
Theorem integer_options (o v : string) :
  o ∈ ["-M"; "--max-processes"; "-R"; "--max_recursion"] →
  startswith v "-" = false ∨ negative_number v = true →
  parse_args stoq_parser [o; v]
  = match int_call v with
    | Some z =>
        Ok (<[(if bool_decide (o ∈ ["-M"; "--max-processes"])
               then "max_processes" else "max_recursion") := VInt z]>
              (action_defaults stoq_parser))
    | None => error (invalid_type_value "int" v)
    end.
Proof.
  intros Ho Hv. apply stoq_reads_as_argument in Hv.
  unfold parse_args.
  repeat (apply elem_of_cons in Ho as [-> | Ho]);
    [ .. | by apply elem_of_nil in Ho];
    (erewrite option_with_values;
     [ | apply stoq_finish | discriminate | reflexivity
       | exact (Forall_cons_2 _ _ _ Hv (Forall_nil_2 _)) | reflexivity ]);
    (rewrite take_action_store;
     [ | reflexivity | reflexivity | reflexivity | apply Hv ]);
    unfold _get_value;
    change (type_ (stoq_action _)) with (VBuiltin int);
    destruct (int_call v) as [z | ]; reflexivity.
Qed.

(** X2. The seven free-text options ([-T], [-C], [-A], [-F], [-O], [-I],
    [--rate-limit] and their long or short forms) store the argument string
    that follows unchanged, with neither conversion nor check, and leave
    every other destination at its default. *)
Theorem text_options (o d v : string) :
  (o, d) ∈ [("-T", "template"); ("--template", "template");
            ("-C", "output_connector"); ("--connector", "output_connector");
            ("-A", "archive_connector"); ("--archive", "archive_connector");
            ("-F", "path"); ("--file", "path");
            ("-O", "outfile"); ("--outfile", "outfile");
            ("-I", "source_plugin"); ("--ingest", "source_plugin");
            ("--rate-limit", "ratelimit")] →
  startswith v "-" = false ∨ negative_number v = true →
  parse_args stoq_parser [o; v]
  = Ok (<[d := VStr v]> (action_defaults stoq_parser)).
Proof.
  intros Ho Hv. apply stoq_reads_as_argument in Hv.
  unfold parse_args.
  repeat (apply elem_of_cons in Ho as [[= -> ->] | Ho]);
    [ .. | by apply elem_of_nil in Ho];
    (erewrite option_with_values;
     [ | apply stoq_finish | discriminate | reflexivity
       | exact (Forall_cons_2 _ _ _ Hv (Forall_nil_2 _)) | reflexivity ]);
    (rewrite take_action_store;
     [ | reflexivity | reflexivity | reflexivity | apply Hv ]);
    reflexivity.
Qed.

(** X3. [--metadata] takes every argument string that follows, in order,
    as a list; with none it stores the empty list, not the default
    [False].  The strings are not inspected. *)
Theorem metadata_collects_arguments (vs : list string) :
  Forall (λ v, startswith v "-" = false ∨ negative_number v = true) vs →
  parse_args stoq_parser ("--metadata" :: vs)
  = Ok (<["ingest_metadata" := VList (map VStr vs)]>
          (action_defaults stoq_parser)).
Proof.
  intros Hvs.
  assert (Hargs : Forall (reads_as_argument stoq_parser) vs).
  { eapply Forall_impl; [exact Hvs | ]. apply stoq_reads_as_argument. }
  unfold parse_args.
  erewrite option_with_values;
    [ | apply stoq_finish | discriminate | reflexivity | exact Hargs | ].
  - rewrite take_action_list; try reflexivity.
    intros Hin. rewrite Forall_forall in Hargs.
    by destruct (Hargs _ Hin) as [Hne _].
  - unfold _match_argument.
    change (nargs (stoq_action "--metadata")) with ZERO_OR_MORE.
    f_equal. clear. induction vs as [ | v vs IH]; [reflexivity | ].
    cbn [length replicate leading_A]. by rewrite IH.
Qed.

(** ** What the parser refuses *)

(** X4. The parser has no positional argument and passes nothing on: an
    argument list that starts with a string without a leading dash, or that
    contains ['--'] anywhere, is never accepted. *)
Theorem no_positional_arguments (args : list string) (ns : Namespace) :
  "--" ∈ args ∨ (∃ v, head args = Some v ∧ startswith v "-" = false) →
  parse_args stoq_parser args ≠ Ok ns.
Proof.
  intros Hargs H. apply parse_args_seen_iff in H as [seen H].
  destruct Hargs as [Hd | (v & Hhead & Hv)].
  - apply parse_args_seen_inv in H as (pattern & Hpat & Hrun);
      [ | apply stoq_finish].
    pose proof (arg_strings_pattern_registered _ _ _ Hpat) as Hreg.
    pose proof (arg_strings_pattern_length _ _ _ Hpat) as Hlen.
    pose proof (consume_visits _ _ _ _ _ _ Hlen Hreg (Nat.le_0_l _) Hrun)
      as [Hdash _].
    apply Hdash; [eapply pattern_dash; eauto | reflexivity].
  - assert (Hargs : ∃ rest, args = v :: rest).
    { clear -Hhead. destruct args as [ | v' rest]; [discriminate | ].
      injection Hhead as ->. eauto. }
    destruct Hargs as [rest ->]. clear Hhead.
    apply parse_args_seen_inv in H as (pattern & Hpat & Hrun);
      [ | apply stoq_finish].
    destruct (plain_reads_as_argument stoq_parser v eq_refl Hv) as [Hne Hp].
    cbn [arg_strings_pattern] in Hpat.
    destruct (String.eqb_spec v "--") as [ | _]; [contradiction | ].
    rewrite Hp in Hpat. cbn [rbind] in Hpat.
    destruct (arg_strings_pattern stoq_parser rest) as [parts | e] eqn:Hparts;
      [ | discriminate].
    cbn [rbind] in Hpat. apply Ok_inj in Hpat. subst pattern.
    cbn [consume] in Hrun.
    eapply consume_extras_mono in Hrun.
    + by apply Hrun.
    + eapply arg_strings_pattern_registered, Hparts.
    + discriminate.
Qed.

Lemma key_parse P s action :
  prefix_chars P = "-" → startswith s "-" = true →
  dict_get s (_option_string_actions P) = Some action →
  _parse_optional P s = Ok (Some (Some action, s, None)).
Proof.
  intros Hpc Hs Hget. apply startswith_dash in Hs as [rest ->].
  unfold _parse_optional. rewrite Hpc, Hget. reflexivity.
Qed.

Lemma dict_get_is_Some {V} (d : list (string * V)) k :
  k ∈ d.*1 → is_Some (dict_get k d).
Proof.
  induction d as [ | [k' v'] d IH]; intros Hin.
  { by apply elem_of_nil in Hin. }
  cbn [dict_get]. destruct (String.eqb_spec k k') as [ | Hne]; [by eexists | ].
  apply IH. cbn [fmap list_fmap fst] in Hin.
  apply elem_of_cons in Hin as [ | Hin]; [contradiction | exact Hin].
Qed.

Lemma stoq_key_parse s :
  s ∈ (_option_string_actions stoq_parser).*1 →
  s ≠ "--"
  ∧ _parse_optional stoq_parser s = Ok (Some (Some (stoq_action s), s, None)).
Proof.
  intros Hin. apply dict_get_is_Some in Hin as [action Hget].
  assert (Hall : Forall (λ oa, startswith (fst oa) "-" = true)
                        (_option_string_actions stoq_parser)).
  { refine (bool_decide_unpack _ _). vm_compute. exact I. }
  rewrite Forall_forall in Hall.
  pose proof (Hall _ (dict_get_elem _ _ _ Hget)) as Hs. cbn [fst] in Hs.
  split.
  - intros ->. vm_compute in Hget. discriminate.
  - unfold stoq_action. rewrite Hget. by apply key_parse.
Qed.

(** Option strings only: the pattern has no leading ['A']. *)
Lemma pattern_options P rest :
  Forall (λ s, s ≠ "--" ∧ ∃ t, _parse_optional P s = Ok (Some t)) rest →
  ∃ pattern, arg_strings_pattern P rest = Ok pattern ∧ leading_A pattern = 0.
Proof.
  intros Hrest.
  assert (Hpat : ∃ pattern, arg_strings_pattern P rest = Ok pattern
                            ∧ Forall (λ c, c ≠ cls_A) pattern).
  { induction Hrest as [ | s rest [Hs [t Ht]] _ (pattern & IH & Hall)].
    - exists []. split; [reflexivity | constructor].
    - exists (cls_O t :: pattern). cbn [arg_strings_pattern].
      destruct (String.eqb_spec s "--") as [ | _]; [contradiction | ].
      rewrite Ht, IH. split; [reflexivity | ].
      constructor; [discriminate | exact Hall]. }
  destruct Hpat as (pattern & Hpat & Hall). exists pattern.
  split; [exact Hpat | ].
  destruct Hall as [ | c pattern' Hc _]; [reflexivity | ].
  by destruct c.
Qed.

(** An option of arity one with no argument string after it. *)
Lemma option_without_value P o action rest pattern :
  o ≠ "--" →
  _parse_optional P o = Ok (Some (Some action, o, None)) →
  arg_strings_pattern P rest = Ok pattern → leading_A pattern = 0 →
  nargs action = nargs_None →
  parse_args_seen P (o :: rest) = error expected_one_argument.
Proof.
  intros Ho Hopt Hpat Hlead Hn.
  unfold parse_args_seen, parse_known_args, _parse_known_args.
  generalize (action_defaults P). intros ns0.
  cbn [arg_strings_pattern].
  destruct (String.eqb_spec o "--") as [ | _]; [contradiction | ].
  rewrite Hopt, Hpat. cbn [rbind consume].
  unfold consume_optional, match_following, _match_argument.
  rewrite Hn, Hlead. reflexivity.
Qed.

(** X5. An option that takes a value demands it: when nothing follows such
    an option string, or only further option strings of the parser do, the
    parse is the usage error that one argument was expected.  The option
    never takes the option string after it as its value. *)
Theorem value_option_needs_argument (o : string) (rest : list string) :
  o ∈ ["-L"; "--loglevel"; "-T"; "--template"; "-M"; "--max-processes";
       "-R"; "--max_recursion"; "-C"; "--connector"; "-A"; "--archive";
       "-F"; "--file"; "-O"; "--outfile"; "-I"; "--ingest"; "--tlp";
       "--rate-limit"] →
  Forall (λ s, s ∈ (_option_string_actions stoq_parser).*1) rest →
  parse_args stoq_parser (o :: rest) = error expected_one_argument.
Proof.
  intros Ho Hrest.
  destruct (pattern_options stoq_parser rest) as (pattern & Hpat & Hlead).
  { eapply Forall_impl; [exact Hrest | ]. intros s Hs.
    apply stoq_key_parse in Hs as [Hne Hp]. eauto. }
  unfold parse_args.
  repeat (apply elem_of_cons in Ho as [-> | Ho]);
    [ .. | by apply elem_of_nil in Ho];
    (erewrite option_without_value;
     [ reflexivity | discriminate | reflexivity | exact Hpat | exact Hlead
     | reflexivity ]).
Qed.

(** ** A value attached to the option string *)

(** An option of arity one with an explicit argument ([--opt=value]): the
    parse is one [take_action] on that argument. *)
Lemma option_with_explicit P s o action e :
  (∀ seen ns, finish (_actions P) seen ns [] = Ok (ns, [])) →
  s ≠ "--" →
  _parse_optional P s = Ok (Some (Some action, o, Some e)) →
  (2 ≤ String.length o)%nat →
  nargs action = nargs_None →
  parse_args_seen P [s]
  = parse_outcome
      (take_action {| namespace := action_defaults P; seen_actions := [];
                      extras := [] |} action [e]).
Proof.
  intros Hfin Hs Hopt Ho Hn.
  unfold parse_args_seen, parse_known_args, _parse_known_args.
  generalize (action_defaults P). intros ns0.
  cbn [arg_strings_pattern].
  destruct (String.eqb_spec s "--") as [ | _]; [contradiction | ].
  rewrite Hopt. cbn [rbind consume]. unfold consume_optional.
  assert (Hmatch : match_explicit P action o e [] [] []
                   = Ok ([(action, [e], o)], 0)).
  { destruct o as [ | c0 [ | c1 o']]; [simpl in Ho; lia .. | ].
    destruct e as [ | e0 e']; cbn [match_explicit]; unfold _match_argument;
      rewrite Hn; reflexivity. }
  rewrite Hmatch. cbn [rbind take_actions].
  destruct (take_action _ action [e]) as [st | err] eqn:Htake; cbn [rbind].
  - cbn [consume]. cbn [rbind]. rewrite Hfin. cbn [rbind].
    apply take_action_seen in Htake as [_ Hex]. cbn [extras] in Hex.
    unfold parse_outcome. destruct st as [ns seen ex]. cbn [extras] in *.
    subst ex. reflexivity.
  - unfold parse_outcome. by destruct err.
Qed.

(** The argument ['--'] is removed before the conversion, so the action
    stores what is left of its strings: the empty list. *)
Lemma take_action_dashdash st action :
  action_class action = _StoreAction → nargs action = nargs_None →
  take_action st action ["--"]
  = Ok {| namespace := <[dest action := VList []]> (namespace st);
          seen_actions := seen_actions st ++ [action];
          extras := extras st |}.
Proof.
  intros Hcls Hn. unfold take_action, _get_values.
  cbn [remove_dashdash String.eqb Ascii.eqb Bool.eqb]. rewrite Hn.
  cbn [convert_all check_all rbind].
  destruct (decide (VList [] = SUPPRESS)); [discriminate | ].
  unfold call_action. rewrite Hcls. reflexivity.
Qed.

(** X6. A value may be attached to a free-text option with an equals sign,
    behind the short form as well as the long one.  The text after the
    sign is stored unchanged whatever it is, a leading dash included; the
    one exception is the text ['--'], for which the destination holds the
    empty list. *)
Theorem text_options_explicit (o d e : string) :
  (o, d) ∈ [("-T", "template"); ("--template", "template");
            ("-C", "output_connector"); ("--connector", "output_connector");
            ("-A", "archive_connector"); ("--archive", "archive_connector");
            ("-F", "path"); ("--file", "path");
            ("-O", "outfile"); ("--outfile", "outfile");
            ("-I", "source_plugin"); ("--ingest", "source_plugin");
            ("--rate-limit", "ratelimit")] →
  parse_args stoq_parser [o +:+ "=" +:+ e]
  = Ok (<[d := if String.eqb e "--" then VList [] else VStr e]>
          (action_defaults stoq_parser)).
Proof.
  intros Ho. unfold parse_args.
  repeat (apply elem_of_cons in Ho as [[= -> ->] | Ho]);
    [ .. | by apply elem_of_nil in Ho];
    (erewrite option_with_explicit;
     [ | apply stoq_finish | discriminate | vm_compute; reflexivity
       | cbn; lia | reflexivity ]);
    (destruct (String.eqb_spec e "--") as [-> | Hne];
     [ rewrite take_action_dashdash by reflexivity
     | rewrite take_action_store by (reflexivity || exact Hne) ]);
    reflexivity.
Qed.

(** ** Options that are not given *)

Lemma take_action_namespace st action args st' :
  take_action st action args = Ok st' →
  namespace st' = namespace st
  ∨ ∃ v, namespace st' = <[dest action := v]> (namespace st).
Proof.
  unfold take_action. intros H. inv_bind H.
  destruct (decide (x = SUPPRESS)); [injection H as <-; by left | ].
  inv_bind H. injection H as <-. right. cbn [namespace].
  unfold call_action in E0.
  destruct (action_class action); try discriminate;
    injection E0 as <-; eauto.
Qed.

Section Untouched.

(** An action whose destination no other registered action shares: as
    long as it is not taken, the loop leaves its destination alone. *)
Variable P : ArgumentParser.
Variable a : Action.
Hypothesis dest_own : ∀ b, registered P b → dest b = dest a → b = a.

Lemma untaken_untouched args pattern skip st st' :
  Forall (class_registered P) pattern →
  consume P args pattern skip st = Ok st' →
  a ∉ seen_actions st' →
  namespace st' !! dest a = namespace st !! dest a.
Proof.
  intros Hreg Hrun.
  apply (consume_preserves P
           (λ st1, a ∉ seen_actions st1 →
                   namespace st1 !! dest a = namespace st !! dest a))
    with args pattern skip st; [ | | exact Hreg | | exact Hrun].
  - intros st1 s H1. exact H1.
  - intros st1 st2 b l Hb H1 Htake Hseen.
    pose proof (take_action_seen _ _ _ _ Htake) as [Hs _].
    rewrite Hs in Hseen.
    assert (Hne : dest b ≠ dest a).
    { intros Heq. apply Hseen, elem_of_app. right.
      rewrite (dest_own b Hb Heq). apply list_elem_of_here. }
    assert (H1' : a ∉ seen_actions st1).
    { intros Hin. apply Hseen, elem_of_app. by left. }
    destruct (take_action_namespace _ _ _ _ Htake) as [-> | [v ->]].
    + by apply H1.
    + rewrite lookup_insert_ne by exact Hne. by apply H1.
  - reflexivity.
Qed.

(** On a returning parse, the destination of such an action still holds
    what the defaults gave it. *)
Lemma untaken_default args ns seen :
  (∀ seen ns, finish (_actions P) seen ns [] = Ok (ns, [])) →
  parse_args_seen P args = Ok (ns, seen) →
  a ∉ seen →
  ns !! dest a = action_defaults P !! dest a.
Proof.
  intros Hfin H Hseen.
  apply parse_args_seen_inv in H as (pattern & Hpat & Hrun); [ | exact Hfin].
  revert Hrun. generalize (action_defaults P). intros ns0 Hrun.
  apply untaken_untouched in Hrun.
  - exact Hrun.
  - eapply arg_strings_pattern_registered, Hpat.
  - exact Hseen.
Qed.

End Untouched.

Lemma NoDup_map_inj {A B} (f : A → B) (l : list A) x y :
  NoDup (map f l) → x ∈ l → y ∈ l → f x = f y → x = y.
Proof.
  induction l as [ | z l IH]; intros Hnd Hx Hy Hf.
  { by apply elem_of_nil in Hx. }
  cbn [map] in Hnd. apply NoDup_cons in Hnd as [Hz Hnd].
  apply elem_of_cons in Hx as [-> | Hx]; apply elem_of_cons in Hy as [-> | Hy].
  - reflexivity.
  - destruct Hz. rewrite Hf. apply list_elem_of_fmap. eauto.
  - destruct Hz. rewrite <- Hf. apply list_elem_of_fmap. eauto.
  - by apply IH.
Qed.

(** The sixteen actions of the parser have sixteen destinations. *)
Lemma stoq_dest_own a b :
  registered stoq_parser a → registered stoq_parser b → dest b = dest a →
  b = a.
Proof.
  intros Ha Hb. apply stoq_registered in Ha, Hb.
  apply (NoDup_map_inj dest (_actions stoq_parser)); [ | exact Hb | exact Ha].
  refine (bool_decide_unpack _ _). vm_compute. exact I.
Qed.

(** On a returning parse, the destination of an action that was not taken
    holds what the defaults gave it. *)
Lemma stoq_untaken_default a args ns seen :
  registered stoq_parser a →
  parse_args_seen stoq_parser args = Ok (ns, seen) →
  a ∉ seen →
  ns !! dest a = action_defaults stoq_parser !! dest a.
Proof.
  intros Ha H Hseen.
  exact (untaken_default stoq_parser a (λ b Hb, stoq_dest_own a b Ha Hb)
           args ns seen stoq_finish H Hseen).
Qed.

Section LongMention.

(** An action whose only option string is the long [--l...], on a parser
    with the default prefix character and at least two long options: an
    argument string that has the action taken starts with [--l]. *)
Variable P : ArgumentParser.
Variable flag : Action.
Variable l : ascii.
Variable tail : string.
Hypothesis prefix_dash : prefix_chars P = "-".
Hypothesis flag_key :
  ∀ o, (o, flag) ∈ _option_string_actions P →
       o = String "-" (String "-" (String l tail)).
Hypothesis two_long :
  ∃ o1 a1 o2 a2,
    (o1, a1) ∈ _option_string_actions P ∧ (o2, a2) ∈ _option_string_actions P
    ∧ startswith o1 "--" = true ∧ startswith o2 "--" = true ∧ o1 ≠ o2.

Definition spells (s : string) : bool :=
  startswith s (String "-" (String "-" (String l ""))).

Lemma spells_long rest :
  spells (String "-" (String "-" (String l rest))) = true.
Proof.
  unfold spells.
  change (startswith (String "-" (String "-" (String l rest)))
                     (String "-" (String "-" (String l ""))))
    with (Ascii.eqb "-" "-" && (Ascii.eqb "-" "-" && (Ascii.eqb l l && true))).
  by rewrite !Ascii.eqb_refl.
Qed.

Lemma spells_key o rest :
  (o, flag) ∈ _option_string_actions P → spells (o +:+ rest) = true.
Proof. intros Ho. rewrite (flag_key o Ho). apply spells_long. Qed.

Lemma tuple_fires_spells s t :
  _parse_optional P s = Ok (Some t) → tuple_fires P t flag →
  spells s = true.
Proof.
  assert (Hkeys : ∀ o, (o, flag) ∈ _option_string_actions P →
                       o = String "-" (String "a" "")
                       ∨ o = String "-" (String "-" (String l tail))).
  { intros o Ho. right. by apply flag_key. }
  destruct t as [[[a0 | ] o] ea]; [ | contradiction].
  intros Hp [<- | (e & -> & c & char & Hc & Hget)].
  - apply _parse_optional_origin in Hp
      as [(-> & _ & Hget) | [(e & -> & Hs & Hget) | Htuples]].
    + apply dict_get_elem in Hget. rewrite <- (append_empty o).
      by apply spells_key.
    + apply dict_get_elem in Hget. apply split_once_eq in Hs as ->.
      by apply spells_key.
    + unfold _get_option_tuples in Htuples. rewrite prefix_dash in Htuples.
      destruct s as [ | c0 [ | c1 rest]]; try discriminate.
      destruct (char_in c0 "-") eqn:H0; [ | discriminate].
      apply char_in_dash in H0 as ->. cbn [andb] in Htuples.
      destruct (char_in c1 "-") eqn:H1; cbn [negb] in Htuples.
      * apply char_in_dash in H1 as ->.
        destruct (split_once "=" (String "-" (String "-" rest)))
          as [[pre e] | ] eqn:Hs; apply Ok_inj in Htuples; rename Htuples into Hl.
        -- pose proof (split_once_eq _ _ _ _ Hs) as Heq.
           assert (Hpre : startswith pre "--" = true).
           { clear -Hs. simpl in Hs.
             destruct (split_once "=" rest) as [[a b] | ]; [ | discriminate].
             by injection Hs as <- _. }
           apply (long_abbreviation P flag "a" l tail Hkeys two_long) in Hl
             as [r ->]; [ | exact Hpre].
           rewrite Heq. apply spells_long.
        -- apply (long_abbreviation P flag "a" l tail Hkeys two_long) in Hl
             as [r Hr]; [ | reflexivity].
           rewrite Hr. apply spells_long.
      * apply Ok_inj in Htuples. rename Htuples into Hl.
        assert (Hin : (Some flag, o, ea) ∈ [(Some flag, o, ea)])
          by apply list_elem_of_here.
        rewrite <- Hl in Hin.
        apply list_elem_of_omap in Hin as ([o' a'] & Ho' & Hf).
        destruct (String.eqb_spec o' (String "-" (String c1 ""))) as [-> | _].
        -- injection Hf as -> _. by pose proof (flag_key _ Ho') as [=].
        -- destruct (startswith o' (String "-" (String c1 rest))) eqn:Hstart;
             [ | discriminate].
           injection Hf as -> -> _. rewrite (flag_key _ Ho') in Hstart.
           change (startswith (String "-" (String "-" (String l tail)))
                              (String "-" (String c1 rest)))
             with (Ascii.eqb "-" "-"
                   && (Ascii.eqb c1 "-"
                       && startswith (String l tail) rest)) in Hstart.
           rewrite Ascii.eqb_refl in Hstart. cbn [andb] in Hstart.
           apply andb_true_iff in Hstart as [Hc _].
           apply Ascii.eqb_eq in Hc as ->. simpl in H1. discriminate.
  - apply dict_get_elem in Hget. by pose proof (flag_key _ Hget) as [=].
Qed.

Lemma unspelled_not_seen args ns seen :
  (∀ seen ns, finish (_actions P) seen ns [] = Ok (ns, [])) →
  parse_args_seen P args = Ok (ns, seen) →
  Forall (λ s, spells s = false) args →
  flag ∉ seen.
Proof.
  intros Hfin H Hno Hseen.
  destruct (seen_origin _ _ _ _ _ Hfin H Hseen) as (s & t & Hs & Hp & Hf).
  rewrite Forall_forall in Hno. specialize (Hno s Hs).
  rewrite (tuple_fires_spells s t Hp Hf) in Hno. discriminate.
Qed.

End LongMention.

Lemma stoq_unspelled (l : ascii) (tail : string) args ns seen :
  bool_decide
    (Forall (λ oa, snd oa = stoq_action (String "-" (String "-" (String l tail))) →
                   fst oa = String "-" (String "-" (String l tail)))
            (_option_string_actions stoq_parser)) = true →
  parse_args_seen stoq_parser args = Ok (ns, seen) →
  Forall (λ s, startswith s (String "-" (String "-" (String l ""))) = false)
         args →
  stoq_action (String "-" (String "-" (String l tail))) ∉ seen.
Proof.
  intros Hkeys H Hno.
  apply (unspelled_not_seen stoq_parser _ l tail eq_refl) with args ns.
  - intros o Ho. apply bool_decide_eq_true in Hkeys.
    rewrite Forall_forall in Hkeys. exact (Hkeys _ Ho eq_refl).
  - exact stoq_two_long.
  - apply stoq_finish.
  - exact H.
  - exact Hno.
Qed.

(** X7. An option that is not spelled keeps its default [False].  For the
    nine value options with a letter: when no argument string contains the
    letter or starts with the first three characters of the long form.
    For [--tlp], [--metadata] and [--rate-limit]: when no argument string
    starts with the first three characters of the option.  No other option
    writes to the destination, in whatever form it is given. *)
Theorem options_not_given_keep_default (args : list string) (ns : Namespace) :
  parse_args stoq_parser args = Ok ns →
  (∀ (x l : ascii) (d : string),
     (x, l, d) ∈ [("L"%char, "l"%char, "log_level");
                  ("T"%char, "t"%char, "template");
                  ("M"%char, "m"%char, "max_processes");
                  ("R"%char, "m"%char, "max_recursion");
                  ("C"%char, "c"%char, "output_connector");
                  ("A"%char, "a"%char, "archive_connector");
                  ("F"%char, "f"%char, "path");
                  ("O"%char, "o"%char, "outfile");
                  ("I"%char, "i"%char, "source_plugin")] →
     Forall (λ s, char_in x s = false
                  ∧ startswith s (String "-" (String "-" (String l "")))
                    = false) args →
     ns !! d = Some False_)
  ∧ (∀ (l : ascii) (d : string),
       (l, d) ∈ [("t"%char, "default_tlp"); ("m"%char, "ingest_metadata");
                 ("r"%char, "ratelimit")] →
       Forall (λ s, startswith s (String "-" (String "-" (String l "")))
                    = false) args →
       ns !! d = Some False_).
Proof.
  intros H. apply parse_args_seen_iff in H as [seen H]. split.
  - intros x l d Hin Hno.
    assert (Hcase :
              ∀ tail,
                bool_decide
                  (Forall (λ oa, snd oa = stoq_action (String "-" (String x "")) →
                                 fst oa = String "-" (String x "")
                                 ∨ fst oa
                                   = String "-" (String "-" (String l tail)))
                          (_option_string_actions stoq_parser)) = true →
                x ≠ "-"%char →
                registered stoq_parser (stoq_action (String "-" (String x ""))) →
                action_defaults stoq_parser
                  !! dest (stoq_action (String "-" (String x "")))
                = Some False_ →
                ns !! dest (stoq_action (String "-" (String x "")))
                = Some False_).
    { intros tail Hkeys Hx Hreg Hdef. rewrite <- Hdef.
      apply (stoq_untaken_default _ args ns seen Hreg H).
      by apply (stoq_unmentioned x l tail args ns seen). }
    clear H Hno.
    repeat (apply elem_of_cons in Hin as [[= -> -> ->] | Hin]);
      [ .. | by apply elem_of_nil in Hin].
    + apply (Hcase "oglevel"); [by vm_compute | discriminate | | by vm_compute].
      apply (dict_get_registered stoq_parser "-L"). reflexivity.
    + apply (Hcase "emplate"); [by vm_compute | discriminate | | by vm_compute].
      apply (dict_get_registered stoq_parser "-T"). reflexivity.
    + apply (Hcase "ax-processes");
        [by vm_compute | discriminate | | by vm_compute].
      apply (dict_get_registered stoq_parser "-M"). reflexivity.
    + apply (Hcase "ax_recursion");
        [by vm_compute | discriminate | | by vm_compute].
      apply (dict_get_registered stoq_parser "-R"). reflexivity.
    + apply (Hcase "onnector"); [by vm_compute | discriminate | | by vm_compute].
      apply (dict_get_registered stoq_parser "-C"). reflexivity.
    + apply (Hcase "rchive"); [by vm_compute | discriminate | | by vm_compute].
      apply (dict_get_registered stoq_parser "-A"). reflexivity.
    + apply (Hcase "ile"); [by vm_compute | discriminate | | by vm_compute].
      apply (dict_get_registered stoq_parser "-F"). reflexivity.
    + apply (Hcase "utfile"); [by vm_compute | discriminate | | by vm_compute].
      apply (dict_get_registered stoq_parser "-O"). reflexivity.
    + apply (Hcase "ngest"); [by vm_compute | discriminate | | by vm_compute].
      apply (dict_get_registered stoq_parser "-I"). reflexivity.
  - intros l d Hin Hno.
    assert (Hcase :
              ∀ tail,
                bool_decide
                  (Forall (λ oa, snd oa
                                 = stoq_action
                                     (String "-" (String "-" (String l tail))) →
                                 fst oa
                                 = String "-" (String "-" (String l tail)))
                          (_option_string_actions stoq_parser)) = true →
                registered stoq_parser
                  (stoq_action (String "-" (String "-" (String l tail)))) →
                action_defaults stoq_parser
                  !! dest (stoq_action (String "-" (String "-" (String l tail))))
                = Some False_ →
                ns !! dest (stoq_action
                              (String "-" (String "-" (String l tail))))
                = Some False_).
    { intros tail Hkeys Hreg Hdef. rewrite <- Hdef.
      apply (stoq_untaken_default _ args ns seen Hreg H).
      by apply (stoq_unspelled l tail args ns seen). }
    clear H Hno.
    repeat (apply elem_of_cons in Hin as [[= -> ->] | Hin]);
      [ .. | by apply elem_of_nil in Hin].
    + apply (Hcase "lp"); [by vm_compute | | by vm_compute].
      apply (dict_get_registered stoq_parser "--tlp"). reflexivity.
    + apply (Hcase "etadata"); [by vm_compute | | by vm_compute].
      apply (dict_get_registered stoq_parser "--metadata"). reflexivity.
    + apply (Hcase "ate-limit"); [by vm_compute | | by vm_compute].
      apply (dict_get_registered stoq_parser "--rate-limit"). reflexivity.
Qed.

(** ** Argument lists put together *)

Lemma leading_A_app pattern pattern' :
  leading_A pattern' = 0 → leading_A (pattern ++ pattern') = leading_A pattern.
Proof.
  intros H'. induction pattern as [ | c pattern IH]; [exact H' | ].
  destruct c; cbn [app leading_A]; by rewrite ?IH.
Qed.

Lemma leading_A_length pattern : (leading_A pattern ≤ length pattern)%nat.
Proof.
  induction pattern as [ | c pattern IH]; [reflexivity | ].
  destruct c; cbn [leading_A length]; lia.
Qed.

Lemma _match_argument_app action pattern pattern' :
  leading_A pattern' = 0 →
  _match_argument action (pattern ++ pattern') = _match_argument action pattern.
Proof. intros H'. unfold _match_argument. by rewrite leading_A_app. Qed.

Section Append.

(** What follows the strings an option can take plays no part in what the
    option does: [pattern'] starts with no ['A']. *)
Variable P : ArgumentParser.
Variables (pattern pattern' : list ArgClass) (following more : list string).
Hypothesis pattern_length : length pattern = length following.
Hypothesis no_leading_A : leading_A pattern' = 0.

Lemma match_following_app action o acc :
  match_following action o (pattern ++ pattern') (following ++ more) acc
  = match_following action o pattern following acc.
Proof.
  unfold match_following. rewrite _match_argument_app by exact no_leading_A.
  destruct (_match_argument action pattern) as [n | e] eqn:Hn; [ | reflexivity].
  cbn [rbind]. rewrite take_app_le; [reflexivity | ].
  apply _match_argument_le in Hn. pose proof (leading_A_length pattern). lia.
Qed.

Lemma match_explicit_app explicit_arg :
  ∀ action o acc,
    match_explicit P action o explicit_arg (pattern ++ pattern')
                   (following ++ more) acc
    = match_explicit P action o explicit_arg pattern following acc.
Proof.
  induction explicit_arg as [ | e rest IH]; intros action o acc;
    cbn [match_explicit];
    destruct (_match_argument action [cls_A]) as [n | err]; cbn [rbind];
    try reflexivity;
    destruct o as [ | char [ | c1 o']]; try reflexivity;
    destruct n as [ | [ | n]]; try reflexivity;
    destruct (char_in c1 (prefix_chars P)); try reflexivity.
  destruct (dict_get _ _) as [action' | ]; [ | reflexivity].
  destruct rest as [ | e' rest']; [apply match_following_app | apply IH].
Qed.

Lemma consume_optional_app st s t :
  consume_optional P st s t (pattern ++ pattern') (following ++ more)
  = consume_optional P st s t pattern following.
Proof.
  destruct t as [[[action | ] o] [e | ]]; cbn [consume_optional];
    [ by rewrite match_explicit_app | by rewrite match_following_app
    | reflexivity | reflexivity ].
Qed.

End Append.

Lemma consume_app P more pattern' args :
  leading_A pattern' = 0 →
  ∀ pattern skip st,
    length pattern = length args →
    (skip ≤ leading_A pattern)%nat →
    Forall (class_registered P) pattern →
    consume P (args ++ more) (pattern ++ pattern') skip st
    = (let* st1 := consume P args pattern skip st in
       consume P more pattern' 0 st1).
Proof.
  intros H'. induction args as [ | s args IH]; intros pattern skip st Hlen Hskip Hreg.
  { destruct pattern; [ | discriminate]. cbn [leading_A] in Hskip.
    assert (skip = 0) as -> by lia. reflexivity. }
  destruct pattern as [ | c pattern]; [discriminate | ].
  injection Hlen as Hlen. inversion Hreg as [ | ? ? Hc Hpat]; subst.
  cbn [app consume]. destruct skip as [ | skip].
  - destruct c as [ | t | ].
    + apply IH; [exact Hlen | lia | exact Hpat].
    + rewrite consume_optional_app by assumption.
      destruct (consume_optional P st s t pattern args) as [[st1 stop] | e]
        eqn:Hopt; cbn [rbind]; [ | reflexivity].
      apply IH; [exact Hlen | | exact Hpat].
      eapply (consume_optional_preserves P (λ _, True)); eauto.
    + apply IH; [exact Hlen | lia | exact Hpat].
  - destruct c as [ | t | ]; cbn [leading_A] in Hskip; try lia.
    apply IH; [exact Hlen | lia | exact Hpat].
Qed.

Lemma arg_strings_pattern_app P args more pattern pattern' :
  "--" ∉ args →
  arg_strings_pattern P args = Ok pattern →
  arg_strings_pattern P more = Ok pattern' →
  arg_strings_pattern P (args ++ more) = Ok (pattern ++ pattern').
Proof.
  intros Hno Hpat Hmore. revert pattern Hno Hpat.
  induction args as [ | s args IH]; intros pattern Hno Hpat.
  { apply Ok_inj in Hpat. by subst pattern. }
  cbn [app arg_strings_pattern] in *.
  destruct (String.eqb_spec s "--") as [-> | _].
  { destruct Hno. apply list_elem_of_here. }
  destruct (_parse_optional P s) as [t | e]; cbn [rbind] in *;
    [ | discriminate].
  destruct (arg_strings_pattern P args) as [parts | e] eqn:Hparts;
    cbn [rbind] in *; [ | discriminate].
  apply Ok_inj in Hpat. subst pattern.
  rewrite (IH parts); [reflexivity | | reflexivity].
  intros Hin. apply Hno. by apply list_elem_of_further.
Qed.

(** [parse_args] on a parser whose end of parse changes nothing. *)
Lemma parse_args_seen_eq P args pattern :
  (∀ seen ns, finish (_actions P) seen ns [] = Ok (ns, [])) →
  arg_strings_pattern P args = Ok pattern →
  parse_args_seen P args
  = parse_outcome
      (consume P args pattern 0
         {| namespace := action_defaults P; seen_actions := [];
            extras := [] |}).
Proof.
  intros Hfin Hpat.
  unfold parse_args_seen, parse_known_args, _parse_known_args.
  generalize (action_defaults P). intros ns0.
  rewrite Hpat. cbn [rbind].
  destruct (consume P args pattern 0 _) as [st | e]; cbn [rbind].
  - rewrite Hfin. cbn [rbind]. unfold parse_outcome.
    by destruct st as [ns seen ex].
  - unfold parse_outcome. by destruct e.
Qed.

(** An accepted argument list followed by more strings, the first of which
    is read as an option: the loop goes on from the state the accepted
    list left. *)
Lemma parse_args_seen_app P args more ns seen pattern' :
  (∀ seen ns, finish (_actions P) seen ns [] = Ok (ns, [])) →
  parse_args_seen P args = Ok (ns, seen) →
  arg_strings_pattern P more = Ok pattern' → leading_A pattern' = 0 →
  parse_args_seen P (args ++ more)
  = parse_outcome
      (consume P more pattern' 0
         {| namespace := ns; seen_actions := seen; extras := [] |}).
Proof.
  intros Hfin H Hmore Hlead.
  apply parse_args_seen_inv in H as (pattern & Hpat & Hrun); [ | exact Hfin].
  pose proof (arg_strings_pattern_registered _ _ _ Hpat) as Hreg.
  pose proof (arg_strings_pattern_length _ _ _ Hpat) as Hlen.
  assert (Hno : "--" ∉ args).
  { intros Hd.
    pose proof (consume_visits _ _ _ _ _ _ Hlen Hreg (Nat.le_0_l _) Hrun)
      as [Hdash _].
    apply Hdash; [eapply pattern_dash; eauto | reflexivity]. }
  rewrite (parse_args_seen_eq P _ _ Hfin
             (arg_strings_pattern_app _ _ _ _ _ Hno Hpat Hmore)).
  revert Hrun. generalize (action_defaults P). intros ns1 Hrun.
  rewrite consume_app by (assumption || lia). rewrite Hrun. reflexivity.
Qed.

Lemma consume_one_option P o action vs st :
  _match_argument action (replicate (length vs) cls_A) = Ok (length vs) →
  consume P (o :: vs)
          (cls_O (Some action, o, None) :: replicate (length vs) cls_A) 0 st
  = take_action st action vs.
Proof.
  intros Hmatch. cbn [consume]. unfold consume_optional, match_following.
  rewrite Hmatch. cbn [rbind]. rewrite firstn_all. cbn [app take_actions].
  destruct (take_action st action vs) as [st1 | e]; cbn [rbind];
    [ | reflexivity].
  apply consume_skip_all. reflexivity.
Qed.

(** An accepted argument list followed by one more option and the
    argument strings it takes. *)
Lemma append_option P args o action vs ns seen :
  (∀ seen ns, finish (_actions P) seen ns [] = Ok (ns, [])) →
  parse_args_seen P args = Ok (ns, seen) →
  o ≠ "--" →
  _parse_optional P o = Ok (Some (Some action, o, None)) →
  Forall (reads_as_argument P) vs →
  _match_argument action (replicate (length vs) cls_A) = Ok (length vs) →
  parse_args_seen P (args ++ o :: vs)
  = parse_outcome
      (take_action {| namespace := ns; seen_actions := seen; extras := [] |}
                   action vs).
Proof.
  intros Hfin H Ho Hopt Hvs Hmatch.
  rewrite (parse_args_seen_app P args (o :: vs) ns seen
             (cls_O (Some action, o, None) :: replicate (length vs) cls_A)
             Hfin H).
  - by rewrite consume_one_option.
  - cbn [arg_strings_pattern].
    destruct (String.eqb_spec o "--") as [ | _]; [contradiction | ].
    by rewrite Hopt, (pattern_arguments P vs Hvs).
  - reflexivity.
Qed.

(** [take_action] of a flag. *)
Lemma take_action_flag st action :
  action_class action = _StoreTrueAction
  ∨ action_class action = _StoreFalseAction →
  nargs action = nargs_int 0 →
  take_action st action []
  = Ok {| namespace := <[dest action := const action]> (namespace st);
          seen_actions := seen_actions st ++ [action];
          extras := extras st |}.
Proof.
  intros Hcls Hn. unfold take_action, _get_values.
  cbn [remove_dashdash]. rewrite Hn. cbn [convert_all check_all rbind].
  destruct (decide (VList [] = SUPPRESS)); [discriminate | ].
  unfold call_action. by destruct Hcls as [-> | ->].
Qed.

(** X8. Options add up.  When an argument list is accepted, so is the list
    with one more option behind it: a free-text option or an integer option
    with its value, a flag, or [--metadata] with its strings.  The result is
    the result of the shorter list with the destination of the added option
    overwritten, so the last occurrence of an option decides and no option
    disturbs another. *)
Theorem options_add_up (args : list string) (ns : Namespace) :
  parse_args stoq_parser args = Ok ns →
  (∀ o d v,
     (o, d) ∈ [("-T", "template"); ("--template", "template");
               ("-C", "output_connector"); ("--connector", "output_connector");
               ("-A", "archive_connector"); ("--archive", "archive_connector");
               ("-F", "path"); ("--file", "path");
               ("-O", "outfile"); ("--outfile", "outfile");
               ("-I", "source_plugin"); ("--ingest", "source_plugin");
               ("--rate-limit", "ratelimit")] →
     startswith v "-" = false ∨ negative_number v = true →
     parse_args stoq_parser (args ++ [o; v]) = Ok (<[d := VStr v]> ns))
  ∧ (∀ o d v z,
       (o, d) ∈ [("-M", "max_processes"); ("--max-processes", "max_processes");
                 ("-R", "max_recursion"); ("--max_recursion", "max_recursion")] →
       startswith v "-" = false ∨ negative_number v = true →
       int_call v = Some z →
       parse_args stoq_parser (args ++ [o; v]) = Ok (<[d := VInt z]> ns))
  ∧ (∀ o d b,
       (o, d, b) ∈ [("-S", "combined_results", false);
                    ("--split", "combined_results", false);
                    ("-E", "error_queue", true);
                    ("--errors", "error_queue", true);
                    ("-D", "dispatch", true);
                    ("--dispatch", "dispatch", true)] →
       parse_args stoq_parser (args ++ [o]) = Ok (<[d := VBool b]> ns))
  ∧ (∀ vs,
       Forall (λ v, startswith v "-" = false ∨ negative_number v = true) vs →
       parse_args stoq_parser (args ++ "--metadata" :: vs)
       = Ok (<["ingest_metadata" := VList (map VStr vs)]> ns)).
Proof.
  intros H. apply parse_args_seen_iff in H as [seen H].
  split; [ | split; [ | split]].
  - intros o d v Ho Hv. apply stoq_reads_as_argument in Hv.
    unfold parse_args.
    repeat (apply elem_of_cons in Ho as [[= -> ->] | Ho]);
      [ .. | by apply elem_of_nil in Ho];
      (erewrite (append_option stoq_parser args _ _ [v] ns seen stoq_finish H);
       [ | discriminate | reflexivity
         | exact (Forall_cons_2 _ _ _ Hv (Forall_nil_2 _)) | reflexivity ]);
      (rewrite take_action_store;
       [ | reflexivity | reflexivity | reflexivity | apply Hv ]);
      reflexivity.
  - intros o d v z Ho Hv Hz. apply stoq_reads_as_argument in Hv.
    unfold parse_args.
    repeat (apply elem_of_cons in Ho as [[= -> ->] | Ho]);
      [ .. | by apply elem_of_nil in Ho];
      (erewrite (append_option stoq_parser args _ _ [v] ns seen stoq_finish H);
       [ | discriminate | reflexivity
         | exact (Forall_cons_2 _ _ _ Hv (Forall_nil_2 _)) | reflexivity ]);
      (rewrite take_action_store;
       [ | reflexivity | reflexivity | reflexivity | apply Hv ]);
      unfold _get_value;
      change (type_ (stoq_action _)) with (VBuiltin int);
      rewrite Hz; reflexivity.
  - intros o d b Ho. unfold parse_args.
    repeat (apply elem_of_cons in Ho as [[= -> -> ->] | Ho]);
      [ .. | by apply elem_of_nil in Ho];
      (erewrite (append_option stoq_parser args _ _ [] ns seen stoq_finish H);
       [ | discriminate | reflexivity | constructor | reflexivity ]);
      (rewrite take_action_flag; [ | (by left) || (by right) | reflexivity ]);
      reflexivity.
  - intros vs Hvs.
    assert (Hargs : Forall (reads_as_argument stoq_parser) vs).
    { eapply Forall_impl; [exact Hvs | ]. apply stoq_reads_as_argument. }
    unfold parse_args.
    erewrite (append_option stoq_parser args _ _ vs ns seen stoq_finish H);
      [ | discriminate | reflexivity | exact Hargs | ].
    + rewrite take_action_list; try reflexivity.
      intros Hin. rewrite Forall_forall in Hargs.
      by destruct (Hargs _ Hin) as [Hne _].
    + unfold _match_argument.
      change (nargs (stoq_action "--metadata")) with ZERO_OR_MORE.
      f_equal. clear. induction vs as [ | v vs IH]; [reflexivity | ].
      cbn [length replicate leading_A]. by rewrite IH.
Qed.

(** ** [StoqArgs] on any parser *)

Lemma mbind_Ok {A B} (c : M A) (k : A → M B) h a h1 :
  c h = (Ok a, h1) → mbind c k h = k a h1.
Proof. unfold mbind. by intros ->. Qed.

Lemma mbind_Raise {A B} (c : M A) (k : A → M B) h e h1 :
  c h = (Raise e, h1) → mbind c k h = (Raise e, h1).
Proof. unfold mbind. by intros ->. Qed.

Lemma dict_get_app {V} (k : string) (d1 d2 : list (string * V)) :
  dict_get k (d1 ++ d2)
  = match dict_get k d1 with
    | Some v => Some v
    | None => dict_get k d2
    end.
Proof.
  induction d1 as [ | [k' v'] d1 IH]; [reflexivity | ].
  cbn [app dict_get]. by destruct (String.eqb k k').
Qed.

Lemma dict_set_free {V} (k : string) (v : V) (d : list (string * V)) :
  dict_get k d = None → dict_set k v d = d ++ [(k, v)].
Proof.
  induction d as [ | [k' v'] d IH]; [reflexivity | ].
  cbn [app dict_get dict_set]. destruct (String.eqb k k'); [discriminate | ].
  intros H. by rewrite IH.
Qed.

Lemma foldl_dict_set_free {V} (v : V) (os : list string) :
  ∀ d : list (string * V),
    NoDup os → Forall (λ o, dict_get o d = None) os →
    foldl (λ d o, dict_set o v d) d os = d ++ map (λ o, (o, v)) os.
Proof.
  induction os as [ | o os IH]; intros d Hnd Hfree.
  { by rewrite app_nil_r. }
  apply NoDup_cons in Hnd as [Ho Hnd].
  apply Forall_cons in Hfree as [Hfo Hfree].
  cbn [foldl map]. rewrite (dict_set_free _ _ _ Hfo), IH, <- app_assoc;
    [reflexivity | exact Hnd | ].
  rewrite Forall_forall in Hfree. apply Forall_forall. intros o' Ho'.
  rewrite dict_get_app, (Hfree _ Ho'). cbn [dict_get].
  destruct (String.eqb_spec o' o) as [-> | _]; [contradiction | reflexivity].
Qed.

Lemma _check_conflict_free P handler action :
  Forall (λ o, dict_get o (_option_string_actions P) = None)
         (option_strings action) →
  _check_conflict P handler action = Ok tt.
Proof.
  intros Hfree. unfold _check_conflict.
  assert (Hnil : filter (λ o, is_Some (dict_get o (_option_string_actions P)))
                        (option_strings action) = []).
  { induction Hfree as [ | o os Ho _ IH]; [reflexivity | ].
    rewrite filter_cons_False; [exact IH | ].
    rewrite Ho. by intros [? [=]]. }
  by rewrite Hnil.
Qed.

(** What [add_argument] makes of its option strings, its destination and
    the other keywords: [default] from the container where the call gives
    none, then the action class on the keywords. *)
Definition make_action (defaults : list (string * Value)) (arg_default : Value)
    (option_strings : list string) (dest : string) (kwargs : Kwargs)
  : result Action :=
  let kwargs :=
    match kw_get "default" kwargs with
    | Some _ => kwargs
    | None =>
        match dict_get dest defaults with
        | Some d => kwargs ++ ["default" =: d]
        | None =>
            if decide (arg_default = VNone) then kwargs
            else kwargs ++ ["default" =: arg_default]
        end
    end in
  let* action :=
    new_action (kw_default "action" VNone kwargs) option_strings dest
               (kw_pop "action" kwargs) in
  let* _ :=
    match type_ action with
    | VNone | VBuiltin _ => Ok tt
    | _ => Raise (ValueError "type is not callable")
    end in
  Ok action.

Lemma option_strings_of_dash chars args :
  char_in "-" chars = true →
  Forall (λ o, startswith o "-" = true) args →
  ∃ long, option_strings_of chars args = Ok (args, long).
Proof.
  intros Hc. induction 1 as [ | o args Ho _ [long IH]].
  { by exists []. }
  apply startswith_dash in Ho as [rest ->].
  cbn [option_strings_of]. rewrite Hc, IH. cbn [negb rbind]. eauto.
Qed.

(** [add_argument] with option strings in the dash and an explicit
    [dest]. *)
Lemma add_argument_to_dest P group arg_default handler args kwargs d :
  char_in "-" (prefix_chars P) = true →
  Forall (λ o, startswith o "-" = true) args → args ≠ [] →
  kw_get "dest" kwargs = Some (VStr d) →
  add_argument_to P group arg_default handler args kwargs
  = (let* action :=
       make_action (_defaults P) arg_default args d (kw_pop "dest" kwargs) in
     let* _ := _check_conflict P handler action in
     Ok (action, _add_action P group action)).
Proof.
  intros Hc Hargs Hne Hd. unfold add_argument_to.
  assert (Hpos : match args with
                 | [] => Ok true
                 | [a] => match first_char a with
                          | None => Raise IndexError
                          | Some c => Ok (negb (char_in c (prefix_chars P)))
                          end
                 | _ => Ok false
                 end = Ok false).
  { destruct Hargs as [ | o [ | o' args'] Ho _]; [done | | reflexivity].
    apply startswith_dash in Ho as [rest ->]. cbn [first_char].
    by rewrite Hc. }
  rewrite Hpos. cbn [rbind].
  destruct (option_strings_of_dash _ _ Hc Hargs) as [long Hos].
  unfold _get_optional_kwargs, kw_default. rewrite Hos, Hd. cbn [rbind].
  unfold make_action.
  destruct (new_action _ _ _ _) as [action | e]; cbn [rbind]; [ | reflexivity].
  by destruct (match type_ action with
               | VNone | VBuiltin _ => Ok tt
               | _ => Raise (ValueError "type is not callable")
               end).
Qed.

(** A parser with actions, option strings and groups added behind its
    own. *)
Definition extend (P : ArgumentParser) (actions : list Action)
    (table : list (string * Action)) (groups : list ArgumentGroup)
  : ArgumentParser :=
  {| prefix_chars := prefix_chars P;
     argument_default := argument_default P;
     conflict_handler := conflict_handler P;
     _defaults := _defaults P;
     _actions := _actions P ++ actions;
     _option_string_actions := _option_string_actions P ++ table;
     _has_negative_number_optionals := _has_negative_number_optionals P;
     _action_groups := _action_groups P ++ groups |}.

Lemma extend_nil P : extend P [] [] [] = P.
Proof. destruct P. unfold extend. cbn. by rewrite !app_nil_r. Qed.

Definition group_with (action : Action) (g : ArgumentGroup) : ArgumentGroup :=
  {| title := title g;
     group_argument_default := group_argument_default g;
     group_conflict_handler := group_conflict_handler g;
     _group_actions := _group_actions g ++ [action] |}.

Lemma negative_number_flag_keeps (flag : list bool) (os : list string) :
  Forall (λ o, negative_number o = false) os →
  foldl (λ flag o,
           if negative_number o
           then (match flag with [] => [true] | _ => flag end)
           else flag) flag os = flag.
Proof.
  induction 1 as [ | o os Ho _ IH]; [reflexivity | ].
  cbn [foldl]. by rewrite Ho.
Qed.

Lemma _add_action_extend P A L G j action :
  Forall (λ o, negative_number o = false) (option_strings action) →
  NoDup (option_strings action) →
  Forall (λ o, dict_get o (_option_string_actions P ++ L) = None)
         (option_strings action) →
  _add_action (extend P A L G) (length (_action_groups P) + j) action
  = extend P (A ++ [action])
           (L ++ map (λ o, (o, action)) (option_strings action))
           (alter (group_with action) j G).
Proof.
  intros Hneg Hnd Hfree. unfold _add_action, extend.
  cbn [prefix_chars argument_default conflict_handler _defaults _actions
       _option_string_actions _has_negative_number_optionals _action_groups].
  rewrite (negative_number_flag_keeps _ _ Hneg),
    (foldl_dict_set_free _ _ _ Hnd Hfree), alter_app_r, <- !app_assoc.
  reflexivity.
Qed.

Section Steps.

Context {B : Type}.
Variables (p : loc) (h0 : Heap) (P : ArgumentParser).
Variables (A : list Action) (L : list (string * Action))
          (G : list ArgumentGroup).
Hypothesis prefix_dash : char_in "-" (prefix_chars P) = true.

(** [add_argument_group] on the extended parser. *)
Lemma add_argument_group_extend (t : string) (k : Container → M B) :
  mbind (add_argument_group p t) k (<[p := extend P A L G]> h0)
  = k (group_ref p (length (_action_groups P) + length G))
      (<[p := extend P A L
                 (G ++ [{| title := VStr t;
                           group_argument_default := argument_default P;
                           group_conflict_handler := conflict_handler P;
                           _group_actions := [] |}])]> h0).
Proof.
  unfold mbind, add_argument_group. rewrite lookup_insert_eq.
  rewrite insert_insert_eq. unfold extend.
  cbn [prefix_chars argument_default conflict_handler _defaults _actions
       _option_string_actions _has_negative_number_optionals _action_groups].
  by rewrite length_app, <- app_assoc.
Qed.

Variables (j : nat) (g : ArgumentGroup).
Variables (args : list string) (kwargs : Kwargs) (d : string).
Hypothesis group_j : G !! j = Some g.
Hypothesis args_dash : Forall (λ o, startswith o "-" = true) args.
Hypothesis args_some : args ≠ [].
Hypothesis dest_given : kw_get "dest" kwargs = Some (VStr d).

Lemma add_argument_extend_eq :
  add_argument (group_ref p (length (_action_groups P) + j)) args kwargs
               (<[p := extend P A L G]> h0)
  = match
      (let* action :=
         make_action (_defaults P) (group_argument_default g) args d
                     (kw_pop "dest" kwargs) in
       let* _ := _check_conflict (extend P A L G)
                                 (group_conflict_handler g) action in
       Ok (action,
           _add_action (extend P A L G) (length (_action_groups P) + j)
                       action))
    with
    | Ok (action, P') => (Ok action, <[p := P']> (<[p := extend P A L G]> h0))
    | Raise e => (Raise e, <[p := extend P A L G]> h0)
    end.
Proof.
  unfold add_argument. rewrite lookup_insert_eq.
  assert (Hg : _action_groups (extend P A L G)
                 !! (length (_action_groups P) + j) = Some g).
  { unfold extend. cbn [_action_groups].
    rewrite lookup_app_r by lia.
    replace (length (_action_groups P) + j - length (_action_groups P))%nat
      with j by lia.
    exact group_j. }
  rewrite Hg.
  rewrite (add_argument_to_dest (extend P A L G) _ _ _ args kwargs d);
    [reflexivity | exact prefix_dash | exact args_dash | exact args_some
    | exact dest_given ].
Qed.

(** The option strings are free: the action joins the parser. *)
Lemma add_argument_extend action (k : Action → M B) :
  make_action (_defaults P) (group_argument_default g) args d
              (kw_pop "dest" kwargs) = Ok action →
  Forall (λ o, negative_number o = false) (option_strings action) →
  NoDup (option_strings action) →
  Forall (λ o, dict_get o (_option_string_actions P) = None
               ∧ dict_get o L = None) (option_strings action) →
  mbind (add_argument (group_ref p (length (_action_groups P) + j))
                      args kwargs) k
        (<[p := extend P A L G]> h0)
  = k action
      (<[p := extend P (A ++ [action])
                 (L ++ map (λ o, (o, action)) (option_strings action))
                 (alter (group_with action) j G)]> h0).
Proof.
  intros Hmake Hneg Hnd Hfree.
  assert (Hfree' : Forall (λ o, dict_get o (_option_string_actions P ++ L)
                                = None) (option_strings action)).
  { eapply Forall_impl; [exact Hfree | ]. intros o [Ho HL].
    by rewrite dict_get_app, Ho. }
  apply mbind_Ok. rewrite add_argument_extend_eq, Hmake. cbn [rbind].
  rewrite _check_conflict_free by exact Hfree'. cbn [rbind].
  by rewrite (_add_action_extend _ _ _ _ _ _ Hneg Hnd Hfree'), insert_insert_eq.
Qed.

(** One of the option strings is taken and the group has the ['error']
    handler: [add_argument] raises and the parser stays as it is. *)
Lemma add_argument_conflict action (k : Action → M B) c cs :
  group_conflict_handler g = "error" →
  make_action (_defaults P) (group_argument_default g) args d
              (kw_pop "dest" kwargs) = Ok action →
  filter (λ o, is_Some (dict_get o (_option_string_actions P ++ L)))
         (option_strings action) = c :: cs →
  mbind (add_argument (group_ref p (length (_action_groups P) + j))
                      args kwargs) k
        (<[p := extend P A L G]> h0)
  = (Raise (ArgumentError (_get_action_name action)
                          (conflicting_option_strings (c :: cs))),
     <[p := extend P A L G]> h0).
Proof.
  intros Herr Hmake Hfilter. apply mbind_Raise.
  rewrite add_argument_extend_eq, Hmake. cbn [rbind].
  unfold _check_conflict. cbn [extend _option_string_actions].
  by rewrite Hfilter, Herr.
Qed.

End Steps.

Definition with_default (v : Value) (a : Action) : Action :=
  {| action_class := action_class a;
     option_strings := option_strings a;
     dest := dest a;
     nargs := nargs a;
     const := const a;
     default := v;
     type_ := type_ a;
     choices := choices a;
     required := required a;
     help := help a;
     metavar := metavar a |}.

(** The default [add_argument] gives an action when the call has none:
    the parser's [set_defaults] value for the destination, else the
    parser's [argument_default], else the default of the action class. *)
Definition inherited_default (P : ArgumentParser) (d : string) (own : Value)
  : Value :=
  match dict_get d (_defaults P) with
  | Some v => v
  | None => if decide (argument_default P = VNone) then own
            else argument_default P
  end.

(** The fifteen actions of [StoqArgs] as the fresh parser has them, with
    the default of [combined_results] set. *)
Definition stoq_actions (split_default : Value) : list Action :=
  map (λ a, if String.eqb (dest a) "combined_results"
            then with_default split_default a else a)
      (drop 1 (_actions stoq_parser)).

Definition option_table (actions : list Action) : list (string * Action) :=
  concat (map (λ a, map (λ o, (o, a)) (option_strings a)) actions).

Definition stoq_groups (arg_default : Value) (handler : string)
    (actions : list Action) : list ArgumentGroup :=
  [ {| title := VStr "General Options";
       group_argument_default := arg_default;
       group_conflict_handler := handler;
       _group_actions := take 4 actions |};
    {| title := VStr "Connector Options";
       group_argument_default := arg_default;
       group_conflict_handler := handler;
       _group_actions := take 3 (drop 4 actions) |};
    {| title := VStr "Ingest Options";
       group_argument_default := arg_default;
       group_conflict_handler := handler;
       _group_actions := drop 7 actions |} ].

Definition stoq_option_strings : list string :=
  ["-L"; "--loglevel"; "-T"; "--template"; "-M"; "--max-processes";
   "-R"; "--max_recursion"; "-C"; "--connector"; "-A"; "--archive";
   "-S"; "--split"; "-F"; "--file"; "-O"; "--outfile"; "-I"; "--ingest";
   "-E"; "--errors"; "-D"; "--dispatch"; "--tlp"; "--metadata";
   "--rate-limit"].

Lemma make_action_split defaults arg_default :
  make_action defaults arg_default ["-S"; "--split"] "combined_results"
    (kw_pop "dest"
       ["dest" =: VStr "combined_results";
        "action" =: VStr "store_false";
        "help" =: VStr "Split results on a per plugin basis"])
  = Ok (with_default
          (match dict_get "combined_results" defaults with
           | Some v => v
           | None => if decide (arg_default = VNone) then True_
                     else arg_default
           end)
          (stoq_action "-S")).
Proof.
  unfold make_action.
  change (kw_pop "dest" _)
    with ["action" =: VStr "store_false";
          "help" =: VStr "Split results on a per plugin basis"].
  cbn [kw_get String.eqb Ascii.eqb Bool.eqb].
  destruct (dict_get "combined_results" defaults) as [v | ];
    [reflexivity | ].
  destruct (decide (arg_default = VNone)); reflexivity.
Qed.

Ltac step_argument Hc :=
  erewrite add_argument_extend;
  [ | exact Hc | reflexivity | by repeat constructor | discriminate
    | reflexivity
    | first [ apply make_action_split | vm_compute; reflexivity ]
    | by repeat constructor
    | refine (bool_decide_unpack _ _); vm_compute; exact I
    | repeat (constructor; [split; [assumption | reflexivity] | ]);
      constructor ].

Lemma StoqArgs_extend parser h P :
  h !! parser = Some P →
  char_in "-" (prefix_chars P) = true →
  Forall (λ o, dict_get o (_option_string_actions P) = None)
         stoq_option_strings →
  StoqArgs parser h
  = (Ok parser,
     <[parser :=
         extend P
           (stoq_actions (inherited_default P "combined_results" True_))
           (option_table
              (stoq_actions (inherited_default P "combined_results" True_)))
           (stoq_groups
              (argument_default P) (conflict_handler P)
              (stoq_actions (inherited_default P "combined_results" True_)))]>
       h).
Proof.
  intros HP Hc Hfree.
  transitivity (StoqArgs parser (<[parser := extend P [] [] []]> h)).
  { by rewrite extend_nil, insert_id. }
  unfold stoq_option_strings in Hfree.
  repeat (apply Forall_cons in Hfree as [? Hfree]). clear Hfree.
  unfold StoqArgs.
  rewrite add_argument_group_extend.
  do 4 step_argument Hc.
  rewrite add_argument_group_extend.
  do 3 step_argument Hc.
  rewrite add_argument_group_extend.
  do 8 step_argument Hc.
  unfold mret. reflexivity.
Qed.

(** The group [StoqArgs] opens first. *)
Definition general_options (P : ArgumentParser) : ArgumentGroup :=
  {| title := VStr "General Options";
     group_argument_default := argument_default P;
     group_conflict_handler := conflict_handler P;
     _group_actions := [] |}.

Lemma StoqArgs_without_dash parser h P :
  h !! parser = Some P →
  char_in "-" (prefix_chars P) = false →
  StoqArgs parser h
  = (Raise (ValueError "invalid option string"),
     <[parser := extend P [] [] [general_options P]]> h).
Proof.
  intros HP Hc.
  transitivity (StoqArgs parser (<[parser := extend P [] [] []]> h)).
  { by rewrite extend_nil, insert_id. }
  unfold StoqArgs. rewrite add_argument_group_extend.
  apply mbind_Raise. unfold add_argument. rewrite lookup_insert_eq.
  assert (Hg : _action_groups (extend P [] [] ([] ++ [general_options P]))
                 !! (length (_action_groups P) + length (@nil ArgumentGroup))
               = Some (general_options P)).
  { unfold extend. cbn [_action_groups length app].
    by apply list_lookup_middle. }
  unfold general_options in Hg. rewrite Hg.
  unfold add_argument_to, _get_optional_kwargs.
  cbn [rbind option_strings_of prefix_chars extend]. rewrite Hc. reflexivity.
Qed.

(** The option strings of the fifteen calls, in call order. *)
Definition stoq_calls : list (list string) :=
  [["-L"; "--loglevel"]; ["-T"; "--template"]; ["-M"; "--max-processes"];
   ["-R"; "--max_recursion"]; ["-C"; "--connector"]; ["-A"; "--archive"];
   ["-S"; "--split"]; ["-F"; "--file"]; ["-O"; "--outfile"];
   ["-I"; "--ingest"]; ["-E"; "--errors"]; ["-D"; "--dispatch"]; ["--tlp"];
   ["--metadata"]; ["--rate-limit"]].

(** The option strings of a call that the parser already has. *)
Definition taken (P : ArgumentParser) (os : list string) : list string :=
  filter (λ o, is_Some (dict_get o (_option_string_actions P))) os.

(** The first call with an option string that the parser already has, and
    the number of calls before it. *)
Fixpoint first_conflict (P : ArgumentParser) (n : nat)
    (calls : list (list string)) : option (nat * list string) :=
  match calls with
  | [] => None
  | os :: calls =>
      match taken P os with
      | [] => first_conflict P (S n) calls
      | _ :: _ => Some (n, os)
      end
  end.

Lemma taken_nil P os :
  taken P os = [] → Forall (λ o, dict_get o (_option_string_actions P) = None) os.
Proof.
  unfold taken. induction os as [ | o os IH]; [constructor | ].
  rewrite filter_cons. destruct (decide _) as [ | Hno]; [discriminate | ].
  intros H. constructor; [ | by apply IH].
  destruct (dict_get o _); [ | reflexivity]. destruct Hno. by eexists.
Qed.

Lemma taken_extend P A L G os :
  Forall (λ o, dict_get o L = None) os →
  taken (extend P A L G) os = taken P os.
Proof.
  unfold taken, extend. cbn [_option_string_actions].
  induction 1 as [ | o os Ho _ IH]; [reflexivity | ].
  rewrite !filter_cons, IH, dict_get_app, Ho.
  destruct (dict_get o (_option_string_actions P)) as [a | ] eqn:Hget.
  - by rewrite !decide_True by (by eexists).
  - by rewrite !decide_False by (by intros [? [=]]).
Qed.

Lemma first_conflict_none P n calls :
  first_conflict P n calls = None →
  Forall (λ o, dict_get o (_option_string_actions P) = None) (concat calls).
Proof.
  revert n. induction calls as [ | os calls IH]; intros n; [constructor | ].
  cbn [first_conflict concat]. destruct (taken P os) eqn:Hos; [ | discriminate].
  intros H. apply Forall_app. split; [by apply taken_nil | by apply (IH (S n))].
Qed.

Lemma add_argument_taken {B} p h0 P A L G j g args kwargs d action
    (k : Action → M B) c cs :
  char_in "-" (prefix_chars P) = true →
  G !! j = Some g →
  group_conflict_handler g = "error" →
  Forall (λ o, startswith o "-" = true) args → args ≠ [] →
  kw_get "dest" kwargs = Some (VStr d) →
  make_action (_defaults P) (group_argument_default g) args d
              (kw_pop "dest" kwargs) = Ok action →
  Forall (λ o, dict_get o L = None) (option_strings action) →
  taken P (option_strings action) = c :: cs →
  mbind (add_argument (group_ref p (length (_action_groups P) + j))
                      args kwargs) k
        (<[p := extend P A L G]> h0)
  = (Raise (ArgumentError (_get_action_name action)
                          (conflicting_option_strings (c :: cs))),
     <[p := extend P A L G]> h0).
Proof.
  intros Hc Hg Herr Hargs Hne Hd Hmake HL Htaken.
  eapply add_argument_conflict; eauto.
  rewrite <- Htaken, <- (taken_extend P A L G _ HL). reflexivity.
Qed.

(** The groups [StoqArgs] has opened when [n] of its calls are done, with
    the actions of these calls. *)
Definition stoq_groups_after (arg_default : Value) (handler : string)
    (done : list Action) (n : nat) : list ArgumentGroup :=
  [ {| title := VStr "General Options";
       group_argument_default := arg_default;
       group_conflict_handler := handler;
       _group_actions := take 4 done |} ]
  ++ (if (4 <=? n)%nat
      then [ {| title := VStr "Connector Options";
                group_argument_default := arg_default;
                group_conflict_handler := handler;
                _group_actions := take 3 (drop 4 done) |} ]
      else [])
  ++ (if (7 <=? n)%nat
      then [ {| title := VStr "Ingest Options";
                group_argument_default := arg_default;
                group_conflict_handler := handler;
                _group_actions := drop 7 done |} ]
      else []).

Ltac conflict_step Hc Herr Hfc :=
  try rewrite add_argument_group_extend;
  cbn [first_conflict] in Hfc;
  lazymatch type of Hfc with
  | match taken ?P ?os with _ => _ end = _ =>
      let Hos := fresh "Hos" in
      destruct (taken P os) as [ | ? ?] eqn:Hos;
      [ apply taken_nil in Hos;
        erewrite add_argument_extend;
        [ | exact Hc | reflexivity | by repeat constructor | discriminate
          | reflexivity
          | first [ apply make_action_split | vm_compute; reflexivity ]
          | by repeat constructor
          | refine (bool_decide_unpack _ _); vm_compute; exact I
          | apply Forall_and; split; [exact Hos | by repeat constructor] ]
      | injection Hfc as <- <-; rewrite Hos;
        erewrite add_argument_taken;
        [ | exact Hc | reflexivity | exact Herr | by repeat constructor
          | discriminate
          | reflexivity
          | first [ apply make_action_split | vm_compute; reflexivity ]
          | by repeat constructor
          | exact Hos ];
        reflexivity ]
  end.

Lemma StoqArgs_conflict_at parser h P n os :
  h !! parser = Some P →
  char_in "-" (prefix_chars P) = true →
  conflict_handler P = "error" →
  first_conflict P 0 stoq_calls = Some (n, os) →
  StoqArgs parser h
  = (Raise (ArgumentError (String.concat "/" os)
                          (conflicting_option_strings (taken P os))),
     <[parser :=
         extend P
           (take n (stoq_actions (inherited_default P "combined_results" True_)))
           (option_table
              (take n (stoq_actions
                         (inherited_default P "combined_results" True_))))
           (stoq_groups_after
              (argument_default P) (conflict_handler P)
              (take n (stoq_actions
                         (inherited_default P "combined_results" True_)))
              n)]> h).
Proof.
  intros HP Hc Herr Hfc.
  transitivity (StoqArgs parser (<[parser := extend P [] [] []]> h)).
  { by rewrite extend_nil, insert_id. }
  unfold stoq_calls in Hfc. unfold StoqArgs.
  do 15 (conflict_step Hc Herr Hfc).
  discriminate Hfc.
Qed.

Lemma StoqArgs_unallocated parser h :
  h !! parser = None → StoqArgs parser h = (Raise AttributeError, h).
Proof.
  intros HP. unfold StoqArgs. apply mbind_Raise.
  unfold add_argument_group. by rewrite HP.
Qed.

(** A returning [StoqArgs], on a parser whose conflict handler is
    ['error'], ran with the dash among the prefix characters and none of
    the option strings registered, and left the parser extended. *)
Lemma StoqArgs_returns_inv parser h P r h' :
  h !! parser = Some P →
  conflict_handler P = "error" →
  StoqArgs parser h = (Ok r, h') →
  char_in "-" (prefix_chars P) = true
  ∧ Forall (λ o, dict_get o (_option_string_actions P) = None)
           stoq_option_strings
  ∧ StoqArgs parser h
         = (Ok parser,
            <[parser :=
                extend P
                  (stoq_actions (inherited_default P "combined_results" True_))
                  (option_table
                     (stoq_actions
                        (inherited_default P "combined_results" True_)))
                  (stoq_groups
                     (argument_default P) (conflict_handler P)
                     (stoq_actions
                        (inherited_default P "combined_results" True_)))]> h).
Proof.
  intros HP Herr H.
  destruct (char_in "-" (prefix_chars P)) eqn:Hc.
  - split; [reflexivity | ].
    destruct (first_conflict P 0 stoq_calls) as [[n os] | ] eqn:Hfc.
    + rewrite (StoqArgs_conflict_at _ _ _ _ _ HP Hc Herr Hfc) in H.
      discriminate.
    + apply first_conflict_none in Hfc.
      change (concat stoq_calls) with stoq_option_strings in Hfc.
      split; [exact Hfc | ]. by apply StoqArgs_extend.
  - rewrite (StoqArgs_without_dash _ _ _ HP Hc) in H. discriminate.
Qed.

Lemma first_conflict_here P n os calls :
  taken P os ≠ [] → first_conflict P n (os :: calls) = Some (n, os).
Proof. cbn [first_conflict]. by destruct (taken P os). Qed.

(** [-L] or [--loglevel] is taken and the conflict handler is ['error']:
    the first call of [StoqArgs] raises, after the group was opened. *)
Lemma StoqArgs_loglevel_taken parser h P :
  h !! parser = Some P →
  char_in "-" (prefix_chars P) = true →
  conflict_handler P = "error" →
  taken P ["-L"; "--loglevel"] ≠ [] →
  StoqArgs parser h
  = (Raise (ArgumentError "-L/--loglevel"
              (conflicting_option_strings (taken P ["-L"; "--loglevel"]))),
     <[parser := extend P [] [] [general_options P]]> h).
Proof.
  intros HP Hc Herr Htaken.
  rewrite (StoqArgs_conflict_at parser h P 0 ["-L"; "--loglevel"] HP Hc Herr
             (first_conflict_here _ _ _ _ Htaken)).
  reflexivity.
Qed.

Lemma first_conflict_some P calls :
  ∀ n0 n os, first_conflict P n0 calls = Some (n, os) →
             taken P os ≠ [] ∧ os ∈ calls.
Proof.
  induction calls as [ | os0 calls IH]; intros n0 n os; [discriminate | ].
  cbn [first_conflict]. destruct (taken P os0) as [ | c cs] eqn:Hos0.
  - intros H. apply IH in H as [Hne Hin].
    split; [exact Hne | by apply list_elem_of_further].
  - intros [= <- <-]. split; [by rewrite Hos0 | apply list_elem_of_here].
Qed.

(** X9. [StoqArgs] on any parser, fresh or not.  When the dash is among
    the parser's prefix characters and none of the twenty-seven option
    strings is registered, [StoqArgs] returns the parser with the fifteen
    actions behind the actions it had, their option strings behind the ones
    it had, and the three groups behind its groups, each group with its own
    actions; nothing else of the parser changes.  The actions are those of
    the fresh parser, with default [False], except for the default of
    [combined_results]: the call gives none, so it is the parser's
    [set_defaults] value for that destination if there is one, else the
    parser's [argument_default] if that is set, and [True] only
    otherwise. *)
Theorem StoqArgs_on_any_parser (parser : loc) (h : Heap) (P : ArgumentParser) :
  h !! parser = Some P →
  char_in "-" (prefix_chars P) = true →
  Forall (λ o, dict_get o (_option_string_actions P) = None)
         stoq_option_strings →
  ∃ P',
    StoqArgs parser h = (Ok parser, <[parser := P']> h)
    ∧ _actions P'
      = _actions P
        ++ stoq_actions (inherited_default P "combined_results" True_)
    ∧ _option_string_actions P'
      = _option_string_actions P
        ++ option_table
             (stoq_actions (inherited_default P "combined_results" True_))
    ∧ _action_groups P'
      = _action_groups P
        ++ stoq_groups
             (argument_default P) (conflict_handler P)
             (stoq_actions (inherited_default P "combined_results" True_))
    ∧ (prefix_chars P' = prefix_chars P
       ∧ argument_default P' = argument_default P
       ∧ _defaults P' = _defaults P)
    ∧ Forall (λ a, default a
                   = if String.eqb (dest a) "combined_results"
                     then inherited_default P "combined_results" True_
                     else False_)
             (stoq_actions (inherited_default P "combined_results" True_))
    ∧ stoq_actions True_ = drop 1 (_actions stoq_parser).
Proof.
  intros HP Hc Hfree. eexists. split; [by apply StoqArgs_extend | ].
  do 3 (split; [reflexivity | ]). split; [by repeat split | ].
  split; [ | reflexivity].
  generalize (inherited_default P "combined_results" True_). intros v.
  unfold stoq_actions. vm_compute. repeat constructor.
Qed.

(** X10. [StoqArgs] is not all or nothing.  On a parser whose conflict
    handler is ['error'], the one argparse gives a parser unless it is
    built with another: when one of the option strings of [StoqArgs] is
    registered already, the first call that has such a string raises the
    conflict error, named after that call's option strings and listing the
    ones taken; the parser keeps the group or groups opened so far and the
    actions of the calls before, with their option strings.  (A parser
    built with the handler ['resolve'] takes the strings from the actions
    that had them and raises nothing; that handler is outside this
    statement.) *)
Theorem StoqArgs_stops_at_first_conflict (parser : loc) (h : Heap)
    (P : ArgumentParser) (n : nat) (os : list string) :
  h !! parser = Some P →
  char_in "-" (prefix_chars P) = true →
  conflict_handler P = "error" →
  first_conflict P 0 stoq_calls = Some (n, os) →
  ∃ P',
    StoqArgs parser h
    = (Raise (ArgumentError (String.concat "/" os)
                (conflicting_option_strings (taken P os))),
       <[parser := P']> h)
    ∧ taken P os ≠ []
    ∧ _actions P'
      = _actions P
        ++ take n (stoq_actions (inherited_default P "combined_results" True_))
    ∧ _option_string_actions P'
      = _option_string_actions P
        ++ option_table
             (take n (stoq_actions
                        (inherited_default P "combined_results" True_)))
    ∧ (length (_action_groups P) < length (_action_groups P'))%nat.
Proof.
  intros HP Hc Herr Hfc. eexists.
  split; [by apply StoqArgs_conflict_at | ].
  split; [by apply first_conflict_some in Hfc as [Hne _] | ].
  split; [reflexivity | ]. split; [reflexivity | ].
  unfold extend, stoq_groups_after. cbn [_action_groups].
  rewrite !length_app. cbn [length]. lia.
Qed.

(** X11. When [StoqArgs] returns, on a parser whose conflict handler is
    ['error']: exactly when the parser has the dash among its prefix
    characters and none of the twenty-seven option strings of [StoqArgs]
    registered.  (With the handler ['resolve'] registered option strings
    do not stop [StoqArgs]; that handler is outside this statement.) *)
Theorem StoqArgs_returns_iff (parser : loc) (h : Heap) (P : ArgumentParser) :
  h !! parser = Some P →
  conflict_handler P = "error" →
  (∃ r h', StoqArgs parser h = (Ok r, h'))
  ↔ char_in "-" (prefix_chars P) = true
    ∧ Forall (λ o, dict_get o (_option_string_actions P) = None)
             stoq_option_strings.
Proof.
  intros HP Herr. split.
  - intros (r & h' & H).
    apply (StoqArgs_returns_inv _ _ _ _ _ HP Herr) in H as (Hc & Hfree & _).
    by split.
  - intros (Hc & Hfree). do 2 eexists. by apply StoqArgs_extend.
Qed.

(** X12. [StoqArgs] cannot be applied twice to a parser whose conflict
    handler is ['error'].  On the parser a first call returned, a second
    call raises the conflict of [-L/--loglevel] with both option strings;
    it leaves the parser with one more group, an empty
    ['General Options'], and the actions and option strings it had.  (A
    parser built with the handler ['resolve'] takes a second call; that
    handler is outside this statement.) *)
Theorem StoqArgs_twice (parser : loc) (h : Heap) (P : ArgumentParser)
    (r : loc) (h' : Heap) :
  h !! parser = Some P →
  conflict_handler P = "error" →
  StoqArgs parser h = (Ok r, h') →
  ∃ P' P'',
    h' !! r = Some P'
    ∧ StoqArgs r h'
      = (Raise (ArgumentError "-L/--loglevel"
                  (conflicting_option_strings ["-L"; "--loglevel"])),
         <[r := P'']> h')
    ∧ _actions P'' = _actions P'
    ∧ _option_string_actions P'' = _option_string_actions P'
    ∧ _action_groups P'' = _action_groups P' ++ [general_options P'].
Proof.
  intros HP Herr H.
  destruct (StoqArgs_returns_inv _ _ _ _ _ HP Herr H) as (Hc & Hfree & Hrun).
  rewrite Hrun in H. injection H as <- <-.
  set (v := inherited_default P "combined_results" True_).
  assert (HL : dict_get "-L" (option_table (stoq_actions v))
               = Some (stoq_action "-L")
               ∧ dict_get "--loglevel" (option_table (stoq_actions v))
                 = Some (stoq_action "-L")).
  { split; reflexivity. }
  unfold stoq_option_strings in Hfree.
  apply Forall_cons in Hfree as [HfL Hfree].
  apply Forall_cons in Hfree as [Hfl _].
  generalize dependent (option_table (stoq_actions v)). intros L [HL Hl].
  generalize (stoq_groups (argument_default P) (conflict_handler P)
                (stoq_actions v)).
  generalize (stoq_actions v). intros A G. clear v.
  assert (Htaken : taken (extend P A L G) ["-L"; "--loglevel"]
                   = ["-L"; "--loglevel"]).
  { unfold taken, extend. cbn [_option_string_actions].
    rewrite filter_cons_True by (rewrite dict_get_app, HfL, HL; by eexists).
    rewrite filter_cons_True by (rewrite dict_get_app, Hfl, Hl; by eexists).
    reflexivity. }
  exists (extend P A L G).
  exists (extend (extend P A L G) [] [] [general_options (extend P A L G)]).
  split; [apply lookup_insert_eq | ].
  split; [ | split; [ | split]].
  - rewrite (StoqArgs_loglevel_taken parser _ (extend P A L G));
      [ by rewrite Htaken | apply lookup_insert_eq | exact Hc | exact Herr
      | by rewrite Htaken ].
  - cbn [extend _actions]. apply app_nil_r.
  - cbn [extend _option_string_actions]. apply app_nil_r.
  - reflexivity.
Qed.

(** X13. A parser whose prefix characters do not include the dash:
    [StoqArgs] raises the ValueError of an invalid option string on its
    first call, and leaves the parser with the group it had opened. *)
Theorem StoqArgs_needs_the_dash (parser : loc) (h : Heap) (P : ArgumentParser) :
  h !! parser = Some P →
  char_in "-" (prefix_chars P) = false →
  ∃ P',
    StoqArgs parser h
    = (Raise (ValueError "invalid option string"), <[parser := P']> h)
    ∧ _actions P' = _actions P
    ∧ _option_string_actions P' = _option_string_actions P
    ∧ _action_groups P' = _action_groups P ++ [general_options P].
Proof.
  intros HP Hc. eexists. split; [by apply StoqArgs_without_dash | ].
  cbn [extend _actions _option_string_actions _action_groups].
  by rewrite !app_nil_r.
Qed.

(** ** What the destinations can hold *)

(** An option of arity one is never handed more than one string. *)
Definition arity_ok (t : ActionTuple) : Prop :=
  nargs (action_of t) = nargs_None → (length (snd (fst t)) ≤ 1)%nat.

Lemma match_following_arity action o pattern following acc tuples n :
  match_following action o pattern following acc = Ok (tuples, n) →
  Forall arity_ok acc → Forall arity_ok tuples.
Proof.
  unfold match_following. intros H Hacc. inv_bind H. injection H as <- <-.
  apply Forall_app. split; [exact Hacc | ].
  constructor; [ | constructor]. intros Hn. cbn [action_of fst snd] in *.
  unfold _match_argument in E. rewrite Hn in E.
  destruct (1 <=? leading_A pattern)%nat; [ | discriminate].
  injection E as <-. rewrite length_take. lia.
Qed.

Lemma match_explicit_arity P explicit_arg :
  ∀ action o pattern following acc tuples n,
    match_explicit P action o explicit_arg pattern following acc
      = Ok (tuples, n) →
    Forall arity_ok acc → Forall arity_ok tuples.
Proof.
  assert (Hnil : ∀ a o, arity_ok (a, [], o)).
  { intros a o _. cbn. lia. }
  assert (Hone : ∀ a e o, arity_ok (a, [e], o)).
  { intros a e o _. cbn. lia. }
  induction explicit_arg as [ | e rest IH]; intros action o pattern following
    acc tuples n H Hacc; simpl in H; inv_bind H;
    destruct o as [ | char [ | c1 o']]; try discriminate.
  - destruct x as [ | [ | k]]; destruct (char_in c1 (prefix_chars P));
      try discriminate; injection H as <- <-;
      apply Forall_app; split; [exact Hacc | | exact Hacc | ];
      by repeat constructor.
  - destruct x as [ | [ | k]]; destruct (char_in c1 (prefix_chars P));
      try discriminate;
      try (injection H as <- <-; apply Forall_app; split; [exact Hacc | ];
           by repeat constructor).
    destruct (dict_get _ _) as [action' | ] eqn:Hnext; [ | discriminate].
    assert (Hacc' : Forall arity_ok
                      (acc ++ [(action, [], String char (String c1 o'))])).
    { apply Forall_app. split; [exact Hacc | by repeat constructor]. }
    destruct rest as [ | e' rest'].
    + eapply match_following_arity; eauto.
    + eapply IH; eauto.
Qed.

Section PreservationArity.

(** As [consume_preserves], for a property that the actions keep when they
    are handed the strings their arity allows. *)
Variable P : ArgumentParser.
Variable Inv : ParseState → Prop.
Hypothesis Inv_extra : ∀ st s, Inv st → Inv (add_extra st s).
Hypothesis Inv_action :
  ∀ st st' action args o,
    registered P action → arity_ok (action, args, o) → Inv st →
    take_action st action args = Ok st' → Inv st'.

Lemma take_actions_preserves_arity tuples :
  ∀ st st',
    Forall (λ t, registered P (action_of t)) tuples →
    Forall arity_ok tuples → Inv st →
    take_actions st tuples = Ok st' → Inv st'.
Proof.
  induction tuples as [ | [[a args] o] tuples IH]; simpl;
    intros st st' Hreg Har HI H.
  - by injection H as <-.
  - inv_bind H. inversion Hreg; subst. inversion Har; subst.
    eapply IH; [eassumption | eassumption | | exact H].
    eapply Inv_action; eauto.
Qed.

Lemma consume_optional_preserves_arity st s t pattern following st' n :
  tuple_registered P t → Inv st →
  consume_optional P st s t pattern following = Ok (st', n) → Inv st'.
Proof.
  destruct t as [[[action | ] o] explicit_arg]; simpl; intros Hreg HI H.
  - inv_bind H. destruct x as [tuples k]. inv_bind H. injection H as <- <-.
    pose proof E as E'.
    apply option_tuples_inv in E' as [Htuples _]; [ | exact Hreg].
    eapply take_actions_preserves_arity; [exact Htuples | | exact HI | exact E0].
    destruct explicit_arg as [ea | ].
    + eapply match_explicit_arity; [exact E | constructor].
    + eapply match_following_arity; [exact E | constructor].
  - injection H as <- <-. by apply Inv_extra.
Qed.

Lemma consume_preserves_arity args :
  ∀ pattern skip st st',
    Forall (class_registered P) pattern → Inv st →
    consume P args pattern skip st = Ok st' → Inv st'.
Proof.
  induction args as [ | s args IH]; simpl; intros pattern skip st st' Hreg HI H.
  { by injection H as <-. }
  destruct pattern as [ | c pattern]; [by injection H as <- | ].
  inversion Hreg as [ | ? ? Hc Hpat]; subst.
  destruct skip as [ | skip]; [ | eapply IH; eauto].
  destruct c as [ | t | ].
  - eapply IH; [exact Hpat | | exact H]. by apply (Inv_extra st s).
  - inv_bind H. destruct x as [st1 stop].
    apply consume_optional_preserves_arity in E; auto.
    eapply IH; eauto.
  - eapply IH; [exact Hpat | | exact H]. by apply (Inv_extra st s).
Qed.

End PreservationArity.

Section Holds.

(** The values one destination can hold: what the defaults put there, or
    what its action stores. *)
Variable P : ArgumentParser.
Variable a : Action.
Variable ok : Value → Prop.
Hypothesis dest_own : ∀ b, registered P b → dest b = dest a → b = a.
Hypothesis stores_ok :
  ∀ st st' args o,
    arity_ok (a, args, o) → take_action st a args = Ok st' →
    ∃ v, namespace st' = <[dest a := v]> (namespace st) ∧ ok v.

Lemma destination_holds args ns seen :
  (∀ seen ns, finish (_actions P) seen ns [] = Ok (ns, [])) →
  parse_args_seen P args = Ok (ns, seen) →
  (∀ v, action_defaults P !! dest a = Some v → ok v) →
  ∀ v, ns !! dest a = Some v → ok v.
Proof.
  intros Hfin H.
  apply parse_args_seen_inv in H as (pattern & Hpat & Hrun); [ | exact Hfin].
  revert Hrun. generalize (action_defaults P). intros ns0 Hrun H0.
  set (Inv := λ st : ParseState,
                ∀ v, namespace st !! dest a = Some v → ok v).
  assert (Hextra : ∀ st s, Inv st → Inv (add_extra st s)).
  { intros st s HI. exact HI. }
  assert (Haction : ∀ st st' b l o,
             registered P b → arity_ok (b, l, o) → Inv st →
             take_action st b l = Ok st' → Inv st').
  { intros st st' b l o Hb Har HI Htake v.
    destruct (decide (dest b = dest a)) as [Heq | Hne].
    - rewrite (dest_own b Hb Heq) in Har, Htake.
      destruct (stores_ok _ _ _ _ Har Htake) as (v' & -> & Hv').
      rewrite lookup_insert_eq. by intros [= <-].
    - destruct (take_action_namespace _ _ _ _ Htake) as [-> | [v' ->]];
        [apply HI | ].
      rewrite lookup_insert_ne by exact Hne. apply HI. }
  exact (consume_preserves_arity P Inv Hextra Haction args pattern 0
           {| namespace := ns0; seen_actions := []; extras := [] |} _
           (arg_strings_pattern_registered _ _ _ Hpat) H0 Hrun).
Qed.

End Holds.

Lemma take_action_nothing st action :
  action_class action = _StoreAction → nargs action = nargs_None →
  take_action st action []
  = Ok {| namespace := <[dest action := VList []]> (namespace st);
          seen_actions := seen_actions st ++ [action];
          extras := extras st |}.
Proof.
  intros Hcls Hn. unfold take_action, _get_values.
  cbn [remove_dashdash]. rewrite Hn. cbn [convert_all check_all rbind].
  destruct (decide (VList [] = SUPPRESS)); [discriminate | ].
  unfold call_action. rewrite Hcls. reflexivity.
Qed.

(** What a store action of arity one without choices stores. *)
Lemma take_action_one st st' action args o :
  action_class action = _StoreAction → nargs action = nargs_None →
  choices action = None →
  arity_ok (action, args, o) →
  take_action st action args = Ok st' →
  ∃ v, namespace st' = <[dest action := v]> (namespace st)
       ∧ (v = VList [] ∨ ∃ s, _get_value action s = Ok v).
Proof.
  intros Hcls Hn Hch Har H. specialize (Har Hn). cbn [fst snd] in Har.
  destruct args as [ | x [ | y l]]; [ | | simpl in Har; lia].
  - rewrite take_action_nothing in H by assumption.
    apply Ok_inj in H. subst st'. eauto.
  - destruct (String.eqb_spec x "--") as [-> | Hx].
    + rewrite take_action_dashdash in H by assumption.
      apply Ok_inj in H. subst st'. eauto.
    + rewrite take_action_store in H by assumption.
      destruct (_get_value action x) as [v | e] eqn:Hv; [ | discriminate].
      cbn [rbind] in H. apply Ok_inj in H. subst st'. eauto.
Qed.

(** What an untyped [nargs='*'] store without choices stores. *)
Lemma take_action_strings st st' action args :
  action_class action = _StoreAction → nargs action = ZERO_OR_MORE →
  type_ action = VNone → choices action = None →
  take_action st action args = Ok st' →
  ∃ v, namespace st' = <[dest action := v]> (namespace st)
       ∧ ∃ l, v = VList (map VStr l).
Proof.
  intros Hcls Hn Hty Hch. unfold take_action, _get_values.
  generalize (remove_dashdash args). intros vs. rewrite Hn.
  assert (Hlist : (let* value := convert_all action vs in
                   let* _ := check_all action value in
                   Ok (VList value)) = Ok (VList (map VStr vs))).
  { rewrite (convert_all_strings _ _ Hty). cbn [rbind].
    by rewrite (check_all_no_choices _ _ Hch). }
  assert (Hvalues :
            match vs, ZERO_OR_MORE with
            | [], OPTIONAL =>
                match const action with
                | VStr s0 =>
                    let* value := _get_value action s0 in
                    let* _ := _check_value action value in
                    Ok value
                | value => Ok value
                end
            | [arg_string], (nargs_None | OPTIONAL) =>
                let* value := _get_value action arg_string in
                let* _ := _check_value action value in
                Ok value
            | _, _ =>
                let* value := convert_all action vs in
                let* _ := check_all action value in
                Ok (VList value)
            end = Ok (VList (map VStr vs))).
  { destruct vs as [ | v [ | v' vs']]; exact Hlist. }
  rewrite Hvalues. cbn [rbind].
  destruct (decide (VList (map VStr vs) = SUPPRESS)); [discriminate | ].
  unfold call_action. rewrite Hcls. cbn [rbind].
  intros H. apply Ok_inj in H. subst st'. cbn [namespace]. eauto.
Qed.

Section StoqHolds.

Variables (args : list string) (ns : Namespace) (seen : list Action).
Hypothesis returns : parse_args_seen stoq_parser args = Ok (ns, seen).
Variable a : Action.
Hypothesis a_registered : registered stoq_parser a.
Hypothesis a_default : action_defaults stoq_parser !! dest a = Some False_.
Hypothesis a_store : action_class a = _StoreAction.
Hypothesis a_choices : choices a = None.

Lemma stoq_text_holds v :
  nargs a = nargs_None → type_ a = VNone →
  ns !! dest a = Some v →
  v = False_ ∨ v = VList [] ∨ ∃ s, v = VStr s.
Proof.
  intros Hn Hty.
  apply (destination_holds stoq_parser a
           (λ v, v = False_ ∨ v = VList [] ∨ ∃ s, v = VStr s)
           (λ b Hb, stoq_dest_own a b a_registered Hb))
    with args seen; [ | apply stoq_finish | exact returns | ].
  - intros st st' l o Har Htake.
    destruct (take_action_one _ _ _ _ _ a_store Hn a_choices Har Htake)
      as (v' & Hns & [Hv | (s & Hs)]); exists v'; (split; [exact Hns | ]);
      [by right; left | ].
    unfold _get_value in Hs. rewrite Hty in Hs. apply Ok_inj in Hs.
    right. right. eauto.
  - rewrite a_default. intros v0 [= <-]. by left.
Qed.

Lemma stoq_int_holds v :
  nargs a = nargs_None → type_ a = VBuiltin int →
  ns !! dest a = Some v →
  v = False_ ∨ v = VList [] ∨ ∃ s z, int_call s = Some z ∧ v = VInt z.
Proof.
  intros Hn Hty.
  apply (destination_holds stoq_parser a
           (λ v, v = False_ ∨ v = VList []
                 ∨ ∃ s z, int_call s = Some z ∧ v = VInt z)
           (λ b Hb, stoq_dest_own a b a_registered Hb))
    with args seen; [ | apply stoq_finish | exact returns | ].
  - intros st st' l o Har Htake.
    destruct (take_action_one _ _ _ _ _ a_store Hn a_choices Har Htake)
      as (v' & Hns & [Hv | (s & Hs)]); exists v'; (split; [exact Hns | ]);
      [by right; left | ].
    unfold _get_value in Hs. rewrite Hty in Hs.
    destruct (int_call s) as [z | ] eqn:Hz; [ | discriminate].
    apply Ok_inj in Hs. right. right. eauto.
  - rewrite a_default. intros v0 [= <-]. by left.
Qed.

Lemma stoq_list_holds v :
  nargs a = ZERO_OR_MORE → type_ a = VNone →
  ns !! dest a = Some v →
  v = False_ ∨ ∃ l, v = VList (map VStr l).
Proof.
  intros Hn Hty.
  apply (destination_holds stoq_parser a
           (λ v, v = False_ ∨ ∃ l, v = VList (map VStr l))
           (λ b Hb, stoq_dest_own a b a_registered Hb))
    with args seen; [ | apply stoq_finish | exact returns | ].
  - intros st st' l o _ Htake.
    destruct (take_action_strings _ _ _ _ a_store Hn Hty a_choices Htake)
      as (v' & Hns & Hl).
    exists v'. split; [exact Hns | by right].
  - rewrite a_default. intros v0 [= <-]. by left.
Qed.

End StoqHolds.

Lemma stoq_action_registered o :
  is_Some (dict_get o (_option_string_actions stoq_parser)) →
  registered stoq_parser (stoq_action o).
Proof.
  intros [action Hget]. unfold stoq_action. rewrite Hget.
  eapply dict_get_registered, Hget.
Qed.

(** X14. What the value destinations hold after any accepted argument
    list.  A free-text destination holds [False], a string, or the empty
    list; an integer destination holds [False], an integer that [int]
    returned, or the empty list; [ingest_metadata] holds [False] or a list
    of strings.  The empty list is what an option of arity one stores when
    its attached value is ['--']; no longer list can reach such a
    destination. *)
Theorem destinations_hold (args : list string) (ns : Namespace) :
  parse_args stoq_parser args = Ok ns →
  (∀ d, d ∈ ["template"; "output_connector"; "archive_connector"; "path";
             "outfile"; "source_plugin"; "ratelimit"] →
        ∃ v, ns !! d = Some v
             ∧ (v = False_ ∨ v = VList [] ∨ ∃ s, v = VStr s))
  ∧ (∀ d, d ∈ ["max_processes"; "max_recursion"] →
          ∃ v, ns !! d = Some v
               ∧ (v = False_ ∨ v = VList []
                  ∨ ∃ s z, int_call s = Some z ∧ v = VInt z))
  ∧ (∃ v, ns !! "ingest_metadata" = Some v
          ∧ (v = False_ ∨ ∃ l, v = VList (map VStr l))).
Proof.
  intros H. apply parse_args_seen_iff in H as [seen H].
  pose proof (inv_dests _ (stoq_parse_inv _ _ _ H)) as Hdests.
  unfold dests_inv in Hdests. cbn [namespace] in Hdests.
  assert (Hsome : ∀ o, dest (stoq_action o) ∈ stoq_dests →
                       ∃ v, ns !! dest (stoq_action o) = Some v).
  { intros o Ho. by apply Hdests in Ho as [v Hv]; eauto. }
  assert (Htext :
            ∀ o, dest (stoq_action o) ∈ stoq_dests →
                 registered stoq_parser (stoq_action o) →
                 action_defaults stoq_parser !! dest (stoq_action o)
                 = Some False_ →
                 action_class (stoq_action o) = _StoreAction →
                 choices (stoq_action o) = None →
                 nargs (stoq_action o) = nargs_None →
                 type_ (stoq_action o) = VNone →
                 ∃ v, ns !! dest (stoq_action o) = Some v
                      ∧ (v = False_ ∨ v = VList [] ∨ ∃ s, v = VStr s)).
  { intros o Ho Hreg Hdef Hcls Hch Hn Hty.
    destruct (Hsome o Ho) as [v Hv]. exists v. split; [exact Hv | ].
    by apply (stoq_text_holds args ns seen H (stoq_action o)). }
  assert (Hint :
            ∀ o, dest (stoq_action o) ∈ stoq_dests →
                 registered stoq_parser (stoq_action o) →
                 action_defaults stoq_parser !! dest (stoq_action o)
                 = Some False_ →
                 action_class (stoq_action o) = _StoreAction →
                 choices (stoq_action o) = None →
                 nargs (stoq_action o) = nargs_None →
                 type_ (stoq_action o) = VBuiltin int →
                 ∃ v, ns !! dest (stoq_action o) = Some v
                      ∧ (v = False_ ∨ v = VList []
                         ∨ ∃ s z, int_call s = Some z ∧ v = VInt z)).
  { intros o Ho Hreg Hdef Hcls Hch Hn Hty.
    destruct (Hsome o Ho) as [v Hv]. exists v. split; [exact Hv | ].
    by apply (stoq_int_holds args ns seen H (stoq_action o)). }
  assert (Hlist :
            ∀ o, dest (stoq_action o) ∈ stoq_dests →
                 registered stoq_parser (stoq_action o) →
                 action_defaults stoq_parser !! dest (stoq_action o)
                 = Some False_ →
                 action_class (stoq_action o) = _StoreAction →
                 choices (stoq_action o) = None →
                 nargs (stoq_action o) = ZERO_OR_MORE →
                 type_ (stoq_action o) = VNone →
                 ∃ v, ns !! dest (stoq_action o) = Some v
                      ∧ (v = False_ ∨ ∃ l, v = VList (map VStr l))).
  { intros o Ho Hreg Hdef Hcls Hch Hn Hty.
    destruct (Hsome o Ho) as [v Hv]. exists v. split; [exact Hv | ].
    by apply (stoq_list_holds args ns seen H (stoq_action o)). }
  clear H Hdests Hsome.
  split; [ | split].
  - intros d Hd. clear Hint Hlist.
    repeat (apply elem_of_cons in Hd as [-> | Hd]);
      [ apply (Htext "-T") | apply (Htext "-C") | apply (Htext "-A")
      | apply (Htext "-F") | apply (Htext "-O") | apply (Htext "-I")
      | apply (Htext "--rate-limit") | by apply elem_of_nil in Hd ];
      first [ reflexivity
            | by vm_compute
            | refine (bool_decide_unpack _ _); vm_compute; exact I
            | apply stoq_action_registered; eexists; reflexivity ].
  - intros d Hd. clear Htext Hlist.
    repeat (apply elem_of_cons in Hd as [-> | Hd]);
      [ apply (Hint "-M") | apply (Hint "-R") | by apply elem_of_nil in Hd ];
      first [ reflexivity
            | by vm_compute
            | refine (bool_decide_unpack _ _); vm_compute; exact I
            | apply stoq_action_registered; eexists; reflexivity ].
  - clear Htext Hint.
    apply (Hlist "--metadata");
      first [ reflexivity
            | by vm_compute
            | refine (bool_decide_unpack _ _); vm_compute; exact I
            | apply stoq_action_registered; eexists; reflexivity ].
Qed.

(** ** Short options with something attached *)

(** A string that is no option string, and whose part before an equals
    sign is none either, is read as the one option it abbreviates. *)
Lemma _parse_optional_single P c0 rest t :
  char_in c0 (prefix_chars P) = true →
  dict_get (String c0 rest) (_option_string_actions P) = None →
  rest ≠ "" →
  (∀ os ea, split_once "=" (String c0 rest) = Some (os, ea) →
            dict_get os (_option_string_actions P) = None) →
  _get_option_tuples P (String c0 rest) = Ok [t] →
  _parse_optional P (String c0 rest) = Ok (Some t).
Proof.
  intros Hc Hget Hrest Hsplit Htuples. unfold _parse_optional.
  rewrite Hc, Hget. cbn [negb].
  destruct (String.eqb_spec rest "") as [ | _]; [contradiction | ].
  destruct (split_once "=" (String c0 rest)) as [[os ea] | ] eqn:Hs.
  - rewrite (Hsplit os ea eq_refl), Htuples. reflexivity.
  - rewrite Htuples. reflexivity.
Qed.

Lemma short_attached (x e0 : ascii) (e' : string) :
  x ∈ ["T"; "C"; "A"; "F"; "O"; "I"; "M"; "R"]%char →
  e0 ≠ "="%char →
  _parse_optional stoq_parser (String "-" (String x (String e0 e')))
  = Ok (Some (Some (stoq_action (String "-" (String x ""))),
              String "-" (String x ""), Some (String e0 e'))).
Proof.
  intros Hx He0. apply Ascii.eqb_neq in He0.
  repeat (apply elem_of_cons in Hx as [-> | Hx]);
    [ .. | by apply elem_of_nil in Hx];
    (apply _parse_optional_single;
     [ reflexivity | vm_compute; reflexivity | discriminate
     | intros os ea Hs; simpl in Hs; rewrite He0 in Hs;
       destruct (split_once "=" e') as [[a b] | ]; [ | discriminate];
       apply (inj Some) in Hs; injection Hs as <- _;
       vm_compute; reflexivity
     | vm_compute; reflexivity ]).
Qed.

(** X15. The value of a short free-text option can be written directly
    behind the letter ([-Fsample.bin]).  Whatever follows the letter is
    stored unchanged, a leading dash or an equals sign further on
    included; the one exception is ['--'], for which the destination holds
    the empty list.  (When the first character behind the letter is the
    equals sign, the value starts after it.) *)
Theorem short_options_attached (x : ascii) (d : string) (e0 : ascii)
    (e' : string) :
  (x, d) ∈ [("T"%char, "template"); ("C"%char, "output_connector");
            ("A"%char, "archive_connector"); ("F"%char, "path");
            ("O"%char, "outfile"); ("I"%char, "source_plugin")] →
  e0 ≠ "="%char →
  parse_args stoq_parser [String "-" (String x (String e0 e'))]
  = Ok (<[d := if String.eqb (String e0 e') "--" then VList []
               else VStr (String e0 e')]>
          (action_defaults stoq_parser)).
Proof.
  intros Hx He0. unfold parse_args.
  repeat (apply elem_of_cons in Hx as [[= -> ->] | Hx]);
    [ .. | by apply elem_of_nil in Hx];
    (erewrite option_with_explicit;
     [ | apply stoq_finish | discriminate
       | apply short_attached;
         [refine (bool_decide_unpack _ _); vm_compute; exact I | exact He0]
       | cbn; lia | reflexivity ]);
    (destruct (String.eqb_spec (String e0 e') "--") as [Heq | Hne];
     [ rewrite Heq, take_action_dashdash by reflexivity
     | rewrite take_action_store by (reflexivity || exact Hne) ]);
    reflexivity.
Qed.

Section Cluster.

(** Flags with one-letter option strings on a parser with the default
    prefix character: [F c] is the flag behind [-c]. *)
Variable P : ArgumentParser.
Variable is_flag : ascii → Prop.
Variable F : ascii → Action.
Hypothesis prefix_dash : prefix_chars P = "-".
Hypothesis finish_nothing :
  ∀ seen ns, finish (_actions P) seen ns [] = Ok (ns, []).
Hypothesis F_get :
  ∀ c, is_flag c →
       dict_get (String "-" (String c "")) (_option_string_actions P)
       = Some (F c).
Hypothesis F_class :
  ∀ c, is_flag c →
       action_class (F c) = _StoreTrueAction
       ∨ action_class (F c) = _StoreFalseAction.
Hypothesis F_nargs : ∀ c, is_flag c → nargs (F c) = nargs_int 0.
Hypothesis flag_not_dash : ∀ c, is_flag c → c ≠ "-"%char.

Definition short (c : ascii) : string := String "-" (String c "").

Definition set_flag (ns : Namespace) (c : ascii) : Namespace :=
  <[dest (F c) := const (F c)]> ns.

Definition flag_tuple (c : ascii) : ActionTuple := (F c, [], short c).

Lemma match_explicit_flag_step action action' char c1 o' e rest
    pattern following acc :
  nargs action = nargs_int 0 →
  char_in c1 (prefix_chars P) = false →
  dict_get (String char (String e "")) (_option_string_actions P)
  = Some action' →
  match_explicit P action (String char (String c1 o')) (String e rest)
                 pattern following acc
  = match rest with
    | "" =>
        match_following action' (String char (String e "")) pattern following
          (acc ++ [(action, [], String char (String c1 o'))])
    | _ =>
        match_explicit P action' (String char (String e "")) rest
          pattern following
          (acc ++ [(action, [], String char (String c1 o'))])
    end.
Proof.
  intros Hn Hc Hget. cbn [match_explicit]. unfold _match_argument at 1.
  rewrite Hn. cbn [leading_A Nat.leb rbind]. by rewrite Hc, Hget.
Qed.

Lemma match_explicit_cluster (cluster : list ascii) :
  ∀ c r pattern following acc,
    Forall is_flag (c :: r :: cluster) →
    match_explicit P (F c) (short c) (string_of_list_ascii (r :: cluster))
                   pattern following acc
    = Ok (acc ++ map flag_tuple (c :: r :: cluster), 0).
Proof.
  induction cluster as [ | r' cluster IH]; intros c r pattern following acc Hall;
    apply Forall_cons in Hall as [Hc Hall];
    pose proof Hall as Hall';
    apply Forall_cons in Hall' as [Hr Hrest];
    change (string_of_list_ascii (r :: ?l))
      with (String r (string_of_list_ascii l));
    unfold short at 1;
    (rewrite (match_explicit_flag_step (F c) (F r));
     [ | by apply F_nargs
       | rewrite prefix_dash; cbn [char_in]; rewrite orb_false_r;
         by apply Ascii.eqb_neq, flag_not_dash
       | by apply F_get ]).
  - cbn [string_of_list_ascii].
    unfold match_following, _match_argument. rewrite (F_nargs r Hr).
    cbn [Nat.leb rbind take map]. by rewrite <- app_assoc.
  - cbn [string_of_list_ascii].
    pose proof (IH r r' pattern following (acc ++ [flag_tuple c]) Hall) as H1.
    rewrite <- app_assoc in H1. exact H1.
Qed.

Lemma take_actions_flags (cluster : list ascii) :
  ∀ st, Forall is_flag cluster →
        take_actions st (map flag_tuple cluster)
        = Ok {| namespace := foldl set_flag (namespace st) cluster;
                seen_actions := seen_actions st ++ map F cluster;
                extras := extras st |}.
Proof.
  induction cluster as [ | c cluster IH]; intros st Hall.
  { cbn [map take_actions foldl]. rewrite app_nil_r. by destruct st. }
  apply Forall_cons in Hall as [Hc Hall].
  cbn [map take_actions flag_tuple foldl].
  rewrite (take_action_flag st (F c) (F_class c Hc) (F_nargs c Hc)).
  cbn [rbind]. rewrite (IH _ Hall). cbn [namespace seen_actions extras].
  by rewrite <- app_assoc.
Qed.

(** The flags one by one. *)
Lemma flags_apart (cluster : list ascii) :
  Forall is_flag cluster →
  parse_args_seen P (map short cluster)
  = Ok (foldl set_flag (action_defaults P) cluster, map F cluster).
Proof.
  induction cluster as [ | c cluster IH] using rev_ind; intros Hall.
  { by apply parse_args_nil. }
  apply Forall_app in Hall as [Hall Hc]. apply Forall_cons in Hc as [Hc _].
  rewrite map_app. cbn [map].
  rewrite (append_option P _ (short c) (F c) [] _ _ finish_nothing (IH Hall)).
  - rewrite (take_action_flag _ (F c) (F_class c Hc) (F_nargs c Hc)).
    cbn [parse_outcome extras namespace seen_actions].
    by rewrite foldl_app, map_app.
  - unfold short. intros [= Heq]. by apply (flag_not_dash c).
  - apply key_parse; [exact prefix_dash | reflexivity | by apply F_get].
  - constructor.
  - unfold _match_argument. by rewrite (F_nargs c Hc).
Qed.

(** The flags in one string. *)
Lemma flags_together (c r : ascii) (cluster : list ascii) :
  Forall is_flag (c :: r :: cluster) →
  _parse_optional P (String "-" (string_of_list_ascii (c :: r :: cluster)))
  = Ok (Some (Some (F c), short c,
              Some (string_of_list_ascii (r :: cluster)))) →
  parse_args_seen P [String "-" (string_of_list_ascii (c :: r :: cluster))]
  = Ok (foldl set_flag (action_defaults P) (c :: r :: cluster),
        map F (c :: r :: cluster)).
Proof.
  intros Hall Hopt.
  rewrite (parse_args_seen_eq P _
             [cls_O (Some (F c), short c,
                     Some (string_of_list_ascii (r :: cluster)))]
             finish_nothing).
  - generalize (action_defaults P). intros ns0.
    cbn [consume]. unfold consume_optional.
    rewrite (match_explicit_cluster cluster c r [] [] [] Hall).
    cbn [rbind app]. rewrite (take_actions_flags _ _ Hall).
    cbn [rbind consume parse_outcome extras namespace seen_actions app].
    reflexivity.
  - cbn [arg_strings_pattern].
    destruct (String.eqb_spec
                (String "-" (string_of_list_ascii (c :: r :: cluster))) "--")
      as [Heq | _].
    + exfalso. cbn [string_of_list_ascii] in Heq. injection Heq as Heq _.
      apply Forall_cons in Hall as [Hc _]. by apply (flag_not_dash c).
    + by rewrite Hopt.
Qed.

End Cluster.

Lemma split_once_absent (sep : ascii) (l : list ascii) :
  Forall (λ c, c ≠ sep) l → split_once sep (string_of_list_ascii l) = None.
Proof.
  induction 1 as [ | c l Hc _ IH]; [reflexivity | ].
  cbn [string_of_list_ascii split_once].
  apply Ascii.eqb_neq in Hc. by rewrite Hc, IH.
Qed.

(** The three flags of [StoqArgs]. *)
Definition stoq_flag (c : ascii) : Prop := c ∈ ["S"; "E"; "D"]%char.

Lemma stoq_cluster_parse (c r : ascii) (cluster : list ascii) :
  Forall stoq_flag (c :: r :: cluster) →
  _parse_optional stoq_parser
                  (String "-" (string_of_list_ascii (c :: r :: cluster)))
  = Ok (Some (Some (stoq_action (String "-" (String c ""))),
              String "-" (String c ""),
              Some (string_of_list_ascii (r :: cluster)))).
Proof.
  intros Hall.
  assert (Hsplit : split_once "="
                     (String "-" (string_of_list_ascii (c :: r :: cluster)))
                   = None).
  { change (String "-" (string_of_list_ascii (c :: r :: cluster)))
      with (string_of_list_ascii ("-"%char :: c :: r :: cluster)).
    apply split_once_absent. constructor; [discriminate | ].
    eapply Forall_impl; [exact Hall | ]. intros x Hx. unfold stoq_flag in Hx.
    repeat (apply elem_of_cons in Hx as [-> | Hx]);
      [discriminate .. | by apply elem_of_nil in Hx]. }
  apply Forall_cons in Hall as [Hc _]. unfold stoq_flag in Hc.
  change (string_of_list_ascii (c :: r :: cluster))
    with (String c (String r (string_of_list_ascii cluster))) in *.
  change (string_of_list_ascii (r :: cluster))
    with (String r (string_of_list_ascii cluster)).
  generalize dependent (string_of_list_ascii cluster). intros rest Hsplit.
  repeat (apply elem_of_cons in Hc as [-> | Hc]);
    [ .. | by apply elem_of_nil in Hc];
    (apply _parse_optional_single;
     [ reflexivity | vm_compute; reflexivity | discriminate
     | intros os ea Hs; rewrite Hsplit in Hs; discriminate
     | vm_compute; reflexivity ]).
Qed.

(** X16. The flags [-S], [-E] and [-D] can be written in one string, in
    any order and any number of times ([-SED], [-DS]): the string is
    accepted, and the result is that of the same flags given one by one,
    the defaults with the constant of each flag that occurs. *)
Theorem flag_clusters (cluster : list ascii) :
  cluster ≠ [] →
  Forall (λ c, c ∈ ["S"; "E"; "D"]%char) cluster →
  parse_args stoq_parser [String "-" (string_of_list_ascii cluster)]
  = parse_args stoq_parser (map (λ c, String "-" (String c "")) cluster)
  ∧ parse_args stoq_parser [String "-" (string_of_list_ascii cluster)]
    = Ok (foldl (λ ns c,
                   <[dest (stoq_action (String "-" (String c ""))) :=
                       const (stoq_action (String "-" (String c "")))]> ns)
                (action_defaults stoq_parser) cluster).
Proof.
  intros Hne Hall.
  set (F := λ c : ascii, stoq_action (String "-" (String c ""))).
  assert (Hget : ∀ c, stoq_flag c →
                      dict_get (String "-" (String c ""))
                               (_option_string_actions stoq_parser)
                      = Some (F c)).
  { intros c Hc. unfold stoq_flag in Hc.
    repeat (apply elem_of_cons in Hc as [-> | Hc]);
      [reflexivity .. | by apply elem_of_nil in Hc]. }
  assert (Hcls : ∀ c, stoq_flag c →
                      action_class (F c) = _StoreTrueAction
                      ∨ action_class (F c) = _StoreFalseAction).
  { intros c Hc. unfold stoq_flag in Hc.
    repeat (apply elem_of_cons in Hc as [-> | Hc]);
      [by right | by left | by left | by apply elem_of_nil in Hc]. }
  assert (Hn : ∀ c, stoq_flag c → nargs (F c) = nargs_int 0).
  { intros c Hc. unfold stoq_flag in Hc.
    repeat (apply elem_of_cons in Hc as [-> | Hc]);
      [reflexivity .. | by apply elem_of_nil in Hc]. }
  assert (Hdash : ∀ c, stoq_flag c → c ≠ "-"%char).
  { intros c Hc. unfold stoq_flag in Hc.
    repeat (apply elem_of_cons in Hc as [-> | Hc]);
      [discriminate .. | by apply elem_of_nil in Hc]. }
  pose proof (flags_apart stoq_parser stoq_flag F eq_refl stoq_finish
                Hget Hcls Hn Hdash cluster Hall) as Hapart.
  assert (Htogether :
            parse_args_seen stoq_parser
                            [String "-" (string_of_list_ascii cluster)]
            = Ok (foldl (set_flag F) (action_defaults stoq_parser) cluster,
                  map F cluster)).
  { clear Hapart. destruct cluster as [ | c [ | r cluster]].
    - by destruct Hne.
    - change [String "-" (string_of_list_ascii [c])] with (map short [c]).
      exact (flags_apart stoq_parser stoq_flag F eq_refl stoq_finish
               Hget Hcls Hn Hdash [c] Hall).
    - apply (flags_together stoq_parser stoq_flag F eq_refl stoq_finish
               Hget Hcls Hn Hdash c r cluster Hall).
      by apply stoq_cluster_parse. }
  unfold parse_args. rewrite Htogether.
  change (map (λ c, String "-" (String c "")) cluster)
    with (map short cluster).
  rewrite Hapart. split; reflexivity.
Qed.

(** ** The default TLP *)

Lemma py_in_VStr_true s (l : list string) :
  py_in (VStr s) (map VStr l) = true → s ∈ l.
Proof.
  intros H. destruct (decide (s ∈ l)) as [Hs | Hs]; [exact Hs | ].
  rewrite (py_in_VStr_false _ _ Hs) in H. discriminate.
Qed.

(** [take_action] of an untyped store action on one string among its
    choices. *)
Lemma take_action_good_choice st action v l :
  v ≠ "--" → action_class action = _StoreAction →
  nargs action = nargs_None → type_ action = VNone →
  choices action = Some l → py_in (VStr v) l = true →
  take_action st action [v]
  = Ok {| namespace := <[dest action := VStr v]> (namespace st);
          seen_actions := seen_actions st ++ [action];
          extras := extras st |}.
Proof.
  intros Hv Hcls Hn Hty Hch Hin. unfold take_action, _get_values.
  cbn [remove_dashdash].
  destruct (String.eqb_spec v "--") as [ | _]; [contradiction | ].
  rewrite Hn. unfold _get_value. rewrite Hty. cbn [rbind].
  unfold _check_value. rewrite Hch, Hin. cbn [rbind].
  destruct (decide (VStr v = SUPPRESS)); [discriminate | ].
  unfold call_action. rewrite Hcls. reflexivity.
Qed.

(** What an untyped store action of arity one with choices stores: one of
    the choices, or the empty list. *)
Lemma take_action_choice st st' action l args o :
  action_class action = _StoreAction → nargs action = nargs_None →
  type_ action = VNone → choices action = Some l →
  arity_ok (action, args, o) →
  take_action st action args = Ok st' →
  ∃ v, namespace st' = <[dest action := v]> (namespace st)
       ∧ (v = VList [] ∨ ∃ s, v = VStr s ∧ py_in (VStr s) l = true).
Proof.
  intros Hcls Hn Hty Hch Har H. specialize (Har Hn). cbn [fst snd] in Har.
  destruct args as [ | x [ | y l']]; [ | | simpl in Har; lia].
  - rewrite take_action_nothing in H by assumption.
    apply Ok_inj in H. subst st'. eauto.
  - destruct (String.eqb_spec x "--") as [-> | Hx].
    + rewrite take_action_dashdash in H by assumption.
      apply Ok_inj in H. subst st'. eauto.
    + destruct (py_in (VStr x) l) eqn:Hin.
      * rewrite (take_action_good_choice _ _ _ l) in H by assumption.
        apply Ok_inj in H. subst st'. eexists. split; [reflexivity | ].
        right. by exists x.
      * rewrite (take_action_bad_choice _ _ _ l) in H by assumption.
        discriminate.
Qed.

Section StoqChoice.

Variables (args : list string) (ns : Namespace) (seen : list Action).
Hypothesis returns : parse_args_seen stoq_parser args = Ok (ns, seen).
Variable a : Action.
Hypothesis a_registered : registered stoq_parser a.
Hypothesis a_default : action_defaults stoq_parser !! dest a = Some False_.
Hypothesis a_store : action_class a = _StoreAction.
Variable l : list string.
Hypothesis a_choices : choices a = Some (map VStr l).

Lemma stoq_choice_holds v :
  nargs a = nargs_None → type_ a = VNone →
  ns !! dest a = Some v →
  v = False_ ∨ v = VList [] ∨ ∃ s, v = VStr s ∧ s ∈ l.
Proof.
  intros Hn Hty.
  apply (destination_holds stoq_parser a
           (λ v, v = False_ ∨ v = VList [] ∨ ∃ s, v = VStr s ∧ s ∈ l)
           (λ b Hb, stoq_dest_own a b a_registered Hb))
    with args seen; [ | apply stoq_finish | exact returns | ].
  - intros st st' vs o Har Htake.
    destruct (take_action_choice st st' a (map VStr l) vs o
                a_store Hn Hty a_choices Har Htake)
      as (v' & Hns & [Hv | (s & Hs & Hin)]); exists v';
      (split; [exact Hns | ]); [by right; left | ].
    right. right. exists s. split; [exact Hs | by apply py_in_VStr_true].
  - rewrite a_default. intros v0 [= <-]. by left.
Qed.

End StoqChoice.

(** [--tlp=e] is one [take_action] of the TLP action on [e]. *)
Lemma tlp_explicit e :
  parse_args_seen stoq_parser ["--tlp=" +:+ e]
  = parse_outcome
      (take_action {| namespace := action_defaults stoq_parser;
                      seen_actions := []; extras := [] |}
                   (stoq_action "--tlp") [e]).
Proof.
  apply (option_with_explicit stoq_parser _ "--tlp");
    [ apply stoq_finish | discriminate | vm_compute; reflexivity
    | cbn; lia | reflexivity ].
Qed.

(** C9, as the code has it.  The choices of [--tlp] are ['white'],
    ['green'], ['amber'] and ['red'].  Each of the four parses, after
    [--tlp] and attached to it with an equals sign.  Any other string
    after [--tlp] makes the parse fail with a usage error, and so does any
    other string attached to it, with one exception: [--tlp=--] parses,
    and leaves the empty list under [default_tlp].  After any accepted
    argument list [default_tlp] holds [False], one of the four strings, or
    that empty list. *)
Theorem default_tlp_choices :
  choices (stoq_action "--tlp")
  = Some [VStr "white"; VStr "green"; VStr "amber"; VStr "red"]
  ∧ (∀ v, v ∈ ["white"; "green"; "amber"; "red"] →
          (∃ ns, parse_args stoq_parser ["--tlp"; v] = Ok ns
                 ∧ ns !! "default_tlp" = Some (VStr v))
          ∧ parse_args stoq_parser ["--tlp=" +:+ v]
            = Ok (<["default_tlp" := VStr v]> (action_defaults stoq_parser)))
  ∧ (∀ v, v ∉ ["white"; "green"; "amber"; "red"] →
          ∃ msg, parse_args stoq_parser ["--tlp"; v]
                 = Raise (SystemExit 2 (Some msg)))
  ∧ (∀ v, v ∉ ["white"; "green"; "amber"; "red"] → v ≠ "--" →
          parse_args stoq_parser ["--tlp=" +:+ v]
          = error (invalid_choice
                     (VStr v)
                     [VStr "white"; VStr "green"; VStr "amber"; VStr "red"]))
  ∧ parse_args stoq_parser ["--tlp=--"]
    = Ok (<["default_tlp" := VList []]> (action_defaults stoq_parser))
  ∧ (∀ args ns,
       parse_args stoq_parser args = Ok ns →
       ∃ v, ns !! "default_tlp" = Some v
            ∧ (v = False_ ∨ v = VList []
               ∨ ∃ s, v = VStr s ∧ s ∈ ["white"; "green"; "amber"; "red"])).
Proof.
  split; [reflexivity | ]. split.
  { intros v Hv. split.
    - apply parse_sets_true.
      repeat (apply elem_of_cons in Hv as [-> | Hv];
              [vm_compute; reflexivity | ]).
      by apply elem_of_nil in Hv.
    - assert (Hne : v ≠ "--").
      { intros ->.
        repeat (apply elem_of_cons in Hv as [[=] | Hv]).
        by apply elem_of_nil in Hv. }
      unfold parse_args. rewrite tlp_explicit.
      rewrite (take_action_good_choice _ _ _ (map VStr tlp_levels));
        [ reflexivity | exact Hne | reflexivity .. | ].
      clear Hne.
      repeat (apply elem_of_cons in Hv as [-> | Hv]; [reflexivity | ]).
      by apply elem_of_nil in Hv. }
  split.
  { intros v Hv.
    apply (store_value_rejected stoq_parser "--tlp" (stoq_action "--tlp") v
             (map VStr tlp_levels)); try reflexivity; try discriminate.
    by apply py_in_VStr_false. }
  split.
  { intros v Hv Hne. unfold parse_args. rewrite tlp_explicit.
    rewrite (take_action_bad_choice _ _ _ (map VStr tlp_levels));
      [ reflexivity | exact Hne | reflexivity .. | ].
    by apply py_in_VStr_false. }
  split.
  { unfold parse_args. change "--tlp=--" with ("--tlp=" +:+ "--").
    rewrite (tlp_explicit "--").
    rewrite take_action_dashdash by reflexivity. reflexivity. }
  intros args ns H. apply parse_args_seen_iff in H as [seen H].
  pose proof (inv_dests _ (stoq_parse_inv _ _ _ H)) as Hdests.
  unfold dests_inv in Hdests. cbn [namespace] in Hdests.
  assert (Hsome : ∃ v, ns !! "default_tlp" = Some v).
  { apply Hdests. refine (bool_decide_unpack _ _). vm_compute. exact I. }
  clear Hdests. destruct Hsome as [v Hv]. exists v. split; [exact Hv | ].
  assert (Hreg : registered stoq_parser (stoq_action "--tlp")).
  { apply stoq_action_registered. by eexists. }
  assert (Hdef : action_defaults stoq_parser !! dest (stoq_action "--tlp")
                 = Some False_) by reflexivity.
  assert (Hcls : action_class (stoq_action "--tlp") = _StoreAction)
    by reflexivity.
  assert (Hch : choices (stoq_action "--tlp") = Some (map VStr tlp_levels))
    by reflexivity.
  assert (Hn : nargs (stoq_action "--tlp") = nargs_None) by reflexivity.
  assert (Hty : type_ (stoq_action "--tlp") = VNone) by reflexivity.
  change (ns !! dest (stoq_action "--tlp") = Some v) in Hv.
  revert Hreg Hdef Hcls Hch Hn Hty Hv.
  generalize (stoq_action "--tlp"). intros a Hreg Hdef Hcls Hch Hn Hty Hv.
  exact (stoq_choice_holds args ns seen H a Hreg Hdef Hcls tlp_levels Hch v
           Hn Hty Hv).
Qed.

End Stoq.

(** ** The pipeline components *)

(** C4. The Recursion Guard's [allow] is a function of the ceiling and the
    depth alone; it is true exactly when the depth is at most the ceiling,
    an unset ceiling counting as zero; with an unset or zero ceiling only
    depth 0 is allowed. *)
Theorem recursion_guard_allow :
  (∀ max_recursion lineage_depth,
     RecursionGuard.allow max_recursion lineage_depth = true
     ↔ (Z.of_nat lineage_depth <= RecursionGuard.ceiling max_recursion)%Z)
  ∧ (∀ lineage_depth,
       RecursionGuard.allow None lineage_depth = true ↔ lineage_depth = 0)
  ∧ (∀ lineage_depth,
       RecursionGuard.allow (Some 0%Z) lineage_depth = true
       ↔ lineage_depth = 0)
  ∧ RecursionGuard.configured False_ = None.
Proof.
  assert (H0 : ∀ d, Nat.eqb d 0 = true ↔ (Z.of_nat d <= 0)%Z).
  { intros d. rewrite Nat.eqb_eq. lia. }
  split; [ | split; [ | split]].
  - intros [[ | m | m] | ] d; simpl; rewrite ?H0, ?Z.leb_le; reflexivity.
  - intros d. simpl. apply Nat.eqb_eq.
  - intros d. simpl. apply Nat.eqb_eq.
  - reflexivity.
Qed.

Lemma admit_all_length cfg calls s :
  length (fst (RateLimiter.admit_all cfg calls s)) = length calls.
Proof.
  revert s. induction calls as [ | [who now] calls IH]; intros s; simpl;
    [reflexivity | ].
  destruct (RateLimiter.admit_ cfg now s) as [r s1].
  specialize (IH s1). destruct (RateLimiter.admit_all cfg calls s1) as [rs s2].
  simpl in *. by rewrite IH.
Qed.





Lemma filter_fst_map (c c' : string) {A B} (f : A → B) (l : list A) :
  length (filter (λ d : string * B, fst d = c) (map (λ r, (c', f r)) l))
  = if decide (c' = c) then length l else 0.
Proof.
  induction l as [ | r l IH]; cbn [map]; [by destruct (decide (c' = c)) | ].
  destruct (decide (c' = c)) as [Heq | Hne].
  - rewrite filter_cons_True by exact Heq. cbn [length]. by rewrite IH.
  - rewrite filter_cons_False by exact Hne. exact IH.
Qed.

(** The number of records a connector receives, for any list of connectors:
    its number of occurrences times the number of results in split mode,
    its number of occurrences in combined mode. *)
Lemma routed_to_split c connectors payload results :
  length (ResultRouter.routed_to c
            (ResultRouter.route connectors payload results ResultRouter.split))
  = length (filter (λ c', c' = c) connectors) * length results.
Proof.
  unfold ResultRouter.routed_to, ResultRouter.route. rewrite length_map.
  induction connectors as [ | c' connectors IH]; [reflexivity | ].
  cbn [flat_map]. rewrite filter_app, length_app, IH, filter_fst_map.
  destruct (decide (c' = c)) as [Heq | Hne].
  - rewrite filter_cons_True by exact Heq. cbn [length]. lia.
  - rewrite filter_cons_False by exact Hne. lia.
Qed.

Lemma routed_to_combined c connectors payload results :
  length (ResultRouter.routed_to c
            (ResultRouter.route connectors payload results
                                ResultRouter.combined))
  = length (filter (λ c', c' = c) connectors).
Proof.
  unfold ResultRouter.routed_to, ResultRouter.route. rewrite length_map.
  induction connectors as [ | c' connectors IH]; [reflexivity | ].
  cbn [map]. destruct (decide (c' = c)) as [Heq | Hne].
  - rewrite !filter_cons_True by exact Heq. cbn [length]. by rewrite IH.
  - rewrite !filter_cons_False by exact Hne. exact IH.
Qed.

Lemma count_NoDup (c : string) (connectors : list string) :
  NoDup connectors → c ∈ connectors →
  length (filter (λ c', c' = c) connectors) = 1.
Proof.
  induction 1 as [ | c' connectors Hnotin Hnd IH]; intros Hin.
  { by apply elem_of_nil in Hin. }
  apply elem_of_cons in Hin as [-> | Hin].
  - rewrite filter_cons_True by reflexivity. cbn [length]. f_equal.
    clear IH Hnd. induction connectors as [ | d connectors IH];
      [reflexivity | ].
    rewrite filter_cons_False.
    + apply IH. intros H. apply Hnotin. by apply list_elem_of_further.
    + intros ->. apply Hnotin. apply list_elem_of_here.
  - rewrite filter_cons_False; [by apply IH | ]. intros ->. contradiction.
Qed.

(** C3. For a payload with a non-empty list of PluginResults, every
    configured output connector receives exactly [len(results)] records in
    split mode and exactly one record in combined mode. *)
Theorem router_records_per_connector (connectors : list string)
    (payload : string) (results : list ResultRouter.PluginResult)
    (c : string) :
  results ≠ [] → NoDup connectors → c ∈ connectors →
  length (ResultRouter.routed_to c
            (ResultRouter.route connectors payload results
                                ResultRouter.split))
  = length results
  ∧ length (ResultRouter.routed_to c
              (ResultRouter.route connectors payload results
                                  ResultRouter.combined))
    = 1
  ∧ ResultRouter.mode_of True_ = ResultRouter.combined
  ∧ ResultRouter.mode_of False_ = ResultRouter.split.
Proof.
  intros _ Hnd Hin.
  rewrite routed_to_split, routed_to_combined, (count_NoDup c connectors Hnd Hin).
  split; [lia | ]. split; [reflexivity | ]. split; reflexivity.
Qed.

Lemma split_once_append (sep : ascii) (key value : string) :
  char_in sep key = false →
  split_once sep (key +:+ String sep value) = Some (key, value).
Proof.
  induction key as [ | c key IH]; simpl.
  - intros _. by rewrite Ascii.eqb_refl.
  - rewrite Ascii.eqb_sym. destruct (Ascii.eqb c sep); [discriminate | ].
    simpl. intros H. by rewrite IH.
Qed.

Lemma split_once_none (sep : ascii) (s : string) :
  char_in sep s = false → split_once sep s = None.
Proof.
  induction s as [ | c s IH]; simpl; [reflexivity | ].
  rewrite Ascii.eqb_sym. destruct (Ascii.eqb c sep); [discriminate | ].
  simpl. intros H. by rewrite IH.
Qed.

(** C6. A metadata pair [key:value] parses into that key and value, so
    ["tag:APT1"] gives key [tag] and value [APT1]; a string without a colon,
    such as ["bad"], is rejected with [InvalidMetadataFormat], also when it
    is one of several pairs handed to [tag]. *)
Theorem metadata_pairs_parse :
  (∀ key value,
     char_in ":" key = false →
     TaggingLayer.parse_pair (key +:+ String ":" value)
     = TaggingLayer.Tagged (key, value))
  ∧ TaggingLayer.parse_pair "tag:APT1" = TaggingLayer.Tagged ("tag", "APT1")
  ∧ (∀ s, char_in ":" s = false →
          TaggingLayer.parse_pair s
          = TaggingLayer.Rejected (TaggingLayer.InvalidMetadataFormat s))
  ∧ TaggingLayer.parse_pair "bad"
    = TaggingLayer.Rejected (TaggingLayer.InvalidMetadataFormat "bad")
  ∧ (∀ payload classification s,
       char_in ":" s = false →
       TaggingLayer.tag payload classification [s]
       = TaggingLayer.Rejected (TaggingLayer.InvalidMetadataFormat s)).
Proof.
  split; [ | split; [reflexivity | split; [ | split; [reflexivity | ]]]].
  - intros key value Hk. unfold TaggingLayer.parse_pair.
    by rewrite split_once_append.
  - intros s Hs. unfold TaggingLayer.parse_pair. by rewrite split_once_none.
  - intros payload classification s Hs.
    unfold TaggingLayer.tag, TaggingLayer.parse_pairs, TaggingLayer.parse_pair.
    by rewrite split_once_none.
Qed.


(** ** The theorems at concrete inputs

    The builtins are instantiated with their ASCII behaviours. *)

Definition run (args : list string) : result (Namespace * list Action) :=
  parse_args_seen int_ascii negative_number_ascii stoq_parser args.

Definition run_namespace (args : list string) : Namespace :=
  match run args with
  | Ok (ns, _) => ns
  | Raise _ => ∅
  end.

Definition run_seen (args : list string) : list Action :=
  match run args with
  | Ok (_, seen) => seen
  | Raise _ => []
  end.

Definition run_returns (args : list string) : bool :=
  match run args with
  | Ok _ => true
  | Raise _ => false
  end.

Lemma run_ok args :
  run_returns args = true → run args = Ok (run_namespace args, run_seen args).
Proof.
  unfold run_returns, run_namespace, run_seen.
  destruct (run args) as [[ns seen] | e]; [reflexivity | discriminate].
Qed.

(** The heap after [argparse.ArgumentParser()], and after [StoqArgs] on the
    parser it holds. *)
Definition heap0 : Heap := snd (ArgumentParser_new negative_number_ascii ∅).
Definition heap1 : Heap :=
  snd (StoqArgs negative_number_ascii 1%positive heap0).

Lemma StoqArgs_heap0 :
  StoqArgs negative_number_ascii 1%positive heap0 = (Ok 1%positive, heap1).
Proof.
  unfold heap1.
  destruct (StoqArgs negative_number_ascii 1%positive heap0) as [r h] eqn:H.
  assert (Hr : fst (StoqArgs negative_number_ascii 1%positive heap0)
               = Ok 1%positive) by (vm_compute; reflexivity).
  rewrite H in Hr. simpl in Hr. by rewrite Hr.
Qed.

Lemma StoqArgs_defines_fifteen_options_witness :
  StoqArgs negative_number_ascii 1%positive heap0 = (Ok 1%positive, heap1)
  ∧ ∃ P P', heap0 !! 1%positive = Some P ∧ heap1 !! 1%positive = Some P'
            ∧ map dest (_actions P')
              = map dest (_actions P)
                ++ ["log_level"; "template"; "max_processes";
                    "max_recursion"; "output_connector";
                    "archive_connector"; "combined_results"; "path";
                    "outfile"; "source_plugin"; "error_queue"; "dispatch";
                    "default_tlp"; "ingest_metadata"; "ratelimit"].
Proof.
  split; [exact StoqArgs_heap0 | ].
  exact (proj1 (proj2 (StoqArgs_defines_fifteen_options
                         int_ascii negative_number_ascii))
               1%positive heap0 1%positive heap1 StoqArgs_heap0).
Defined.

Lemma StoqArgs_returns_its_parser_witness :
  StoqArgs negative_number_ascii 1%positive heap0 = (Ok 1%positive, heap1)
  ∧ 1%positive = 1%positive ∧ dom heap1 = dom heap0
  ∧ ∀ q, q ≠ 1%positive → heap1 !! q = heap0 !! q.
Proof.
  split; [exact StoqArgs_heap0 | ].
  exact (proj1 (StoqArgs_returns_its_parser int_ascii negative_number_ascii)
               1%positive heap0 1%positive heap1 StoqArgs_heap0).
Defined.

Lemma run_split : run ["-S"] = Ok (run_namespace ["-S"], run_seen ["-S"]).
Proof. apply run_ok. vm_compute. reflexivity. Qed.

Lemma combined_results_default_and_split_witness :
  run ["-S"] = Ok (run_namespace ["-S"], run_seen ["-S"])
  ∧ ("-S" ∈ ["-S"] ∨ "--split" ∈ ["-S"])
  ∧ run_namespace ["-S"] !! "combined_results" = Some False_.
Proof.
  assert (Hin : "-S" ∈ ["-S"] ∨ "--split" ∈ ["-S"]).
  { left. apply (bool_decide_unpack _). vm_compute. exact I. }
  split; [exact run_split | ]. split; [exact Hin | ].
  exact (proj1 (proj2 (proj1 (proj2 (combined_results_default_and_split
                                       int_ascii negative_number_ascii))
                             ["-S"] _ _ run_split))
               Hin).
Defined.

Lemma run_toggles :
  run ["-E"; "--dispatch"]
  = Ok (run_namespace ["-E"; "--dispatch"], run_seen ["-E"; "--dispatch"]).
Proof. apply run_ok. vm_compute. reflexivity. Qed.

Lemma error_queue_and_dispatch_toggles_witness :
  run ["-E"; "--dispatch"]
  = Ok (run_namespace ["-E"; "--dispatch"], run_seen ["-E"; "--dispatch"])
  ∧ ("-E" ∈ ["-E"; "--dispatch"] ∨ "--errors" ∈ ["-E"; "--dispatch"])
  ∧ run_namespace ["-E"; "--dispatch"] !! "error_queue" = Some True_.
Proof.
  assert (Hin : "-E" ∈ ["-E"; "--dispatch"] ∨ "--errors" ∈ ["-E"; "--dispatch"]).
  { left. apply (bool_decide_unpack _). vm_compute. exact I. }
  split; [exact run_toggles | ]. split; [exact Hin | ].
  exact (proj1 (proj2 (proj2 (proj1 (proj2 (error_queue_and_dispatch_toggles
                                              int_ascii negative_number_ascii))
                                    ["-E"; "--dispatch"] _ _ run_toggles)))
               Hin).
Defined.

Lemma log_level_choices_witness :
  ("error" ∉ ["debug"; "info"; "warning"; "errorcritical"])
  ∧ (∃ msg, parse_args int_ascii negative_number_ascii stoq_parser
                       ["-L"; "error"]
            = Raise (SystemExit 2 (Some msg))).
Proof.
  assert (Hout : "error" ∉ ["debug"; "info"; "warning"; "errorcritical"]).
  { apply (bool_decide_unpack _). vm_compute. exact I. }
  split; [exact Hout | ].
  exact (proj1 (proj2 (proj2 (log_level_choices
                                int_ascii negative_number_ascii)))
               "error" Hout).
Defined.

(** C9 without its exception fails at [--tlp=--]: ['--'] is none of the
    four values, and the parse returns, with the empty list under
    [default_tlp]. *)
Lemma default_tlp_accepts_dashdash :
  ("--" ∉ ["white"; "green"; "amber"; "red"])
  ∧ ∃ ns, parse_args int_ascii negative_number_ascii stoq_parser ["--tlp=--"]
          = Ok ns
          ∧ ns !! "default_tlp" = Some (VList []).
Proof.
  split.
  { apply (bool_decide_unpack _). vm_compute. exact I. }
  apply parse_sets_true. vm_compute. reflexivity.
Qed.

Lemma default_tlp_choices_witness :
  ("purple" ∉ ["white"; "green"; "amber"; "red"])
  ∧ (∃ msg, parse_args int_ascii negative_number_ascii stoq_parser
                       ["--tlp"; "purple"]
            = Raise (SystemExit 2 (Some msg))).
Proof.
  assert (Hout : "purple" ∉ ["white"; "green"; "amber"; "red"]).
  { apply (bool_decide_unpack _). vm_compute. exact I. }
  split; [exact Hout | ].
  exact (proj1 (proj2 (proj2 (default_tlp_choices
                                int_ascii negative_number_ascii)))
               "purple" Hout).
Defined.

Definition pdf_result : ResultRouter.PluginResult :=
  {| ResultRouter.plugin := "pdf"; ResultRouter.body := "text";
     ResultRouter.children := ["object-1"]; ResultRouter.success := true |}.

Definition yara_result : ResultRouter.PluginResult :=
  {| ResultRouter.plugin := "yara"; ResultRouter.body := "hits";
     ResultRouter.children := []; ResultRouter.success := false |}.

Lemma router_records_per_connector_witness :
  length (ResultRouter.routed_to "file"
            (ResultRouter.route ["file"; "stdout"] "sample"
               [pdf_result; yara_result] ResultRouter.split))
  = 2
  ∧ length (ResultRouter.routed_to "file"
              (ResultRouter.route ["file"; "stdout"] "sample"
                 [pdf_result; yara_result] ResultRouter.combined))
    = 1.
Proof.
  assert (Hne : [pdf_result; yara_result] ≠ []) by discriminate.
  assert (Hnd : NoDup ["file"; "stdout"]).
  { apply (bool_decide_unpack _). vm_compute. exact I. }
  assert (Hin : "file" ∈ ["file"; "stdout"]).
  { apply (bool_decide_unpack _). vm_compute. exact I. }
  destruct (router_records_per_connector ["file"; "stdout"] "sample"
              [pdf_result; yara_result] "file" Hne Hnd Hin)
    as (Hsplit & Hcombined & _).
  split; [exact Hsplit | exact Hcombined].
Defined.




Lemma metadata_pairs_parse_witness :
  char_in ":" "submitter" = false
  ∧ TaggingLayer.parse_pair ("submitter" +:+ String ":" "stoq")
    = TaggingLayer.Tagged ("submitter", "stoq").
Proof.
  split; [reflexivity | ].
  exact (proj1 metadata_pairs_parse "submitter" "stoq" eq_refl).
Defined.

(** ** The further properties at concrete inputs *)

Lemma integer_options_witness :
  ("--max-processes" ∈ ["-M"; "--max-processes"; "-R"; "--max_recursion"])
  ∧ (startswith "-5" "-" = false ∨ negative_number negative_number_ascii "-5" = true)
  ∧ parse_args int_ascii negative_number_ascii stoq_parser
               ["--max-processes"; "-5"]
    = Ok (<["max_processes" := VInt (-5)]> (action_defaults stoq_parser)).
Proof.
  assert (Ho : "--max-processes"
               ∈ ["-M"; "--max-processes"; "-R"; "--max_recursion"]).
  { apply (bool_decide_unpack _). vm_compute. exact I. }
  assert (Hv : startswith "-5" "-" = false
               ∨ negative_number negative_number_ascii "-5" = true).
  { right. vm_compute. reflexivity. }
  split; [exact Ho | ]. split; [exact Hv | ].
  exact (integer_options int_ascii negative_number_ascii
                         "--max-processes" "-5" Ho Hv).
Defined.

Lemma text_options_witness :
  (("-F", "path") ∈ [("-T", "template"); ("--template", "template");
                     ("-C", "output_connector");
                     ("--connector", "output_connector");
                     ("-A", "archive_connector");
                     ("--archive", "archive_connector");
                     ("-F", "path"); ("--file", "path");
                     ("-O", "outfile"); ("--outfile", "outfile");
                     ("-I", "source_plugin"); ("--ingest", "source_plugin");
                     ("--rate-limit", "ratelimit")])
  ∧ (startswith "sample.bin" "-" = false
     ∨ negative_number negative_number_ascii "sample.bin" = true)
  ∧ parse_args int_ascii negative_number_ascii stoq_parser
               ["-F"; "sample.bin"]
    = Ok (<["path" := VStr "sample.bin"]> (action_defaults stoq_parser)).
Proof.
  split; [apply (bool_decide_unpack _); vm_compute; exact I | ].
  split; [left; reflexivity | ].
  apply (text_options int_ascii negative_number_ascii "-F" "path" "sample.bin").
  - apply (bool_decide_unpack _). vm_compute. exact I.
  - left. reflexivity.
Defined.

Lemma metadata_collects_arguments_witness :
  Forall (λ v, startswith v "-" = false
               ∨ negative_number negative_number_ascii v = true)
         ["tag:APT1"; "-7"]
  ∧ parse_args int_ascii negative_number_ascii stoq_parser
               ["--metadata"; "tag:APT1"; "-7"]
    = Ok (<["ingest_metadata" := VList [VStr "tag:APT1"; VStr "-7"]]>
            (action_defaults stoq_parser)).
Proof.
  assert (Hvs : Forall (λ v, startswith v "-" = false
                             ∨ negative_number negative_number_ascii v = true)
                       ["tag:APT1"; "-7"]).
  { constructor; [left; reflexivity | ].
    constructor; [right; vm_compute; reflexivity | constructor]. }
  split; [exact Hvs | ].
  exact (metadata_collects_arguments int_ascii negative_number_ascii
                                     ["tag:APT1"; "-7"] Hvs).
Defined.

Lemma no_positional_arguments_witness :
  ("--" ∈ ["sample.bin"; "-S"]
   ∨ ∃ v, head ["sample.bin"; "-S"] = Some v ∧ startswith v "-" = false)
  ∧ (parse_args int_ascii negative_number_ascii stoq_parser
                ["sample.bin"; "-S"]
     ≠ Ok (<["combined_results" := False_]> (action_defaults stoq_parser))).
Proof.
  assert (Hargs : "--" ∈ ["sample.bin"; "-S"]
                  ∨ ∃ v, head ["sample.bin"; "-S"] = Some v
                         ∧ startswith v "-" = false).
  { right. exists "sample.bin". split; reflexivity. }
  split; [exact Hargs | ].
  exact (no_positional_arguments int_ascii negative_number_ascii
                                 ["sample.bin"; "-S"] _ Hargs).
Defined.

Lemma value_option_needs_argument_witness :
  ("--tlp" ∈ ["-L"; "--loglevel"; "-T"; "--template"; "-M";
              "--max-processes"; "-R"; "--max_recursion"; "-C";
              "--connector"; "-A"; "--archive"; "-F"; "--file"; "-O";
              "--outfile"; "-I"; "--ingest"; "--tlp"; "--rate-limit"])
  ∧ Forall (λ s, s ∈ (_option_string_actions stoq_parser).*1) ["-S"]
  ∧ parse_args int_ascii negative_number_ascii stoq_parser ["--tlp"; "-S"]
    = error expected_one_argument.
Proof.
  assert (Ho : "--tlp" ∈ ["-L"; "--loglevel"; "-T"; "--template"; "-M";
                          "--max-processes"; "-R"; "--max_recursion"; "-C";
                          "--connector"; "-A"; "--archive"; "-F"; "--file";
                          "-O"; "--outfile"; "-I"; "--ingest"; "--tlp";
                          "--rate-limit"]).
  { apply (bool_decide_unpack _). vm_compute. exact I. }
  assert (Hrest : Forall (λ s, s ∈ (_option_string_actions stoq_parser).*1)
                         ["-S"]).
  { constructor; [ | constructor].
    apply (bool_decide_unpack _). vm_compute. exact I. }
  split; [exact Ho | ]. split; [exact Hrest | ].
  exact (value_option_needs_argument int_ascii negative_number_ascii
                                     "--tlp" ["-S"] Ho Hrest).
Defined.

Lemma text_options_explicit_witness :
  (("--file", "path") ∈ [("-T", "template"); ("--template", "template");
                         ("-C", "output_connector");
                         ("--connector", "output_connector");
                         ("-A", "archive_connector");
                         ("--archive", "archive_connector");
                         ("-F", "path"); ("--file", "path");
                         ("-O", "outfile"); ("--outfile", "outfile");
                         ("-I", "source_plugin");
                         ("--ingest", "source_plugin");
                         ("--rate-limit", "ratelimit")])
  ∧ parse_args int_ascii negative_number_ascii stoq_parser ["--file=-x"]
    = Ok (<["path" := VStr "-x"]> (action_defaults stoq_parser)).
Proof.
  split; [apply (bool_decide_unpack _); vm_compute; exact I | ].
  apply (text_options_explicit int_ascii negative_number_ascii
                               "--file" "path" "-x").
  apply (bool_decide_unpack _). vm_compute. exact I.
Defined.

Lemma run_tlp :
  parse_args int_ascii negative_number_ascii stoq_parser ["-S"; "--tlp"; "red"]
  = Ok (run_namespace ["-S"; "--tlp"; "red"]).
Proof.
  unfold parse_args. fold (run ["-S"; "--tlp"; "red"]).
  rewrite run_ok; [reflexivity | vm_compute; reflexivity].
Qed.

Lemma options_not_given_keep_default_witness :
  parse_args int_ascii negative_number_ascii stoq_parser ["-S"; "--tlp"; "red"]
  = Ok (run_namespace ["-S"; "--tlp"; "red"])
  ∧ Forall (λ s, char_in "F" s = false ∧ startswith s "--f" = false)
           ["-S"; "--tlp"; "red"]
  ∧ run_namespace ["-S"; "--tlp"; "red"] !! "path" = Some False_.
Proof.
  assert (Hno : Forall (λ s, char_in "F" s = false ∧ startswith s "--f" = false)
                       ["-S"; "--tlp"; "red"]).
  { repeat constructor. }
  assert (Hin : ("F"%char, "f"%char, "path")
                ∈ [("L"%char, "l"%char, "log_level");
                   ("T"%char, "t"%char, "template");
                   ("M"%char, "m"%char, "max_processes");
                   ("R"%char, "m"%char, "max_recursion");
                   ("C"%char, "c"%char, "output_connector");
                   ("A"%char, "a"%char, "archive_connector");
                   ("F"%char, "f"%char, "path");
                   ("O"%char, "o"%char, "outfile");
                   ("I"%char, "i"%char, "source_plugin")]).
  { apply (bool_decide_unpack _). vm_compute. exact I. }
  split; [exact run_tlp | ]. split; [exact Hno | ].
  exact (proj1 (options_not_given_keep_default
                  int_ascii negative_number_ascii
                  ["-S"; "--tlp"; "red"] _ run_tlp)
               "F"%char "f"%char "path" Hin Hno).
Defined.

Lemma run_template :
  parse_args int_ascii negative_number_ascii stoq_parser ["-T"; "a"; "-E"]
  = Ok (run_namespace ["-T"; "a"; "-E"]).
Proof.
  unfold parse_args. fold (run ["-T"; "a"; "-E"]).
  rewrite run_ok; [reflexivity | vm_compute; reflexivity].
Qed.

Lemma options_add_up_witness :
  parse_args int_ascii negative_number_ascii stoq_parser ["-T"; "a"; "-E"]
  = Ok (run_namespace ["-T"; "a"; "-E"])
  ∧ parse_args int_ascii negative_number_ascii stoq_parser
               (["-T"; "a"; "-E"] ++ ["--template"; "b"])
    = Ok (<["template" := VStr "b"]> (run_namespace ["-T"; "a"; "-E"])).
Proof.
  split; [exact run_template | ].
  apply (proj1 (options_add_up int_ascii negative_number_ascii
                               ["-T"; "a"; "-E"] _ run_template)
               "--template" "template" "b").
  - apply (bool_decide_unpack _). vm_compute. exact I.
  - left. reflexivity.
Defined.

(** The parser of [argparse.ArgumentParser()]. *)
Definition fresh_parser : ArgumentParser :=
  Eval vm_compute in
    match heap0 !! 1%positive with
    | Some P => P
    | None => mkParser "" VNone "" [] [] [] [] []
    end.

Lemma heap0_parser : heap0 !! 1%positive = Some fresh_parser.
Proof. vm_compute. reflexivity. Qed.

Lemma StoqArgs_on_any_parser_witness :
  heap0 !! 1%positive = Some fresh_parser
  ∧ char_in "-" (prefix_chars fresh_parser) = true
  ∧ Forall (λ o, dict_get o (_option_string_actions fresh_parser) = None)
           stoq_option_strings
  ∧ ∃ P', StoqArgs negative_number_ascii 1%positive heap0
          = (Ok 1%positive, <[1%positive := P']> heap0)
          ∧ _actions P' = _actions fresh_parser ++ stoq_actions True_.
Proof.
  assert (Hfree : Forall (λ o, dict_get o (_option_string_actions fresh_parser)
                               = None) stoq_option_strings).
  { repeat constructor. }
  split; [exact heap0_parser | ]. split; [reflexivity | ].
  split; [exact Hfree | ].
  destruct (StoqArgs_on_any_parser negative_number_ascii 1%positive heap0
              fresh_parser heap0_parser eq_refl Hfree)
    as (P' & Hrun & Hactions & _).
  exists P'. split; [exact Hrun | exact Hactions].
Defined.

(** A parser that has a [--tlp] of its own. *)
Definition parser_with_tlp : ArgumentParser :=
  extend fresh_parser [] [("--tlp", stoq_action "--tlp")] [].

Lemma StoqArgs_stops_at_first_conflict_witness :
  ({[ 1%positive := parser_with_tlp ]} : Heap) !! 1%positive
  = Some parser_with_tlp
  ∧ char_in "-" (prefix_chars parser_with_tlp) = true
  ∧ conflict_handler parser_with_tlp = "error"
  ∧ first_conflict parser_with_tlp 0 stoq_calls = Some (12, ["--tlp"])
  ∧ ∃ P', StoqArgs negative_number_ascii 1%positive
                   {[ 1%positive := parser_with_tlp ]}
          = (Raise (ArgumentError "--tlp"
                      (conflicting_option_strings ["--tlp"])),
             <[1%positive := P']> {[ 1%positive := parser_with_tlp ]})
          ∧ map dest (_actions P')
            = ["help"; "log_level"; "template"; "max_processes";
               "max_recursion"; "output_connector"; "archive_connector";
               "combined_results"; "path"; "outfile"; "source_plugin";
               "error_queue"; "dispatch"].
Proof.
  assert (HP : ({[ 1%positive := parser_with_tlp ]} : Heap) !! 1%positive
               = Some parser_with_tlp) by apply lookup_singleton_eq.
  assert (Hfc : first_conflict parser_with_tlp 0 stoq_calls
                = Some (12, ["--tlp"])) by (vm_compute; reflexivity).
  split; [exact HP | ]. do 2 (split; [reflexivity | ]). split; [exact Hfc | ].
  destruct (StoqArgs_stops_at_first_conflict negative_number_ascii 1%positive
              _ parser_with_tlp 12 ["--tlp"] HP eq_refl eq_refl Hfc)
    as (P' & Hrun & _ & Hactions & _).
  exists P'. split.
  - rewrite Hrun. reflexivity.
  - rewrite Hactions. reflexivity.
Defined.

Lemma StoqArgs_returns_iff_witness :
  heap0 !! 1%positive = Some fresh_parser
  ∧ conflict_handler fresh_parser = "error"
  ∧ ((∃ r h', StoqArgs negative_number_ascii 1%positive heap0 = (Ok r, h'))
     ↔ char_in "-" (prefix_chars fresh_parser) = true
       ∧ Forall (λ o, dict_get o (_option_string_actions fresh_parser) = None)
                stoq_option_strings).
Proof.
  split; [exact heap0_parser | ]. split; [reflexivity | ].
  exact (StoqArgs_returns_iff negative_number_ascii 1%positive heap0
           fresh_parser heap0_parser eq_refl).
Defined.

Lemma StoqArgs_twice_witness :
  heap0 !! 1%positive = Some fresh_parser
  ∧ conflict_handler fresh_parser = "error"
  ∧ StoqArgs negative_number_ascii 1%positive heap0 = (Ok 1%positive, heap1)
  ∧ ∃ h'', StoqArgs negative_number_ascii 1%positive heap1
           = (Raise (ArgumentError "-L/--loglevel"
                       (conflicting_option_strings ["-L"; "--loglevel"])),
              h'').
Proof.
  split; [exact heap0_parser | ]. split; [reflexivity | ].
  split; [exact StoqArgs_heap0 | ].
  destruct (StoqArgs_twice negative_number_ascii 1%positive heap0
              fresh_parser 1%positive heap1 heap0_parser eq_refl
              StoqArgs_heap0)
    as (P' & P'' & _ & Hrun & _).
  eexists. exact Hrun.
Defined.

(** A parser made with [prefix_chars='+'] and [add_help=False]. *)
Definition plus_parser : ArgumentParser :=
  {| prefix_chars := "+";
     argument_default := VNone;
     conflict_handler := "error";
     _defaults := [];
     _actions := [];
     _option_string_actions := [];
     _has_negative_number_optionals := [];
     _action_groups := [] |}.

Lemma StoqArgs_needs_the_dash_witness :
  ({[ 1%positive := plus_parser ]} : Heap) !! 1%positive = Some plus_parser
  ∧ char_in "-" (prefix_chars plus_parser) = false
  ∧ ∃ P', StoqArgs negative_number_ascii 1%positive
                   {[ 1%positive := plus_parser ]}
          = (Raise (ValueError "invalid option string"),
             <[1%positive := P']> {[ 1%positive := plus_parser ]})
          ∧ _actions P' = [].
Proof.
  assert (HP : ({[ 1%positive := plus_parser ]} : Heap) !! 1%positive
               = Some plus_parser) by apply lookup_singleton_eq.
  split; [exact HP | ]. split; [reflexivity | ].
  destruct (StoqArgs_needs_the_dash negative_number_ascii 1%positive _
              plus_parser HP eq_refl)
    as (P' & Hrun & Hactions & _).
  exists P'. split; [exact Hrun | exact Hactions].
Defined.

Lemma run_processes :
  parse_args int_ascii negative_number_ascii stoq_parser ["-M"; "4"; "-R=--"]
  = Ok (run_namespace ["-M"; "4"; "-R=--"]).
Proof.
  unfold parse_args. fold (run ["-M"; "4"; "-R=--"]).
  rewrite run_ok; [reflexivity | vm_compute; reflexivity].
Qed.

Lemma destinations_hold_witness :
  parse_args int_ascii negative_number_ascii stoq_parser ["-M"; "4"; "-R=--"]
  = Ok (run_namespace ["-M"; "4"; "-R=--"])
  ∧ ∃ v, run_namespace ["-M"; "4"; "-R=--"] !! "max_recursion" = Some v
         ∧ (v = False_ ∨ v = VList []
            ∨ ∃ s z, int_ascii s = Some z ∧ v = VInt z).
Proof.
  split; [exact run_processes | ].
  apply (proj1 (proj2 (destinations_hold int_ascii negative_number_ascii
                         ["-M"; "4"; "-R=--"] _ run_processes))).
  apply (bool_decide_unpack _). vm_compute. exact I.
Defined.

Lemma short_options_attached_witness :
  (("F"%char, "path")
   ∈ [("T"%char, "template"); ("C"%char, "output_connector");
      ("A"%char, "archive_connector"); ("F"%char, "path");
      ("O"%char, "outfile"); ("I"%char, "source_plugin")])
  ∧ ("s"%char ≠ "="%char)
  ∧ parse_args int_ascii negative_number_ascii stoq_parser ["-Fsample.bin"]
    = Ok (<["path" := VStr "sample.bin"]> (action_defaults stoq_parser)).
Proof.
  assert (Hx : ("F"%char, "path")
               ∈ [("T"%char, "template"); ("C"%char, "output_connector");
                  ("A"%char, "archive_connector"); ("F"%char, "path");
                  ("O"%char, "outfile"); ("I"%char, "source_plugin")]).
  { apply (bool_decide_unpack _). vm_compute. exact I. }
  assert (He : "s"%char ≠ "="%char) by discriminate.
  split; [exact Hx | ]. split; [exact He | ].
  exact (short_options_attached int_ascii negative_number_ascii
                                "F" "path" "s" "ample.bin" Hx He).
Defined.

Lemma flag_clusters_witness :
  (["S"; "E"; "D"]%char ≠ [])
  ∧ Forall (λ c, c ∈ ["S"; "E"; "D"]%char) ["S"; "E"; "D"]%char
  ∧ parse_args int_ascii negative_number_ascii stoq_parser ["-SED"]
    = parse_args int_ascii negative_number_ascii stoq_parser
                 ["-S"; "-E"; "-D"].
Proof.
  assert (Hne : ["S"; "E"; "D"]%char ≠ []) by discriminate.
  assert (Hall : Forall (λ c, c ∈ ["S"; "E"; "D"]%char) ["S"; "E"; "D"]%char).
  { apply Forall_forall. intros c Hc. exact Hc. }
  split; [exact Hne | ]. split; [exact Hall | ].
  exact (proj1 (flag_clusters int_ascii negative_number_ascii
                              ["S"; "E"; "D"]%char Hne Hall)).
Defined.
